(** * polkadot-launch: launch pipeline and runtime-upgrade test

    A shallow embedding of the orchestration code of polkadot-launch
    (runner.ts, check.ts, spawn.ts, rpc.ts) and the properties its
    specification states about it.

    The orchestrator is sequential asynchronous code that talks to node
    binaries, the file system and a chain client.  It is embedded as a state
    and error monad that records the effects it performs; everything the
    outside world answers comes from a [World] record of oracles, indexed by
    the logical time (the number of effects performed so far) where the
    answer may change between two calls. *)

From Stdlib Require Import ZArith String List Bool Lia DecimalString.
From stdpp Require Import gmap strings list.

Open Scope string_scope.
Open Scope Z_scope.

(** ** JavaScript values *)

(** Truthiness of a string: only the empty string is falsy. *)
Definition truthy_string (s : string) : bool := negb (String.eqb s "").

(** Truthiness of an optional string field ([undefined] is falsy). *)
Definition truthy_opt (o : option string) : bool :=
  match o with
  | Some s => truthy_string s
  | None => false
  end.

(** The integers a JavaScript number holds exactly: those below [2^53] in
    absolute value ([Number.MAX_SAFE_INTEGER] is [2^53 - 1]). *)
Definition safe_integer (n : Z) : bool := Z.abs n <? 2 ^ 53.

(** [Number.prototype.toString()] on a safe integer: its decimal numeral.
    Ports are safe integers.  A larger number is a double that JavaScript
    prints rounded, and in exponent form from [1e21] on: what is proved
    about this conversion is proved under [safe_integer]. *)
Definition Number_toString (n : Z) : string :=
  NilZero.string_of_int (Z.to_int n).

(** A value of type [number | undefined], as a field of the parsed
    chain-spec JSON holds it; numbers are integers (parachain ids). *)
Definition JsNumber : Type := option Z.

Definition truthy (v : JsNumber) : bool :=
  match v with
  | Some n => negb (Z.eqb n 0)
  | None => false
  end.

(** [a || b] *)
Definition js_or (a b : JsNumber) : JsNumber := if truthy a then a else b.

(** [v.toString()]; [None] is the TypeError raised on [undefined]. *)
Definition js_toString (v : JsNumber) : option string :=
  match v with
  | Some n => Some (Number_toString n)
  | None => None
  end.

(** A property key: [obj[k]] with [k] undefined reads the key ["undefined"]. *)
Definition js_key (o : option string) : string := default "undefined" o.

(** [Math.ceil(a / b)] on integers, for a positive [b]. *)
Definition ceil_div (a b : Z) : Z := - ((- a) / b).

(** ** Configuration (types.d.ts) *)

(** The [flags] field is tested with [flags.constructor !== Array]. *)
Inductive Flags :=
| FlagsAbsent
| FlagsArray (fs : list string)
| FlagsNotArray.

Record RelayNodeConfig := {
  rn_name : string;
  rn_basePath : option string;
  rn_wsPort : Z;
  rn_rpcPort : option Z;
  rn_nodeKey : option string;
  rn_port : Z;
  rn_flags : Flags;
}.

Record RelayChainConfig := {
  rc_bin : string;
  rc_chain : string;
  rc_nodes : list RelayNodeConfig;
  rc_genesis : option string;
  rc_upgradeBin : option string;
  rc_upgradeWasm : option string;
}.

Record ParachainNodeConfig := {
  pn_rpcPort : option Z;
  pn_wsPort : Z;
  pn_port : Z;
  pn_basePath : option string;
  pn_name : option string;
  pn_flags : Flags;
  pn_auraKey : option string;
}.

(** [ParachainConfig] with the fields of its [Resolved] and [Upgradable]
    extensions, which the code adds to the same object. *)
Record ParachainConfig := {
  pc_bin : string;
  pc_id : option string;
  pc_balance : string;
  pc_chain : option string;
  pc_prepopulated : bool;
  pc_nodes : option (list ParachainNodeConfig);
  pc_resolvedId : option string;
  pc_resolvedSpec : option string;
  pc_upgradeBin : option string;
  pc_upgradeWasm : option string;
}.

Record SimpleParachainConfig := {
  sp_bin : string;
  sp_id : string;
  sp_port : string;
  sp_balance : string;
  sp_resolvedId : option string;
}.

Record HrmpChannelsConfig := {
  hc_sender : Z;
  hc_recipient : Z;
  hc_maxCapacity : Z;
  hc_maxMessageSize : Z;
}.

(** The [types] field: a path to a JSON file of type definitions, or the
    definitions themselves. *)
Inductive TypesDef :=
| TypesPath (path : string)
| TypesObject.

Record LaunchConfig := {
  lc_relaychain : option RelayChainConfig;
  lc_parachains : option (list ParachainConfig);
  lc_simpleParachains : option (list SimpleParachainConfig);
  lc_hrmpChannels : option (list HrmpChannelsConfig);
  lc_types : TypesDef;
  lc_finalization : bool;
}.

Definition set_resolvedId (p : ParachainConfig) (r : option string) : ParachainConfig :=
  {| pc_bin := pc_bin p; pc_id := pc_id p; pc_balance := pc_balance p;
     pc_chain := pc_chain p; pc_prepopulated := pc_prepopulated p;
     pc_nodes := pc_nodes p; pc_resolvedId := r;
     pc_resolvedSpec := pc_resolvedSpec p;
     pc_upgradeBin := pc_upgradeBin p; pc_upgradeWasm := pc_upgradeWasm p |}.

Definition set_simple_resolvedId (p : SimpleParachainConfig) (r : option string)
  : SimpleParachainConfig :=
  {| sp_bin := sp_bin p; sp_id := sp_id p; sp_port := sp_port p;
     sp_balance := sp_balance p; sp_resolvedId := r |}.

Definition set_nodeKey (n : RelayNodeConfig) (k : option string) : RelayNodeConfig :=
  {| rn_name := rn_name n; rn_basePath := rn_basePath n; rn_wsPort := rn_wsPort n;
     rn_rpcPort := rn_rpcPort n; rn_nodeKey := k; rn_port := rn_port n;
     rn_flags := rn_flags n |}.

Definition set_nodes (r : RelayChainConfig) (ns : list RelayNodeConfig) : RelayChainConfig :=
  {| rc_bin := rc_bin r; rc_chain := rc_chain r; rc_nodes := ns;
     rc_genesis := rc_genesis r; rc_upgradeBin := rc_upgradeBin r;
     rc_upgradeWasm := rc_upgradeWasm r |}.

Definition set_relaychain (c : LaunchConfig) (r : option RelayChainConfig) : LaunchConfig :=
  {| lc_relaychain := r; lc_parachains := lc_parachains c;
     lc_simpleParachains := lc_simpleParachains c;
     lc_hrmpChannels := lc_hrmpChannels c; lc_types := lc_types c;
     lc_finalization := lc_finalization c |}.

Definition set_parachains (c : LaunchConfig) (ps : option (list ParachainConfig)) : LaunchConfig :=
  {| lc_relaychain := lc_relaychain c; lc_parachains := ps;
     lc_simpleParachains := lc_simpleParachains c;
     lc_hrmpChannels := lc_hrmpChannels c; lc_types := lc_types c;
     lc_finalization := lc_finalization c |}.

Definition set_simpleParachains (c : LaunchConfig) (sps : option (list SimpleParachainConfig))
  : LaunchConfig :=
  {| lc_relaychain := lc_relaychain c; lc_parachains := lc_parachains c;
     lc_simpleParachains := sps;
     lc_hrmpChannels := lc_hrmpChannels c; lc_types := lc_types c;
     lc_finalization := lc_finalization c |}.

(** ** The outside world *)

(** What an awaited external operation does: it completes, it rejects, or
    its promise never settles. *)
Inductive ExtOutcome :=
| Fine
| Rejects (msg : string)
| Never.

(** The two id fields of a generated parachain chain spec. *)
Record SpecJson := {
  sj_paraId : JsNumber;
  sj_para_id : JsNumber;
}.

(** One call of the status callback of [signAndSend]. *)
Record TxResult := {
  tr_isInBlock : bool;
  tr_isFinalized : bool;
  tr_isError : bool;
}.

Record RelayInfo := {
  ri_specVersion : Z;
  ri_epochLength : Z;
  ri_blockTime : Z;
}.

Record World := {
  (** [path.resolve(dir, p)] *)
  w_resolve : string → string → string;
  (** [fs.existsSync(path)] *)
  w_existsSync : string → bool;
  (** outcome of the external operation begun at a given time *)
  w_ext : nat → ExtOutcome;
  (** parsed output of [bin build-spec [--chain=c]]; [None] when
      [JSON.parse] throws *)
  w_buildSpec : string → option string → option SpecJson;
  (** [bin export-genesis-state], [None] when the call fails *)
  w_exportGenesisState : string → option string → option string;
  (** [bin export-genesis-wasm], [None] when the call fails *)
  w_exportGenesisWasm : string → option string → option string;
  (** [hexStripPrefix(randomAsHex(32))] drawn at a given time *)
  w_randomKey : nat → string;
  (** base58 peer id derived from a node key *)
  w_peerId : string → string;
  (** [parachainAccount(id)] *)
  w_parachainAccount : string → string;
  (** [getRelayInfo] read at a given time *)
  w_relayInfo : nat → RelayInfo;
  (** [getSpecVersion] of the node behind a port, read at a given time *)
  w_specVersion : nat → Z → Z;
  (** [validationUpgradeDelay] and [minimumValidationUpgradeDelay] of the
      active configuration, read at a given time *)
  w_activeConfig : nat → option Z * option Z;
  (** [getGitRepositoryTag(location)] *)
  w_gitTag : string → string;
  (** the status callbacks a submitted transaction receives *)
  w_txStatuses : nat → list TxResult;
  (** [fs.readFileSync(path)] as hex, [None] when it throws *)
  w_readFile : string → option string;
  (** [JSON.parse] accepts the text of the file at a path *)
  w_jsonParses : string → bool;
  (** [blake2AsHex(code)] *)
  w_blake2 : string → string;
  (** [stdout.includes("err")] of the curl call of [giveKeyToCollator] *)
  w_curlErr : nat → bool;
}.

(** ** Effects *)

(** Key of the process table [p] of spawn.ts: a node name, or a port
    (a number used as a property key is its decimal numeral). *)
Inductive Key :=
| KName (name : string)
| KPort (port : Z).

Definition key_string (k : Key) : string :=
  match k with
  | KName n => n
  | KPort p => Number_toString p
  end.

(** Options passed to [startCollator] (CollatorOptions of types.d.ts:
    [relaySpec] is the relay chain's raw spec, [spec] the parachain's own
    chain; the older callers name these two [spec] and [chain]). *)
Record CollatorOptions := {
  co_name : option string;
  co_relaySpec : string;
  co_spec : option string;
  co_flags : Flags;
  co_basePath : option string;
  co_onlyOneParachainNode : bool;
}.

(** Privileged extrinsics submitted through [executeTransaction]. *)
Inductive Tx :=
| TxSetBalance (who value : string)
| TxSetCode (code : string)
| TxAuthorizeUpgrade (codeHash : string)
| TxEnactAuthorizedUpgrade (code : string).

(** Lines of the upgrade test's report. *)
Inductive Report :=
| RelayUpgraded (old new : Z)
| RelayFailed (old : Z)
| ParachainUpgraded (id : string) (old new : Z)
| ParachainFailed (id : string) (old : Z)
| WaitingCodeValidationDelay
| WaitingFewBlocksMore
| TestingFailed
| TestingComplete.

Inductive Event :=
(* spawn.ts *)
| EBuildSpec (bin : string) (chain : option string)
| EGenerateChainSpec (bin chain : string)
| EGenerateChainSpecRaw (bin chain : string) (id : option string)
| EExportGenesisState (bin : string) (chain : option string)
| EExportGenesisWasm (bin : string) (chain : option string)
| EStartNode (bin : string) (node : RelayNodeConfig) (spec : string)
| EStartCollator (bin : string) (wsPort : Z) (rpcPort : option Z) (port : Z)
    (options : CollatorOptions)
| ECollatorReady (wsPort : Z)
| EStartSimpleCollator (bin : string) (id : option string) (spec port : string)
    (skipIdArg : bool)
| ESimpleCollatorReady (port : string)
| EGiveKeyToCollator (rpcPort : Z) (key : string)
| EGenerateKeyPair (nodeKey : string)
| EReadTypeDef (path : string)
| EKill (key : Key)
(* spec.ts *)
| EClearAuthorities (spec : string)
| EAddAuthority (spec name : string)
| EChangeGenesisConfig (spec genesis : string)
| EAddGenesisParachain (spec : string) (id : option string) (head wasm : string)
    (parachain : bool)
| EAddGenesisHrmpChannel (spec : string) (channel : HrmpChannelsConfig)
| EAddBootNodes (spec : string) (bootnodes : list string)
(* rpc.ts *)
| EConnect (port : Z)
| EDisconnect
| EQueryNonce
| ESubmit (tx : Tx)
| EIncluded (tx : Tx)
| EGetRelayInfo
| EGetSpecVersion (port : Z)
| EGetCodeValidationDelay
(* runner.ts *)
| EDelay (ms : Z)
| EReport (r : Report).

(** The mutable state of a run: the logical time (the number of effects
    performed so far), the module variable [registeredParachains] of
    runner.ts and the process table [p] of spawn.ts ([true]: running,
    [false]: signalled to stop). *)
Record State := {
  st_time : nat;
  st_registered : gmap string bool;
  st_procs : gmap string bool;
}.

Definition initial_state : State :=
  {| st_time := 0; st_registered := ∅; st_procs := ∅ |}.

(** How a piece of the orchestrator ends: it returns, the process exits
    ([process.exit]), an exception propagates, or an awaited promise never
    settles. *)
Inductive Outcome (A : Type) :=
| Returned (a : A)
| Exited (code : Z)
| Thrown (msg : string)
| Pending.

Arguments Returned {A} a.
Arguments Exited {A} code.
Arguments Thrown {A} msg.
Arguments Pending {A}.

(** What running a piece of the orchestrator from a state gives: how it
    ends, the effects it performed, in order, and the state it leaves. *)
Record Result (A : Type) := {
  outcome : Outcome A;
  events : list Event;
  final : State;
}.

Arguments outcome {A} r.
Arguments events {A} r.
Arguments final {A} r.

Definition M (A : Type) : Type := State → Result A.

Definition ret {A} (a : A) : M A :=
  fun s => {| outcome := Returned a; events := []; final := s |}.

(** What an outcome other than [Returned] is in another result type. *)
Definition abort {A B} (o : Outcome A) : Outcome B :=
  match o with
  | Returned _ => Pending
  | Exited c => Exited c
  | Thrown e => Thrown e
  | Pending => Pending
  end.

Definition bind {A B} (m : M A) (k : A → M B) : M B :=
  fun s =>
    let r := m s in
    match outcome r with
    | Returned a =>
        let r' := k a (final r) in
        {| outcome := outcome r'; events := events r ++ events r'; final := final r' |}
    | o => {| outcome := abort o; events := events r; final := final r |}
    end.

Notation "x <- c1 ;; c2" := (bind c1 (fun x => c2))
  (at level 100, c1 at next level, right associativity).
Notation "c1 ;; c2" := (bind c1 (fun _ => c2))
  (at level 100, right associativity).

Definition stop {A} (o : Outcome A) : M A :=
  fun s => {| outcome := o; events := []; final := s |}.

Definition exit {A} (code : Z) : M A := stop (Exited code).
Definition throw {A} (msg : string) : M A := stop (Thrown msg).
Definition hang {A} : M A := stop Pending.

Definition emit (e : Event) : M unit :=
  fun s => {| outcome := Returned tt; events := [e];
              final := {| st_time := S (st_time s);
                          st_registered := st_registered s;
                          st_procs := st_procs s |} |}.

(** The logical time. *)
Definition now : M nat := fun s => ret (st_time s) s.

Definition get_registered : M (gmap string bool) :=
  fun s => ret (st_registered s) s.

Definition set_registered (r : gmap string bool) : M unit :=
  fun s => ret tt {| st_time := st_time s; st_registered := r; st_procs := st_procs s |}.

Definition get_procs : M (gmap string bool) :=
  fun s => ret (st_procs s) s.

Definition set_procs (p : gmap string bool) : M unit :=
  fun s => ret tt {| st_time := st_time s; st_registered := st_registered s; st_procs := p |}.

(** [for (const x of xs) { body }] *)
Fixpoint for_of {A} (xs : list A) (body : A → M unit) : M unit :=
  match xs with
  | [] => ret tt
  | x :: xs' => body x;; for_of xs' body
  end.

(** A for-of loop whose body yields a value for the element it visits
    (the element as the body leaves it, when the code mutates it in place). *)
Fixpoint for_of_map {A B} (xs : list A) (body : A → M B) : M (list B) :=
  match xs with
  | [] => ret []
  | x :: xs' => x' <- body x;; rest <- for_of_map xs' body;; ret (x' :: rest)
  end.

(** A for-of loop that updates local variables of the enclosing function. *)
Fixpoint for_of_fold {A S} (xs : list A) (body : S → A → M S) (acc : S) : M S :=
  match xs with
  | [] => ret acc
  | x :: xs' => acc' <- body acc x;; for_of_fold xs' body acc'
  end.

(** [while (cond) { body }] with a bound on the number of iterations:
    [None] when the bound is reached with the condition still true. *)
Fixpoint while_loop {S} (fuel : nat) (cond : S → bool) (body : S → M S) (s : S)
  : M (option S) :=
  match fuel with
  | O => ret None
  | S fuel' =>
      if cond s then s' <- body s;; while_loop fuel' cond body s'
      else ret (Some s)
  end.

Definition TypeError : string := "TypeError".

Section Orchestrator.

Variable w : World.

(** An awaited external operation: the call is made, then the world decides
    how its promise settles. *)
Definition ext (e : Event) : M unit :=
  t <- now;;
  emit e;;
  match w_ext w t with
  | Fine => ret tt
  | Rejects msg => throw msg
  | Never => hang
  end.

(** [delay(ms)]: a timer always fires. *)
Definition delay (ms : Z) : M unit := emit (EDelay ms).

(** ** check.ts *)

Definition flags_ok (f : Flags) : bool :=
  match f with
  | FlagsNotArray => false
  | _ => true
  end.

(** The upgrade-specific part of [checkConfig], for one parachain. *)
Definition check_upgrade_parachain (config_dir : string) (p : ParachainConfig) : bool :=
  match pc_upgradeBin p with
  | Some upgradeBin =>
      truthy_string upgradeBin
      && w_existsSync w (w_resolve w config_dir upgradeBin)
      && match pc_upgradeWasm p with
         | Some upgradeWasm =>
             truthy_string upgradeWasm
             && w_existsSync w (w_resolve w config_dir upgradeWasm)
         | None => false
         end
  | None => false
  end.

(** [checkConfig(config, config_dir?, isTestingUpgrade?)]: the verdict, and
    the configuration as the function leaves it (a missing
    [simpleParachains] becomes the empty list when the check passes). *)
Definition checkConfig (config : option LaunchConfig) (config_dir : option string)
    (isTestingUpgrade : bool) : bool * option LaunchConfig :=
  match config with
  | None => (false, config)
  | Some c =>
    match lc_relaychain c with
    | None => (false, config)
    | Some relaychain =>
      if negb (truthy_string (rc_bin relaychain)) then (false, config)
      else if negb (truthy_string (rc_chain relaychain)) then (false, config)
      else if (length (rc_nodes relaychain) =? 0)%nat then (false, config)
      else if negb (forallb (fun node => flags_ok (rn_flags node)) (rc_nodes relaychain))
      then (false, config)
      else
        match lc_parachains c with
        | None => (false, config)
        | Some parachains =>
          if (length (rc_nodes relaychain) <=? length parachains)%nat then (false, config)
          else
            match mapM pc_nodes parachains with
            | None => (false, config)
            | Some nodess =>
              if negb (forallb (forallb (fun node => flags_ok (pn_flags node))) nodess)
              then (false, config)
              else
                let upgrade_ok :=
                  if isTestingUpgrade then
                    match config_dir with
                    | Some dir =>
                        truthy_string dir
                        && match rc_upgradeBin relaychain with
                           | Some b => truthy_string b && w_existsSync w (w_resolve w dir b)
                           | None => false
                           end
                        && match rc_upgradeWasm relaychain with
                           | Some b => truthy_string b && w_existsSync w (w_resolve w dir b)
                           | None => false
                           end
                        && forallb (check_upgrade_parachain dir) parachains
                    | None => false
                    end
                  else true in
                if negb upgrade_ok then (false, config)
                else
                  match lc_simpleParachains c with
                  | None => (true, Some (set_simpleParachains c (Some [])))
                  | Some _ => (true, config)
                  end
            end
        end
    end
  end.

(** ** spawn.ts *)

(** The [--chain=] argument is pushed only for a truthy [chain]. *)
Definition chain_arg (chain : option string) : option string :=
  if truthy_opt chain then chain else None.

Definition spawn (key : string) : M unit :=
  p <- get_procs;; set_procs (<[key := true]> p).

(** [getParachainIdFromSpec(bin, chain)]: run [bin build-spec], parse its
    output, return [spec.paraId || spec.para_id]. *)
Definition getParachainIdFromSpec (bin : string) (chain : option string) : M JsNumber :=
  spawn "spec";;
  ext (EBuildSpec bin (chain_arg chain));;
  match w_buildSpec w bin (chain_arg chain) with
  | None => throw "SyntaxError"
  | Some spec => ret (js_or (sj_paraId spec) (sj_para_id spec))
  end.

Definition generateChainSpec (bin chain : string) : M unit :=
  spawn "spec";;
  ext (EGenerateChainSpec bin chain).

Definition generateChainSpecRaw (bin chain : string) (id : option string) : M unit :=
  spawn "spec";;
  ext (EGenerateChainSpecRaw bin chain id).

Definition startNode (bin : string) (node : RelayNodeConfig) (spec : string) : M unit :=
  spawn (rn_name node);;
  emit (EStartNode bin node spec).

Definition exportGenesisWasm (bin : string) (chain : option string) : M string :=
  emit (EExportGenesisWasm bin (chain_arg chain));;
  match w_exportGenesisWasm w bin (chain_arg chain) with
  | Some out => ret out
  | None => throw "export-genesis-wasm failed"
  end.

Definition exportGenesisState (bin : string) (chain : option string) : M string :=
  emit (EExportGenesisState bin (chain_arg chain));;
  match w_exportGenesisState w bin (chain_arg chain) with
  | Some out => ret out
  | None => throw "export-genesis-state failed"
  end.

(** [startCollator]: the promise resolves when a readiness line shows up in
    the node's output; it has no reject. *)
Definition startCollator (bin : string) (wsPort : Z) (rpcPort : option Z) (port : Z)
    (options : CollatorOptions) : M unit :=
  t <- now;;
  spawn (key_string (KPort wsPort));;
  emit (EStartCollator bin wsPort rpcPort port options);;
  match w_ext w t with
  | Fine => emit (ECollatorReady wsPort)
  | _ => hang
  end.

Definition startSimpleCollator (bin : string) (id : option string) (spec port : string)
    (skip_id_arg : bool) : M unit :=
  t <- now;;
  spawn port;;
  emit (EStartSimpleCollator bin id spec port skip_id_arg);;
  match w_ext w t with
  | Fine => emit (ESimpleCollatorReady port)
  | _ => hang
  end.

Definition giveKeyToCollator (rpcPort : Z) (key : string) : M unit :=
  t <- now;;
  emit (EGiveKeyToCollator rpcPort key);;
  if w_curlErr w t then throw "curl" else ret tt.

(** [killProcess(key)]: [p[key].kill('SIGINT')]. *)
Definition killProcess (key : Key) : M unit :=
  p <- get_procs;;
  match p !! key_string key with
  | None => throw TypeError
  | Some _ =>
      set_procs (<[key_string key := false]> p);;
      emit (EKill key)
  end.

(** ** rpc.ts *)

Definition connect (port : Z) : M Z := ext (EConnect port);; ret port.

Definition disconnect : M unit := ext EDisconnect.

(** The status callback of [executeTransaction], run over the results the
    chain delivers: [Some true] when the promise resolves, [Some false] when
    it rejects, [None] when it is never settled. *)
Fixpoint settle (finalization : bool) (results : list TxResult) : option bool :=
  match results with
  | [] => None
  | r :: rest =>
      if tr_isInBlock r then
        if finalization then settle finalization rest else Some true
      else if tr_isFinalized r then Some true
      else if tr_isError r then Some false
      else settle finalization rest
  end.

(** [executeTransaction(api, sender, tx, finalization)].  The body runs
    inside the executor of [new Promise(async ...)]: a failure before the
    status callback is lost and leaves the promise unsettled. *)
Definition executeTransaction (tx : Tx) (finalization : bool) : M unit :=
  t0 <- now;;
  emit EQueryNonce;;
  match w_ext w t0 with
  | Fine =>
      t <- now;;
      emit (ESubmit tx);;
      match settle finalization (w_txStatuses w t) with
      | Some true => emit (EIncluded tx)
      | Some false => throw "Transaction Error"
      | None => hang
      end
  | _ => hang
  end.

Definition setBalance (who value : string) (finalization : bool) : M unit :=
  executeTransaction (TxSetBalance who value) finalization.

Definition readFileSync (path : option string) : M string :=
  match path with
  | None => throw TypeError
  | Some p =>
      match w_readFile w p with
      | Some hex => ret hex
      | None => throw "ENOENT"
      end
  end.

(** [upgradeRelayRuntime]: the [finalization] argument is not forwarded. *)
Definition upgradeRelayRuntime (wasm : option string) (finalization : bool) : M unit :=
  code <- readFileSync wasm;;
  executeTransaction (TxSetCode ("0x" +:+ code)) false.

(** [upgradeParachainRuntime]: authorize by code hash, then enact. *)
Definition upgradeParachainRuntime (wasm : option string) (finalization : bool) : M unit :=
  code <- readFileSync wasm;;
  let codeHash := w_blake2 w code in
  executeTransaction (TxAuthorizeUpgrade codeHash) finalization;;
  executeTransaction (TxEnactAuthorizedUpgrade ("0x" +:+ code)) false.

Definition getSpecVersion (api : Z) : M Z :=
  t <- now;;
  emit (EGetSpecVersion api);;
  ret (w_specVersion w t api).

Definition getRelayInfo : M RelayInfo :=
  t <- now;;
  emit EGetRelayInfo;;
  ret (w_relayInfo w t).

(** The delay computed by [getCodeValidationDelay] from the two fields of
    the active configuration. *)
Definition codeValidationDelay (validationUpgradeDelay minimumValidationUpgradeDelay : option Z)
  : Z :=
  match validationUpgradeDelay with
  | Some d =>
      match minimumValidationUpgradeDelay with
      | Some m => Z.max d m
      | None => d
      end
  | None => 0
  end.

Definition getCodeValidationDelay : M Z :=
  t <- now;;
  ext EGetCodeValidationDelay;;
  let '(vud, mvud) := w_activeConfig w t in
  ret (codeValidationDelay vud mvud).

(** ** runner.ts: resolution *)

(** [try { ... } catch (err) { console.error(err); process.exit(1); }] *)
Definition try_or_exit {A} (m : M A) (code : Z) : M A :=
  fun s =>
    let r := m s in
    match outcome r with
    | Thrown _ => {| outcome := Exited code; events := events r; final := final r |}
    | _ => r
    end.

(** [if (!fs.existsSync(bin)) { console.error(...); process.exit(); }] *)
Definition require_file (path : string) : M unit :=
  if w_existsSync w path then ret tt else exit 0.

(** [resolve(p)]: a path resolved against the working directory. *)
Definition resolve_cwd (p : string) : string := w_resolve w "" p.

(** One step of the first loop of [resolveParachainId] (the runner with the
    [resolvedId] guard, part_003 lines 566-577; [resolveParachainSpecs] of
    part_002, lines 904-912, ends with the same three branches). *)
Definition resolve_parachain (config_dir : string) (parachain : ParachainConfig)
  : M ParachainConfig :=
  if truthy_opt (pc_resolvedId parachain) then ret parachain
  else if truthy_opt (pc_id parachain) then
    ret (set_resolvedId parachain (pc_id parachain))
  else
    let bin := w_resolve w config_dir (pc_bin parachain) in
    paraId <- getParachainIdFromSpec bin (pc_chain parachain);;
    match js_toString paraId with
    | None => throw TypeError
    | Some s => ret (set_resolvedId parachain (Some s))
    end.

(** The same step in the older runner (src/src/runner.ts lines 564-573),
    which has no guard on [resolvedId]. *)
Definition resolve_parachain_unguarded (config_dir : string) (parachain : ParachainConfig)
  : M ParachainConfig :=
  if truthy_opt (pc_id parachain) then
    ret (set_resolvedId parachain (pc_id parachain))
  else
    let bin := w_resolve w config_dir (pc_bin parachain) in
    paraId <- getParachainIdFromSpec bin (pc_chain parachain);;
    match js_toString paraId with
    | None => throw TypeError
    | Some s => ret (set_resolvedId parachain (Some s))
    end.

(** [parachain.resolvedId = parachain.id] for a simple parachain. *)
Definition resolve_simple (parachain : SimpleParachainConfig) : SimpleParachainConfig :=
  set_simple_resolvedId parachain (Some (sp_id parachain)).

(** [resolveParachainId(config_dir, config)] around a step for the full
    parachains. *)
Definition resolve_with (step : ParachainConfig → M ParachainConfig) (config : LaunchConfig)
  : M LaunchConfig :=
  match lc_parachains config with
  | None => throw TypeError
  | Some parachains =>
      parachains' <- for_of_map parachains step;;
      match lc_simpleParachains config with
      | None => throw TypeError
      | Some simpleParachains =>
          ret (set_simpleParachains
                 (set_parachains config (Some parachains'))
                 (Some (map resolve_simple simpleParachains)))
      end
  end.

(** [resolveParachainId(config_dir, config)] of src/src/runner.ts (lines
    558-578), the one [run] of that file calls: no guard on [resolvedId]. *)
Definition resolveParachainId (config_dir : string) (config : LaunchConfig)
  : M LaunchConfig :=
  resolve_with (resolve_parachain_unguarded config_dir) config.

(** [resolveParachainId(config_dir, config)] of part_003 (lines 560-582),
    with the guard on [resolvedId]. *)
Definition resolveParachainId_guarded (config_dir : string) (config : LaunchConfig)
  : M LaunchConfig :=
  resolve_with (resolve_parachain config_dir) config.

Definition bootnode (port : Z) (peerId : string) : string :=
  "/ip4/127.0.0.1/tcp/" +:+ Number_toString port +:+ "/p2p/" +:+ peerId.

(** One step of the loop of [generateNodeKeys]: the node with its key, and
    its boot node address. *)
Definition generate_node_key (node : RelayNodeConfig) : M (RelayNodeConfig * string) :=
  t <- now;;
  let nodeKey :=
    if truthy_opt (rn_nodeKey node) then js_key (rn_nodeKey node) else w_randomKey w t in
  ext (EGenerateKeyPair nodeKey);;
  ret (set_nodeKey node (Some nodeKey), bootnode (rn_port node) (w_peerId w nodeKey)).

(** [generateNodeKeys(config)]: the configuration with every relay node
    keyed, and the boot nodes. *)
Definition generateNodeKeys (config : LaunchConfig) : M (LaunchConfig * list string) :=
  match lc_relaychain config with
  | None => throw TypeError
  | Some relaychain =>
      keyed <- for_of_map (rc_nodes relaychain) generate_node_key;;
      ret (set_relaychain config (Some (set_nodes relaychain (map fst keyed))),
           map snd keyed)
  end.

(** ** runner.ts: genesis *)

Record GenesisParachain := {
  gp_isSimple : bool;
  gp_resolvedId : option string;
  gp_resolvedSpec : option string;
  gp_chain : option string;
  gp_bin : string;
  gp_prepopulated : bool;
}.

(** [{ isSimple: false, ...p }] *)
Definition genesis_of_parachain (p : ParachainConfig) : GenesisParachain :=
  {| gp_isSimple := false; gp_resolvedId := pc_resolvedId p;
     gp_resolvedSpec := pc_resolvedSpec p; gp_chain := pc_chain p;
     gp_bin := pc_bin p; gp_prepopulated := pc_prepopulated p |}.

(** [{ isSimple: true, ...p }] *)
Definition genesis_of_simple (p : SimpleParachainConfig) : GenesisParachain :=
  {| gp_isSimple := true; gp_resolvedId := sp_resolvedId p;
     gp_resolvedSpec := None; gp_chain := None;
     gp_bin := sp_bin p; gp_prepopulated := false |}.

(** The single list of paras: full parachains first, then simple ones. *)
Definition genesis_paras (parachains : list ParachainConfig)
    (simpleParachains : list SimpleParachainConfig) : list GenesisParachain :=
  map genesis_of_parachain parachains ++ map genesis_of_simple simpleParachains.

(** [resolvedSpec || chain] *)
Definition spec_or_chain (p : GenesisParachain) : option string :=
  if truthy_opt (gp_resolvedSpec p) then gp_resolvedSpec p else gp_chain p.

(** The property names every object inherits from [Object.prototype]:
    under each of them an object literal [{}] reads a function, or the
    prototype itself under [__proto__], a truthy value. *)
Definition Object_prototype_keys : list string :=
  ["constructor"; "__defineGetter__"; "__defineSetter__"; "hasOwnProperty";
   "__lookupGetter__"; "__lookupSetter__"; "isPrototypeOf"; "propertyIsEnumerable";
   "toString"; "valueOf"; "__proto__"; "toLocaleString"].

Definition inherited (key : string) : bool :=
  existsb (String.eqb key) Object_prototype_keys.

(** [registeredParachains[key]] as a condition.  [registeredParachains] is
    an object literal [{}]: a key that was recorded reads [true]; a key
    that was not reads [undefined], unless it is an inherited name, which
    reads a truthy value. *)
Definition is_registered (registered : gmap string bool) (key : string) : bool :=
  match registered !! key with
  | Some b => b
  | None => inherited key
  end.

(** Modelled from the spec: [addGenesisParachain] of spec.ts, which is not
    among the sources; it writes one parachain-registration entry keyed by
    the id into the chain spec, here one [EAddGenesisParachain] effect. *)
Definition addGenesisParachain (spec : string) (id : option string)
    (head wasm : string) (parachain : bool) : M unit :=
  ext (EAddGenesisParachain spec id head wasm parachain).

(** The genesis state and validation code of a parachain (part_002 lines
    816-831): placeholders for a prepopulated parachain, exported from the
    binary otherwise. *)
Definition genesis_exports (bin : string) (parachain : GenesisParachain)
  : M (string * string) :=
  if gp_prepopulated parachain then ret ("0x", "0x00")
  else try_or_exit
         (genesisState <- exportGenesisState bin (spec_or_chain parachain);;
          genesisWasm <- exportGenesisWasm bin (spec_or_chain parachain);;
          ret (genesisState, genesisWasm)) 1.

(** The body of the loop of [addParachainsToGenesis] (part_002 lines
    806-842; the older runners have no [prepopulated] branch and export
    from [chain]). *)
Definition add_parachain_to_genesis (config_dir spec : string) (parachain : GenesisParachain)
  : M unit :=
  let resolvedId := gp_resolvedId parachain in
  let bin := w_resolve w config_dir (gp_bin parachain) in
  require_file bin;;
  registered <- get_registered;;
  if negb (is_registered registered (js_key resolvedId)) then
    genesis <- genesis_exports bin parachain;;
    let '(genesisState, genesisWasm) := genesis in
    addGenesisParachain spec resolvedId genesisState genesisWasm true;;
    registered <- get_registered;;
    set_registered (<[js_key resolvedId := true]> registered)
  else ret tt.

(** [addParachainsToGenesis(config_dir, spec, parachains, simpleParachains)] *)
Definition addParachainsToGenesis (config_dir spec : string)
    (parachains : list ParachainConfig) (simpleParachains : list SimpleParachainConfig)
  : M unit :=
  for_of (genesis_paras parachains simpleParachains)
         (add_parachain_to_genesis config_dir spec).

Definition addHrmpChannelsToGenesis (spec : string) (hrmpChannels : list HrmpChannelsConfig)
  : M unit :=
  for_of hrmpChannels (fun ch => ext (EAddGenesisHrmpChannel spec ch)).

(** ** runner.ts: launch *)

(** [loadTypeDef(types)] (src/src/runner.ts lines 48-61): a path is read
    and parsed in one [try]; when [readFileSync] or [JSON.parse] throws,
    the process exits with code 1. *)
Definition loadTypeDef (types : TypesDef) : M unit :=
  match types with
  | TypesPath path =>
      emit (EReadTypeDef path);;
      match w_readFile w path with
      | Some _ => if w_jsonParses w path then ret tt else exit 1
      | None => exit 1
      end
  | TypesObject => ret tt
  end.

(** [config.relaychain.nodes[0].wsPort] *)
Definition first_wsPort (nodes : list RelayNodeConfig) : M Z :=
  match nodes with
  | node :: _ => ret (rn_wsPort node)
  | [] => throw TypeError
  end.

(** [connect(config.relaychain.nodes[0].wsPort, loadTypeDef(config.types))] *)
Definition connect_relay (nodes : list RelayNodeConfig) (types : TypesDef) : M Z :=
  port <- first_wsPort nodes;;
  loadTypeDef types;;
  connect port.

(** [for (const node of parachain.nodes)] reads the node list. *)
Definition nodes_of (parachain : ParachainConfig) : M (list ParachainNodeConfig) :=
  match pc_nodes parachain with
  | Some nodes => ret nodes
  | None => throw TypeError
  end.

(** Body of the loop "Then launch each parachain" of [run]
    (src/src/runner.ts lines 137-167). *)
Definition launch_parachain (config_dir spec : string) (only_one : bool)
    (finalization : bool) (parachain : ParachainConfig) : M unit :=
  let resolvedId := pc_resolvedId parachain in
  let balance := pc_balance parachain in
  let paraChain := pc_chain parachain in
  let bin := w_resolve w config_dir (pc_bin parachain) in
  require_file bin;;
  let account := w_parachainAccount w (js_key resolvedId) in
  nodes <- nodes_of parachain;;
  for_of nodes (fun node =>
    startCollator bin (pn_wsPort node) (pn_rpcPort node) (pn_port node)
      {| co_name := pn_name node; co_relaySpec := spec; co_spec := paraChain;
         co_flags := pn_flags node; co_basePath := pn_basePath node;
         co_onlyOneParachainNode := only_one |});;
  if truthy_string balance then setBalance account balance finalization
  else ret tt.

(** Body of the loop "Then launch each simple parachain" of [run]. *)
Definition launch_simple_parachain (config_dir spec : string) (finalization : bool)
    (simpleParachain : SimpleParachainConfig) : M unit :=
  let bin := w_resolve w config_dir (sp_bin simpleParachain) in
  require_file bin;;
  let account := w_parachainAccount w (js_key (sp_resolvedId simpleParachain)) in
  let skipIdArg := negb (truthy_string (sp_id simpleParachain)) in
  startSimpleCollator bin (sp_resolvedId simpleParachain) spec
    (sp_port simpleParachain) skipIdArg;;
  if truthy_string (sp_balance simpleParachain)
  then setBalance account (sp_balance simpleParachain) finalization
  else ret tt.

(** [run] from the resolved configuration on: genesis assembly, then the
    relay nodes, the parachains and the simple parachains. *)
Definition launch (config_dir : string) (config : LaunchConfig) (bootnodes : list string)
  : M unit :=
  match lc_relaychain config, lc_parachains config with
  | Some relaychain, Some parachains =>
      let relay_chain_bin := w_resolve w config_dir (rc_bin relaychain) in
      require_file relay_chain_bin;;
      let chain := rc_chain relaychain in
      generateChainSpec relay_chain_bin chain;;
      let json := chain +:+ ".json" in
      ext (EClearAuthorities json);;
      for_of (rc_nodes relaychain) (fun node => ext (EAddAuthority json (rn_name node)));;
      match rc_genesis relaychain with
      | Some genesis => ext (EChangeGenesisConfig json genesis)
      | None => ret tt
      end;;
      match lc_simpleParachains config with
      | Some simpleParachains =>
          addParachainsToGenesis config_dir json parachains simpleParachains
      | None => throw TypeError
      end;;
      match lc_hrmpChannels config with
      | Some hrmpChannels => addHrmpChannelsToGenesis json hrmpChannels
      | None => ret tt
      end;;
      ext (EAddBootNodes json bootnodes);;
      generateChainSpecRaw relay_chain_bin chain None;;
      let spec := resolve_cwd (chain +:+ "-raw.json") in
      for_of (rc_nodes relaychain) (fun node => startNode relay_chain_bin node spec);;
      connect_relay (rc_nodes relaychain) (lc_types config);;
      for_of parachains
        (launch_parachain config_dir spec (length parachains =? 1)%nat
           (lc_finalization config));;
      match lc_simpleParachains config with
      | Some simpleParachains =>
          for_of simpleParachains
            (launch_simple_parachain config_dir spec (lc_finalization config))
      | None => ret tt
      end;;
      disconnect
  | _, _ => throw TypeError
  end.

(** [run(config_dir, rawConfig)] of src/src/runner.ts (lines 70-198), with
    the [resolveParachainId] of that file, which has no guard on
    [resolvedId]: [None] is [null]. *)
Definition run (config_dir : string) (rawConfig : option LaunchConfig)
  : M (option LaunchConfig) :=
  set_registered ∅;;
  match checkConfig rawConfig None false with
  | (false, _) => ret None
  | (true, None) => throw TypeError
  | (true, Some checked) =>
      config <- resolveParachainId config_dir checked;;
      keyed <- generateNodeKeys config;;
      let '(config, bootnodes) := keyed in
      launch config_dir config bootnodes;;
      ret (Some config)
  end.

(** ** runner.ts: the upgrade test *)

Definition parachain_block_time : Z := 12000.

Definition waitForExtraOutput : M unit := delay 250.

(** The loop of [waitWithTimer]: one second per remaining unit. *)
Fixpoint countdown (i : nat) : M unit :=
  match i with
  | O => ret tt
  | S i' => delay 1000;; countdown i'
  end.

(** [waitWithTimer(time)] of part_002 (lines 747-763), the runner whose
    upgrade tests are embedded: [Math.ceil(time / 1000)] waits of one
    second; the line of the countdown is cleared only when
    [process.stdout.isTTY]. *)
Definition waitWithTimer (time : Z) : M unit :=
  countdown (Z.to_nat (ceil_div time 1000)).

(** The loop of [waitWithTimer] in the older runners (src/src/runner.ts
    lines 481-488, the same in part_003), which call
    [process.stdout.clearLine] and [cursorTo] after each wait without
    asking [isTTY]: a stream that is not a terminal has neither method, and
    the call throws a TypeError after the first second. *)
Fixpoint countdown_unguarded (isTTY : bool) (i : nat) : M unit :=
  match i with
  | O => ret tt
  | S i' =>
      delay 1000;;
      (if isTTY then ret tt else throw TypeError);;
      countdown_unguarded isTTY i'
  end.

(** [waitWithTimer(time)] of src/src/runner.ts (lines 479-489). *)
Definition waitWithTimer_unguarded (isTTY : bool) (time : Z) : M unit :=
  countdown_unguarded isTTY (Z.to_nat (ceil_div time 1000)).

(** [connect(port, loadTypeDef(config.types))] *)
Definition connect_typed (types : TypesDef) (port : Z) : M Z :=
  loadTypeDef types;;
  connect port.

(** [applyAuraKey(node, config_dir)] *)
Definition applyAuraKey (node : ParachainNodeConfig) (config_dir : string) : M unit :=
  if truthy_opt (pn_auraKey node) then
    let key := w_resolve w config_dir (js_key (pn_auraKey node)) in
    if negb (w_existsSync w key) then ret tt
    else
      match pn_rpcPort node with
      | Some rpcPort => if rpcPort =? 0 then ret tt else giveKeyToCollator rpcPort key
      | None => ret tt
      end
  else ret tt.

(** An entry of [parachains_info]. *)
Record UpgradeSession := {
  first_node : Z;
  old_version : Z;
  has_updated : bool;
  old_tag : string;
  new_tag : string;
}.

Definition mark_updated (s : UpgradeSession) : UpgradeSession :=
  {| first_node := first_node s; old_version := old_version s; has_updated := true;
     old_tag := old_tag s; new_tag := new_tag s |}.

(** Body of the relay rolling restart (part_002 lines 333-360).  The
    address logged between the stop and the start is computed from the node
    key [run] has set. *)
Definition restart_relay_node (upgraded_relay_chain_bin spec : string) (epoch_time : Z)
    (node : RelayNodeConfig) : M unit :=
  waitWithTimer epoch_time;;
  killProcess (KName (rn_name node));;
  startNode upgraded_relay_chain_bin node spec.

(** Body of the loop "Then restart each parachain" (part_002 lines 375-424). *)
Definition restart_parachain (config_dir spec : string) (types : TypesDef) (only_one : bool)
    (parachains_info : gmap string UpgradeSession) (parachain : ParachainConfig)
  : M (gmap string UpgradeSession) :=
  let resolvedId := js_key (pc_resolvedId parachain) in
  let old_bin := pc_bin parachain in
  new_bin <- match pc_upgradeBin parachain with
             | Some b => ret (w_resolve w config_dir b)
             | None => throw TypeError
             end;;
  nodes <- nodes_of parachain;;
  parachains_info' <-
    match nodes with
    | node0 :: _ =>
        parachain_api <- connect_typed types (pn_wsPort node0);;
        version <- getSpecVersion parachain_api;;
        let session :=
          {| first_node := pn_wsPort node0; old_version := version; has_updated := false;
             old_tag := w_gitTag w old_bin; new_tag := w_gitTag w new_bin |} in
        disconnect;;
        waitForExtraOutput;;
        ret (<[resolvedId := session]> parachains_info)
    | [] => ret parachains_info
    end;;
  for_of nodes (fun node =>
    killProcess (KPort (pn_wsPort node));;
    startCollator new_bin (pn_wsPort node) (pn_rpcPort node) (pn_port node)
      {| co_name := pn_name node; co_relaySpec := spec;
         co_spec := pc_resolvedSpec parachain;
         co_flags := pn_flags node; co_basePath := pn_basePath node;
         co_onlyOneParachainNode := only_one |};;
    waitWithTimer parachain_block_time;;
    applyAuraKey node config_dir);;
  ret parachains_info'.

(** The relay verdict (part_002 lines 471-476): the flag
    [relay_upgrade_failed], which the code leaves [undefined] when the relay
    upgraded; it is only ever tested for truth, so [false] stands for it. *)
Definition check_relay_upgrade (relay_old_version relay_new_version : Z) : M bool :=
  if negb (relay_old_version =? relay_new_version) then
    emit (EReport (RelayUpgraded relay_old_version relay_new_version));;
    ret false
  else
    emit (EReport (RelayFailed relay_old_version));;
    ret true.

(** Body of the loop "connect, authorize and upgrade" (part_002 lines 482-494). *)
Definition upgrade_parachain (types : TypesDef)
    (parachains_info : gmap string UpgradeSession) (parachain : ParachainConfig) : M unit :=
  let resolvedId := js_key (pc_resolvedId parachain) in
  match parachains_info !! resolvedId with
  | Some session =>
      connect_typed types (first_node session);;
      upgradeParachainRuntime (pc_upgradeWasm parachain) true;;
      disconnect;;
      waitForExtraOutput
  | None => ret tt
  end.

(** Body of the inner loop of the verification (part_002 lines 510-535):
    the local [parachains_upgrade_failed] and [parachains_info] as it
    leaves them.  [has_updated] is read before the session is tested for
    existence. *)
Definition verify_parachain (types : TypesDef)
    (acc : bool * gmap string UpgradeSession) (parachain : ParachainConfig)
  : M (bool * gmap string UpgradeSession) :=
  let '(parachains_upgrade_failed, parachains_info) := acc in
  let resolvedId := js_key (pc_resolvedId parachain) in
  match parachains_info !! resolvedId with
  | None => throw TypeError
  | Some session =>
      if has_updated session then ret acc
      else
        parachain_api <- connect_typed types (first_node session);;
        spec_version <- getSpecVersion parachain_api;;
        disconnect;;
        waitForExtraOutput;;
        if negb (spec_version =? old_version session) then
          emit (EReport (ParachainUpgraded resolvedId (old_version session) spec_version));;
          ret (parachains_upgrade_failed,
               <[resolvedId := mark_updated session]> parachains_info)
        else
          emit (EReport (ParachainFailed resolvedId (old_version session)));;
          ret (true, parachains_info)
  end.

(** The variables of the verification loop. *)
Record VerifyState := {
  vs_try_n : Z;
  vs_failed : bool;
  vs_first_pass : bool;
  vs_info : gmap string UpgradeSession;
}.

(** [try_n < 3 && parachains_upgrade_failed] *)
Definition verify_cond (vs : VerifyState) : bool :=
  (vs_try_n vs <? 3) && vs_failed vs.

(** One polling pass, with the [try_n++] that follows it (part_002 lines
    500-536). *)
Definition verify_pass (types : TypesDef) (code_validation_delay : Z)
    (parachains : list ParachainConfig) (vs : VerifyState) : M VerifyState :=
  (if vs_first_pass vs then
     emit (EReport WaitingCodeValidationDelay);;
     waitWithTimer code_validation_delay
   else
     emit (EReport WaitingFewBlocksMore);;
     waitWithTimer (parachain_block_time * 3));;
  r <- for_of_fold parachains (verify_parachain types) (false, vs_info vs);;
  ret {| vs_try_n := vs_try_n vs + 1; vs_failed := fst r; vs_first_pass := false;
         vs_info := snd r |}.

(** The verification loop (part_002 lines 497-536), entered with
    [parachains_upgrade_failed = true], [first_pass = true], [try_n = 0]. *)
Definition verify_upgrades (fuel : nat) (types : TypesDef) (code_validation_delay : Z)
    (parachains : list ParachainConfig) (parachains_info : gmap string UpgradeSession)
  : M (option VerifyState) :=
  while_loop fuel verify_cond (verify_pass types code_validation_delay parachains)
    {| vs_try_n := 0; vs_failed := true; vs_first_pass := true;
       vs_info := parachains_info |}.

(** Body of the inner loop of the verification in the older runner
    (src/src/runner.ts lines 439-461), whose sessions carry no
    [has_updated] flag: every parachain with a session is polled, and the
    local [parachains_upgrade_failed] is returned.  [getChainInfo], which
    that runner imports from rpc.ts, is not exported by the rpc.ts among
    the sources: it is taken to read the runtime's spec version, as
    [getSpecVersion] does where the later runners call it. *)
Definition verify_parachain_unflagged (types : TypesDef)
    (parachains_info : gmap string UpgradeSession) (parachains_upgrade_failed : bool)
    (parachain : ParachainConfig) : M bool :=
  let resolvedId := js_key (pc_resolvedId parachain) in
  match parachains_info !! resolvedId with
  | None => ret parachains_upgrade_failed
  | Some session =>
      parachainApi <- connect_typed types (first_node session);;
      spec_version <- getSpecVersion parachainApi;;
      disconnect;;
      waitForExtraOutput;;
      if negb (spec_version =? old_version session) then
        emit (EReport (ParachainUpgraded resolvedId (old_version session) spec_version));;
        ret parachains_upgrade_failed
      else
        emit (EReport (ParachainFailed resolvedId (old_version session)));;
        ret true
  end.

(** One pass of that loop, with its wait and the [try_n++] that follows
    (src/src/runner.ts lines 437-463): the variables [try_n] and
    [parachains_upgrade_failed]. *)
Definition verify_pass_unflagged (isTTY : bool) (types : TypesDef)
    (parachains : list ParachainConfig) (parachains_info : gmap string UpgradeSession)
    (vars : Z * bool) : M (Z * bool) :=
  failed <- for_of_fold parachains (verify_parachain_unflagged types parachains_info) false;;
  waitWithTimer_unguarded isTTY parachain_block_time;;
  ret (fst vars + 1, failed).

(** The verification loop of the older runner (src/src/runner.ts lines
    435-464): [try_n < 10 && parachains_upgrade_failed]. *)
Definition verify_upgrades_unflagged (isTTY : bool) (fuel : nat) (types : TypesDef)
    (parachains : list ParachainConfig) (parachains_info : gmap string UpgradeSession)
  : M (option (Z * bool)) :=
  while_loop fuel (fun vars => (fst vars <? 10) && snd vars)
    (verify_pass_unflagged isTTY types parachains parachains_info) (0, true).

(** The closing banner (part_002 lines 538-542). *)
Definition report_summary (parachains_upgrade_failed relay_upgrade_failed : bool) : M unit :=
  if parachains_upgrade_failed || relay_upgrade_failed
  then emit (EReport TestingFailed)
  else emit (EReport TestingComplete).

(** The parachain phases that follow the verdict on the relay (part_002
    lines 478-536): the wait for the new epoch, the submission of the
    upgrades, their verification. *)
Definition parachain_phases (fuel : nat) (types : TypesDef)
    (parachains : list ParachainConfig) (parachains_info : gmap string UpgradeSession)
    (relay_new : RelayInfo) (code_validation_delay : Z) : M (option VerifyState) :=
  waitWithTimer (ri_epochLength relay_new * ri_blockTime relay_new);;
  for_of parachains (upgrade_parachain types parachains_info);;
  verify_upgrades fuel types code_validation_delay parachains parachains_info.

(** [runThenTryUpgrade] after the relay upgrade was submitted and the new
    relay data were read (part_002 lines 471-542): the verdict on the
    relay, then the parachain phases, then the banner. *)
Definition after_relay_upgrade (fuel : nat) (types : TypesDef)
    (parachains : list ParachainConfig) (parachains_info : gmap string UpgradeSession)
    (relay_old_version : Z) (relay_new : RelayInfo) (code_validation_delay : Z)
  : M unit :=
  relay_upgrade_failed <- check_relay_upgrade relay_old_version (ri_specVersion relay_new);;
  r <- parachain_phases fuel types parachains parachains_info relay_new
         code_validation_delay;;
  match r with
  | Some vs => report_summary (vs_failed vs) relay_upgrade_failed
  | None => hang
  end.

(** The baseline of the upgrade test (part_002 lines 319-329): the relay's
    version, epoch length and block time before anything is touched. *)
Definition baseline (nodes : list RelayNodeConfig) (types : TypesDef) : M RelayInfo :=
  connect_relay nodes types;;
  info <- getRelayInfo;;
  disconnect;;
  waitForExtraOutput;;
  ret info.

(** The restart of every node under the upgraded binaries (part_002 lines
    331-424): the relay nodes one by one, then the collators of every
    parachain; the sessions of the parachains are opened on the way. *)
Definition restart_nodes (config_dir spec : string) (types : TypesDef)
    (nodes : list RelayNodeConfig) (parachains : list ParachainConfig)
    (upgraded_relay_chain_bin : string) (epoch_time : Z)
  : M (gmap string UpgradeSession) :=
  for_of nodes (restart_relay_node upgraded_relay_chain_bin spec epoch_time);;
  for_of_fold parachains
    (restart_parachain config_dir spec types (length parachains =? 1)%nat) ∅.

(** The relay runtime upgrade (part_002 lines 434-469): the wait for the
    next epoch, the submission, then the new relay data and the code
    validation delay in milliseconds. *)
Definition upgrade_relay (nodes : list RelayNodeConfig) (types : TypesDef)
    (upgraded_relay_chain_wasm : option string) (epoch_time : Z) : M (RelayInfo * Z) :=
  waitWithTimer epoch_time;;
  connect_relay nodes types;;
  upgradeRelayRuntime upgraded_relay_chain_wasm true;;
  disconnect;;
  waitForExtraOutput;;
  connect_relay nodes types;;
  relay_new <- getRelayInfo;;
  disconnect;;
  waitForExtraOutput;;
  connect_relay nodes types;;
  delay_blocks <- getCodeValidationDelay;;
  let code_validation_delay := ri_blockTime relay_new * delay_blocks in
  disconnect;;
  waitForExtraOutput;;
  ret (relay_new, code_validation_delay).

(** [runThenTryUpgrade] from "Now preparing for runtime upgrade testing"
    on (part_002 lines 313-542), for the configuration the lines above
    them have launched. *)
Definition upgrade_test (fuel : nat) (config_dir : string) (config : LaunchConfig)
    (upgraded_relay_chain_bin : string) (upgraded_relay_chain_wasm : option string)
  : M unit :=
  match lc_relaychain config, lc_parachains config with
  | Some relaychain, Some parachains =>
      let types := lc_types config in
      let chain := rc_chain relaychain in
      let spec := resolve_cwd (chain +:+ "-raw.json") in
      info <- baseline (rc_nodes relaychain) types;;
      let relay_old_version := ri_specVersion info in
      let epoch_time := ri_epochLength info * ri_blockTime info in
      parachains_info <-
        restart_nodes config_dir spec types (rc_nodes relaychain) parachains
          upgraded_relay_chain_bin epoch_time;;
      upgraded <- upgrade_relay (rc_nodes relaychain) types upgraded_relay_chain_wasm
                    epoch_time;;
      after_relay_upgrade fuel types parachains parachains_info relay_old_version
        (fst upgraded) (snd upgraded)
  | _, _ => throw TypeError
  end.

End Orchestrator.


(** ** Notions the properties are stated with *)

(** A piece of the orchestrator returns from every state. *)
Definition returns {A} (m : M A) : Prop :=
  ∀ s, ∃ a, outcome (m s) = Returned a.

(** A world in which nothing goes wrong: awaited operations complete,
    files exist, can be read and parse, the node binaries produce their
    output, a generated parachain spec carries an id, and transactions are
    included. *)
Record cooperative (w : World) : Prop := {
  coop_ext : ∀ t, w_ext w t = Fine;
  coop_exists : ∀ path, w_existsSync w path = true;
  coop_buildSpec : ∀ bin chain,
    ∃ spec, w_buildSpec w bin chain = Some spec
            ∧ is_Some (js_or (sj_paraId spec) (sj_para_id spec));
  coop_state : ∀ bin chain, is_Some (w_exportGenesisState w bin chain);
  coop_wasm : ∀ bin chain, is_Some (w_exportGenesisWasm w bin chain);
  coop_tx : ∀ t finalization, settle finalization (w_txStatuses w t) = Some true;
  coop_readFile : ∀ path, is_Some (w_readFile w path);
  coop_json : ∀ path, w_jsonParses w path = true;
  coop_curl : ∀ t, w_curlErr w t = false;
}.

(** The effect is a registration entry written for the parachain id [id]. *)
Definition is_registration (id : string) (e : Event) : bool :=
  match e with
  | EAddGenesisParachain _ id' _ _ _ => String.eqb (js_key id') id
  | _ => false
  end.

(** The number of registration entries written for [id] among effects. *)
Definition registrations (evs : list Event) (id : string) : nat :=
  length (List.filter (is_registration id) evs).

(** Some entry of the list of paras has the id [id]. *)
Definition has_para (paras : list GenesisParachain) (id : string) : bool :=
  existsb (fun e => String.eqb (js_key (gp_resolvedId e)) id) paras.

(** Every occurrence of the effect [b] comes after an occurrence of [a]. *)
Definition precedes (a b : Event) (evs : list Event) : Prop :=
  ∀ l1 l2, evs = (l1 ++ b :: l2)%list → a ∈ l1.

(** The time waited for during effects, in milliseconds: the sum of the
    delays requested (a timer fires no earlier than requested, so this is a
    lower bound of the time that passed). *)
Fixpoint elapsed (evs : list Event) : Z :=
  match evs with
  | [] => 0
  | EDelay ms :: evs' => ms + elapsed evs'
  | _ :: evs' => elapsed evs'
  end.

(** The number of processes stopped during effects. *)
Fixpoint stops (evs : list Event) : nat :=
  match evs with
  | [] => O
  | EKill _ :: evs' => S (stops evs')
  | _ :: evs' => stops evs'
  end.

(** The keys of the processes that are down after effects: stopped and not
    started again. *)
Definition down_step (down : gset string) (e : Event) : gset string :=
  match e with
  | EKill key => down ∪ {[key_string key]}
  | EStartNode _ node _ => down ∖ {[rn_name node]}
  | EStartCollator _ wsPort _ _ _ => down ∖ {[key_string (KPort wsPort)]}
  | _ => down
  end.

Definition down (evs : list Event) : gset string := fold_left down_step evs ∅.

(** The effects of one round of the relay rolling restart that runs to its
    end: [seconds] waits of one second, the stop, the start. *)
Definition restart_round (bin spec : string) (seconds : nat) (node : RelayNodeConfig)
  : list Event :=
  (replicate seconds (EDelay 1000)
   ++ [EKill (KName (rn_name node)); EStartNode bin node spec])%list.

(** A session as a later moment may find it: unchanged, or marked as
    upgraded when it was not. *)
Definition session_le (sess sess' : UpgradeSession) : Prop :=
  sess' = sess ∨ (has_updated sess = false ∧ sess' = mark_updated sess).

(** The table of sessions as a later moment may find it: the same ids, each
    session as [session_le] allows. *)
Definition sessions_le (info info' : gmap string UpgradeSession) : Prop :=
  ∀ id, match info !! id, info' !! id with
        | Some sess, Some sess' => session_le sess sess'
        | None, None => True
        | _, _ => False
        end.

(** The session of [id] exists and is marked as upgraded. *)
Definition updated (info : gmap string UpgradeSession) (id : string) : bool :=
  match info !! id with
  | Some sess => has_updated sess
  | None => false
  end.

(** The effect is the verdict of a poll of the parachain [id]. *)
Definition about (id : string) (e : Event) : Prop :=
  match e with
  | EReport (ParachainUpgraded id' _ _) => id' = id
  | EReport (ParachainFailed id' _) => id' = id
  | _ => False
  end.

(** No poll of [id] has its verdict among the effects. *)
Definition quiet (id : string) (evs : list Event) : Prop :=
  Forall (fun e => ¬ about id e) evs.

(** Once [id] is reported as upgraded, no poll of it has a verdict. *)
Definition polled_once (id : string) (evs : list Event) : Prop :=
  ∀ l1 old new l2,
    evs = (l1 ++ EReport (ParachainUpgraded id old new) :: l2)%list → quiet id l2.

(** How a piece of the verification treats the sessions it starts from
    ([proj] reads the table of sessions off what the piece returns, when
    there is one): a session marked as upgraded is not polled; nothing is
    polled after it was reported as upgraded; a report of an upgrade is
    about a session that was not marked and shows a version that differs
    from the old one; and the table the piece returns has the same
    sessions, marked as upgraded exactly when they were already or were
    reported as upgraded. *)
Record tracks {X} (info : gmap string UpgradeSession)
    (proj : X → option (gmap string UpgradeSession)) (r : Result X) : Prop := {
  tracks_quiet : ∀ id, updated info id = true → quiet id (events r);
  tracks_once : ∀ id, polled_once id (events r);
  tracks_report : ∀ id old new,
    EReport (ParachainUpgraded id old new) ∈ events r →
    old ≠ new ∧ updated info id = false
    ∧ ∃ sess, info !! id = Some sess ∧ old_version sess = old;
  tracks_le : ∀ x info', outcome r = Returned x → proj x = Some info' →
    sessions_le info info';
  tracks_marked : ∀ x info' id old new, outcome r = Returned x → proj x = Some info' →
    EReport (ParachainUpgraded id old new) ∈ events r → updated info' id = true;
  tracks_flip : ∀ x info' id, outcome r = Returned x → proj x = Some info' →
    updated info id = false → updated info' id = true →
    ∃ old new, EReport (ParachainUpgraded id old new) ∈ events r;
}.

(** A piece of the orchestrator that performs no effect of a given kind. *)
Definition avoids (P : Event → Prop) {A} (m : M A) : Prop :=
  ∀ s, Forall (fun e => ¬ P e) (events (m s)).

(** A piece of the orchestrator that reports no verdict of a poll. *)
Definition silent {A} (m : M A) : Prop :=
  ∀ id, avoids (about id) m.

(** The effect opens a polling pass of the verification. *)
Definition opens_pass (e : Event) : Prop :=
  e = EReport WaitingCodeValidationDelay ∨ e = EReport WaitingFewBlocksMore.

(** The number of polling passes opened during effects. *)
Fixpoint passes (evs : list Event) : nat :=
  match evs with
  | [] => O
  | EReport WaitingCodeValidationDelay :: evs' => S (passes evs')
  | EReport WaitingFewBlocksMore :: evs' => S (passes evs')
  | _ :: evs' => passes evs'
  end.

(** The effect is a line of the report. *)
Definition written (e : Event) : Prop := ∃ r, e = EReport r.

(** The state one effect later. *)
Definition tick (s : State) : State :=
  {| st_time := S (st_time s); st_registered := st_registered s; st_procs := st_procs s |}.

(** The line of the report that gives the verdict on the relay. *)
Definition relay_verdict (relay_old_version relay_new_version : Z) : Report :=
  if relay_old_version =? relay_new_version then RelayFailed relay_old_version
  else RelayUpgraded relay_old_version relay_new_version.

(** The closing banner. *)
Definition banner (parachains_upgrade_failed relay_upgrade_failed : bool) : Report :=
  if parachains_upgrade_failed || relay_upgrade_failed then TestingFailed
  else TestingComplete.

(** Every parachain of the list has a session in the table. *)
Definition all_sessions (parachains : list ParachainConfig)
    (info : gmap string UpgradeSession) : Prop :=
  ∀ p, p ∈ parachains → is_Some (info !! js_key (pc_resolvedId p)).

(** The plan [run] returns for a configuration that passed the check: the
    same configuration with a resolved id in every parachain and simple
    parachain and a node key in every relay node. *)
Definition resolved_plan (checked plan : LaunchConfig) : Prop :=
  ∃ relaychain parachains simpleParachains nodes' parachains' simpleParachains',
    lc_relaychain checked = Some relaychain
    ∧ lc_parachains checked = Some parachains
    ∧ lc_simpleParachains checked = Some simpleParachains
    ∧ plan = set_relaychain
               (set_simpleParachains
                  (set_parachains checked (Some parachains'))
                  (Some simpleParachains'))
               (Some (set_nodes relaychain nodes'))
    ∧ Forall2 (fun p p' => is_Some (pc_resolvedId p')
                           ∧ p' = set_resolvedId p (pc_resolvedId p'))
        parachains parachains'
    ∧ Forall2 (fun sp sp' => sp_resolvedId sp' = Some (sp_id sp)
                             ∧ sp' = set_simple_resolvedId sp (Some (sp_id sp)))
        simpleParachains simpleParachains'
    ∧ Forall2 (fun n n' => is_Some (rn_nodeKey n')
                           ∧ n' = set_nodeKey n (rn_nodeKey n'))
        (rc_nodes relaychain) nodes'.

(** ** Sample plans

    A world in which every awaited operation completes, every file exists,
    a generated parachain spec has [para_id: 2000], and no runtime ever
    changes its version: the relay has epoch length 100 and block time
    6000. *)
Definition sample_world : World :=
  {| w_resolve := fun dir path => dir +:+ "/" +:+ path;
     w_existsSync := fun _ => true;
     w_ext := fun _ => Fine;
     w_buildSpec := fun _ _ => Some {| sj_paraId := None; sj_para_id := Some 2000 |};
     w_exportGenesisState := fun _ _ => Some "0x00";
     w_exportGenesisWasm := fun _ _ => Some "0x01";
     w_randomKey := fun _ => "ab";
     w_peerId := fun _ => "12D3";
     w_parachainAccount := fun id => "5Ec4" +:+ id;
     w_relayInfo := fun _ =>
       {| ri_specVersion := 1; ri_epochLength := 100; ri_blockTime := 6000 |};
     w_specVersion := fun _ _ => 1;
     w_activeConfig := fun _ => (Some 2, None);
     w_gitTag := fun _ => "v1";
     w_txStatuses := fun _ =>
       [ {| tr_isInBlock := true; tr_isFinalized := false; tr_isError := false |};
         {| tr_isInBlock := false; tr_isFinalized := true; tr_isError := false |} ];
     w_readFile := fun _ => Some "00";
     w_jsonParses := fun _ => true;
     w_blake2 := fun _ => "0xc0de";
     w_curlErr := fun _ => false |}.

Definition relay_node (name : string) (wsPort : Z) : RelayNodeConfig :=
  {| rn_name := name; rn_basePath := None; rn_wsPort := wsPort; rn_rpcPort := None;
     rn_nodeKey := None; rn_port := wsPort + 1; rn_flags := FlagsAbsent |}.

Definition collator (wsPort : Z) : ParachainNodeConfig :=
  {| pn_rpcPort := None; pn_wsPort := wsPort; pn_port := wsPort + 1; pn_basePath := None;
     pn_name := None; pn_flags := FlagsAbsent; pn_auraKey := None |}.

Definition parachain_entry (id : option string) (nodes : list ParachainNodeConfig)
  : ParachainConfig :=
  {| pc_bin := "collator"; pc_id := id; pc_balance := "1000"; pc_chain := None;
     pc_prepopulated := false; pc_nodes := Some nodes; pc_resolvedId := None;
     pc_resolvedSpec := None; pc_upgradeBin := Some "collator-v2";
     pc_upgradeWasm := Some "runtime-v2.wasm" |}.

Definition relaychain_of (nodes : list RelayNodeConfig) : RelayChainConfig :=
  {| rc_bin := "polkadot"; rc_chain := "rococo-local"; rc_nodes := nodes;
     rc_genesis := None; rc_upgradeBin := Some "polkadot-v2";
     rc_upgradeWasm := Some "relay-v2.wasm" |}.

Definition plan_of (nodes : list RelayNodeConfig) (parachains : list ParachainConfig)
  : LaunchConfig :=
  {| lc_relaychain := Some (relaychain_of nodes); lc_parachains := Some parachains;
     lc_simpleParachains := None; lc_hrmpChannels := None; lc_types := TypesObject;
     lc_finalization := false |}.

(** Three relay nodes and two parachains of one collator each; the first
    parachain gives no id and its generated spec has the id the second one
    declares. *)
Definition sample_plan : LaunchConfig :=
  plan_of [relay_node "alice" 9944; relay_node "bob" 9955; relay_node "charlie" 9966]
    [parachain_entry None [collator 9988]; parachain_entry (Some "2000") [collator 9999]].

(** As many parachains as relay nodes. *)
Definition crowded_plan : LaunchConfig :=
  plan_of [relay_node "alice" 9944] [parachain_entry (Some "2000") [collator 9988]].

(** Two relay nodes and one parachain with an empty list of nodes. *)
Definition headless_plan : LaunchConfig :=
  plan_of [relay_node "alice" 9944; relay_node "bob" 9955]
    [parachain_entry (Some "2000") []].

(** The lines of the report among effects. *)
Fixpoint reports (evs : list Event) : list Report :=
  match evs with
  | [] => []
  | EReport r :: evs' => r :: reports evs'
  | _ :: evs' => reports evs'
  end.

(** The plan [run] returns for a plan, and the state it leaves. *)
Definition launched (plan : LaunchConfig) : option LaunchConfig :=
  match outcome (run sample_world "cfg" (Some plan) initial_state) with
  | Returned launched => launched
  | _ => None
  end.

Definition after_launch (plan : LaunchConfig) : State :=
  final (run sample_world "cfg" (Some plan) initial_state).

(** The upgrade test on the plan [run] returned. *)
Definition sample_upgrade_test (plan : LaunchConfig) : Result unit :=
  match launched plan with
  | Some config =>
      upgrade_test sample_world 4 "cfg" config
        (w_resolve sample_world "cfg" "polkadot-v2")
        (Some (w_resolve sample_world "cfg" "relay-v2.wasm"))
        (after_launch plan)
  | None => ret tt (after_launch plan)
  end.

(** A session that was opened at version 1, not yet marked and marked. *)
Definition sample_session (marked : bool) : UpgradeSession :=
  {| first_node := 9988; old_version := 1; has_updated := marked;
     old_tag := "v1"; new_tag := "v1" |}.

(** A simple parachain. *)
Definition simple_entry (id port : string) : SimpleParachainConfig :=
  {| sp_bin := "simple-collator"; sp_id := id; sp_port := port; sp_balance := "1000";
     sp_resolvedId := None |}.

(** The sample plan with a simple parachain of id ["3000"]. *)
Definition mixed_plan : LaunchConfig :=
  set_simpleParachains sample_plan (Some [simple_entry "3000" "9977"]).

(** The sample world, where the runtime behind each port has the version
    [version] gives. *)
Definition sample_world_at (version : Z → Z) : World :=
  {| w_resolve := w_resolve sample_world;
     w_existsSync := w_existsSync sample_world;
     w_ext := w_ext sample_world;
     w_buildSpec := w_buildSpec sample_world;
     w_exportGenesisState := w_exportGenesisState sample_world;
     w_exportGenesisWasm := w_exportGenesisWasm sample_world;
     w_randomKey := w_randomKey sample_world;
     w_peerId := w_peerId sample_world;
     w_parachainAccount := w_parachainAccount sample_world;
     w_relayInfo := w_relayInfo sample_world;
     w_specVersion := fun _ port => version port;
     w_activeConfig := w_activeConfig sample_world;
     w_gitTag := w_gitTag sample_world;
     w_txStatuses := w_txStatuses sample_world;
     w_readFile := w_readFile sample_world;
     w_jsonParses := w_jsonParses sample_world;
     w_blake2 := w_blake2 sample_world;
     w_curlErr := w_curlErr sample_world |}.

(** Two parachains with a session each, opened at version 1: the runtime
    of the first, behind port 9988, is at version 2, the runtime of the
    second, behind port 9999, still at version 1. *)
Definition one_upgraded : World :=
  sample_world_at (fun port => if port =? 9988 then 2 else 1).

Definition two_parachains : list ParachainConfig :=
  [set_resolvedId (parachain_entry (Some "2000") [collator 9988]) (Some "2000");
   set_resolvedId (parachain_entry (Some "2001") [collator 9999]) (Some "2001")].

Definition two_sessions : gmap string UpgradeSession :=
  {[ "2000" := sample_session false;
     "2001" := {| first_node := 9999; old_version := 1; has_updated := false;
                  old_tag := "v1"; new_tag := "v1" |} ]}.

(** The number of times the version of the runtime behind [port] is read
    among effects. *)
Definition reads_of (port : Z) (evs : list Event) : nat :=
  length (List.filter (fun e => match e with
                                | EGetSpecVersion api => api =? port
                                | _ => false
                                end) evs).

(** ** spawn.ts: the command lines

    The argument lists the functions of spawn.ts hand to [spawn]. *)

(** [toLowerCase] on a name; names are the Substrate account names
    (alice, bob, ...), so only the letters A-Z are concerned. *)
Definition lower (c : Ascii.ascii) : Ascii.ascii :=
  let n := Ascii.nat_of_ascii c in
  if ((65 <=? n) && (n <=? 90))%nat then Ascii.ascii_of_nat (n + 32) else c.

Fixpoint toLowerCase (s : string) : string :=
  match s with
  | EmptyString => EmptyString
  | String c s' => String (lower c) (toLowerCase s')
  end.

(** [array.findIndex(f)]: [None] is [-1]. *)
Fixpoint findIndex {A} (f : A → bool) (l : list A) : option nat :=
  match l with
  | [] => None
  | x :: l' => if f x then Some O else S <$> findIndex f l'
  end.

(** The [flags] of a node as an array: [None] when the field is falsy.
    [checkConfig] has refused every other value. *)
Definition flags_array (flags : Flags) : option (option (list string)) :=
  match flags with
  | FlagsAbsent => Some None
  | FlagsArray fs => Some (Some fs)
  | FlagsNotArray => None
  end.

(** [flags_parachain] and [flags_collator] of [startCollator] (spawn.ts
    lines 233-242): the flags before and after the first ["--"]. *)
Definition split_flags (flags : option (list string))
  : option (list string) * option (list string) :=
  match flags with
  | None => (None, None)
  | Some fs =>
      match findIndex (String.eqb "--") fs with
      | None => (Some fs, None)
      | Some split_index => (Some (take split_index fs), Some (drop (S split_index) fs))
      end
  end.

(** The arguments of [startCollator] (spawn.ts lines 205-257) up to the
    user's flags: the parachain's own part of the command line.  The
    option [chain] of this file is [co_spec], its [spec] is
    [co_relaySpec]. *)
Definition collator_own_args (wsPort : Z) (rpcPort : option Z) (port : Z)
    (options : CollatorOptions) : list string :=
  (["--ws-port=" +:+ Number_toString wsPort; "--port=" +:+ Number_toString port]
  ++ match rpcPort with
     | Some n => if n =? 0 then [] else ["--rpc-port=" +:+ Number_toString n]
     | None => []
     end
  ++ ["--collator"]
  ++ match co_basePath options with
     | Some path => if truthy_string path then ["--base-path=" +:+ path] else ["--tmp"]
     | None => ["--tmp"]
     end
  ++ match co_spec options with
     | Some chain => if truthy_string chain then ["--chain=" +:+ chain] else []
     | None => []
     end
  ++ match co_name options with
     | Some name => if truthy_string name then ["--" +:+ toLowerCase name] else []
     | None => []
     end
  ++ (if co_onlyOneParachainNode options then ["--force-authoring"] else []))%list.

(** The arguments of [startCollator]; [None] when [flags] is a value
    without [findIndex], on which the call throws. *)
Definition startCollator_args (wsPort : Z) (rpcPort : option Z) (port : Z)
    (options : CollatorOptions) : option (list string) :=
  flags ← flags_array (co_flags options);
  let '(flags_parachain, flags_collator) := split_flags flags in
  Some (collator_own_args wsPort rpcPort port options
        ++ default [] flags_parachain
        ++ ["--"; "--chain=" +:+ co_relaySpec options]
        ++ default [] flags_collator)%list.

(** ** spawn.ts: the tag of a binary's repository *)

(** The characters ['/'], ['\n'] and ['\r']. *)
Definition slash : Ascii.ascii := Ascii.ascii_of_nat 47.
Definition line_feed : Ascii.ascii := Ascii.ascii_of_nat 10.
Definition carriage_return : Ascii.ascii := Ascii.ascii_of_nat 13.

(** [s.lastIndexOf(c)] for a one-character [c]: [None] is [-1]. *)
Fixpoint lastIndexOf (c : Ascii.ascii) (s : string) : option nat :=
  match s with
  | EmptyString => None
  | String a s' =>
      match lastIndexOf c s' with
      | Some i => Some (S i)
      | None => if Ascii.eqb a c then Some O else None
      end
  end.

(** [s.includes(c)] for a one-character [c]. *)
Fixpoint has_char (c : Ascii.ascii) (s : string) : bool :=
  match s with
  | EmptyString => false
  | String a s' => Ascii.eqb a c || has_char c s'
  end.

(** [hay.includes(needle)] *)
Fixpoint includes (needle hay : string) : bool :=
  String.prefix needle hay
  || match hay with
     | EmptyString => false
     | String _ hay' => includes needle hay'
     end.

(** [location.substring(0, location.lastIndexOf('/') + 1)] (spawn.ts line
    304): the directory the tag is asked in. *)
Definition git_directory (location : string) : string :=
  substring 0 (match lastIndexOf slash location with Some i => S i | None => O end) location.

(** The command [getGitRepositoryTag] runs (spawn.ts line 305). *)
Definition git_command (location : string) : string :=
  "git -C " +:+ git_directory location +:+ " describe --tags --abbrev=0".

(** [stdout.replace(/(\r\n|\n|\r)/gm, "")]: every line feed and carriage
    return is dropped. *)
Fixpoint remove_newlines (s : string) : string :=
  match s with
  | EmptyString => EmptyString
  | String a s' =>
      if Ascii.eqb a line_feed || Ascii.eqb a carriage_return then remove_newlines s'
      else String a (remove_newlines s')
  end.

(** What [getGitRepositoryTag] resolves with, from the output of the
    command (spawn.ts lines 306-310). *)
Definition git_tag (stdout stderr : string) : string :=
  if includes "fatal" stderr then "" else remove_newlines stdout.

(** ** Notions about the process table *)

(** A piece of the orchestrator that drops no handle from the process
    table: a key that is in the table before is in it after. *)
Definition keeps_handles {A} (m : M A) : Prop :=
  ∀ s key, is_Some (st_procs s !! key) → is_Some (st_procs (final (m s)) !! key).

(** ** Notions about the order of a launch *)

(** The effect is an edit of the relay's chain spec. *)
Definition edits_spec (e : Event) : bool :=
  match e with
  | EClearAuthorities _ | EAddAuthority _ _ | EChangeGenesisConfig _ _
  | EAddGenesisParachain _ _ _ _ _ | EAddGenesisHrmpChannel _ _ | EAddBootNodes _ _ => true
  | _ => false
  end.

(** The effect is the start of a relay node or of a collator. *)
Definition starts_node (e : Event) : bool :=
  match e with
  | EStartNode _ _ _ | EStartCollator _ _ _ _ _ | EStartSimpleCollator _ _ _ _ _ => true
  | _ => false
  end.

(** The effect is the generation of a raw chain spec. *)
Definition makes_raw (e : Event) : bool :=
  match e with
  | EGenerateChainSpecRaw _ _ _ => true
  | _ => false
  end.

(** The effects that do not come before the relay's raw chain spec is
    generated, and those that do not come after. *)
Definition before_raw (e : Event) : Prop := makes_raw e || starts_node e = true.
Definition after_raw (e : Event) : Prop := makes_raw e || edits_spec e = true.

(** ** runner.ts: the upgrade test of the parachains alone *)

(** [runThenTryUpgradeParachains] from "Now preparing for runtime upgrade
    testing" to the end of the verification loop (part_002 lines 580-733),
    for the configuration the lines above them have launched: the variables
    of the loop as it leaves them; the closing banner then says whether
    [parachains_upgrade_failed] is set. *)
Definition upgrade_parachains_test (w : World) (fuel : nat) (config_dir : string)
    (config : LaunchConfig) : M (option VerifyState) :=
  match lc_relaychain config, lc_parachains config with
  | Some relaychain, Some parachains =>
      let types := lc_types config in
      let spec := resolve_cwd w (rc_chain relaychain +:+ "-raw.json") in
      info <- baseline w (rc_nodes relaychain) types;;
      let epoch_time := ri_epochLength info * ri_blockTime info in
      parachains_info <-
        for_of_fold parachains
          (restart_parachain w config_dir spec types (length parachains =? 1)%nat) ∅;;
      connect_relay w (rc_nodes relaychain) types;;
      delay_blocks <- getCodeValidationDelay w;;
      let code_validation_delay := ri_blockTime info * delay_blocks in
      disconnect w;;
      waitForExtraOutput;;
      waitWithTimer epoch_time;;
      for_of parachains (upgrade_parachain w types parachains_info);;
      verify_upgrades w fuel types code_validation_delay parachains parachains_info
  | _, _ => throw TypeError
  end.

(** The effect stops or starts a relay node, changes the relay's runtime
    or reports on it. *)
Definition touches_relay (e : Event) : bool :=
  match e with
  | EKill (KName _) | EStartNode _ _ _
  | ESubmit (TxSetCode _) | EIncluded (TxSetCode _)
  | EReport (RelayUpgraded _ _) | EReport (RelayFailed _) => true
  | _ => false
  end.

(** The effects of the verification loop, or none: what the test of the
    parachains alone ends with. *)
Definition verification_or_nothing (w : World) (fuel : nat) (post : list Event) : Prop :=
  post = [] ∨ ∃ types delay parachains info s',
                post = events (verify_upgrades w fuel types delay parachains info s').

(** The effect builds the network: it generates or edits the relay's chain
    spec or starts a relay node or a collator. *)
Definition builds_network (e : Event) : bool :=
  match e with
  | EGenerateChainSpec _ _ => true
  | _ => edits_spec e || makes_raw e || starts_node e
  end.

(** [run] up to the test on the relay's binary: the registry is emptied,
    the ids are resolved, the node keys are generated. *)
Definition before_relay_binary (w : World) (config_dir : string) (checked : LaunchConfig)
  : M (LaunchConfig * list string) :=
  set_registered ∅;;
  config <- resolveParachainId w config_dir checked;;
  generateNodeKeys w config.

(** ** spawn.ts: the files of the chain specs *)

(** [generateChainSpec(bin, chain)] writes the file [`${chain}.json`]. *)
Definition chain_spec_file (chain : string) : string := chain +:+ ".json".

(** [generateChainSpecRaw(bin, chain, id)]: the file its [--chain=]
    argument names, when it has one ([chain != ""]). *)
Definition raw_spec_input (chain : string) : option string :=
  if negb (String.eqb chain "") then Some (chain +:+ ".json") else None.

(** [generateChainSpecRaw(bin, chain, id)]: the arguments of the binary. *)
Definition raw_spec_args (chain : string) : list string :=
  (["build-spec"; "--raw"]
   ++ match raw_spec_input chain with
      | Some file => ["--chain=" +:+ file]
      | None => []
      end)%list.

(** [generateChainSpecRaw(bin, chain, id)]: the file it writes,
    [`${name}-raw.json`], where [name] is [chain], or [id] when [chain] is
    empty, or ["parachain"] when [id] is falsy too. *)
Definition raw_spec_file (chain : string) (id : option string) : string :=
  (if negb (String.eqb chain "") then chain
   else match id with
        | Some i => if truthy_string i then i else "parachain"
        | None => "parachain"
        end) +:+ "-raw.json".

(** The effect, when it concerns a chain spec of the relay, generates or
    edits the file [json], or reads [json] to write the file [raw], or
    starts a node with the file [spec]. *)
Definition keeps_to (json raw spec : string) (e : Event) : bool :=
  match e with
  | EGenerateChainSpec _ chain => bool_decide (chain_spec_file chain = json)
  | EClearAuthorities file | EAddAuthority file _ | EChangeGenesisConfig file _
  | EAddGenesisParachain file _ _ _ _ | EAddGenesisHrmpChannel file _
  | EAddBootNodes file _ =>
      bool_decide (file = json)
  | EGenerateChainSpecRaw _ chain id =>
      bool_decide (raw_spec_input chain = Some json)
      && bool_decide (raw_spec_file chain id = raw)
  | EStartNode _ _ file | EStartSimpleCollator _ _ file _ _ => bool_decide (file = spec)
  | EStartCollator _ _ _ _ options => bool_decide (co_relaySpec options = spec)
  | _ => true
  end.

(** The relay chain spec a node is started with, when the effect is the
    start of a relay node, a collator or a simple collator. *)
Definition started_with (e : Event) : option string :=
  match e with
  | EStartNode _ _ file | EStartSimpleCollator _ _ file _ _ => Some file
  | EStartCollator _ _ _ _ options => Some (co_relaySpec options)
  | _ => None
  end.

(** A world in which one file is missing. *)
Definition without_file (w : World) (missing : string) : World :=
  {| w_resolve := w_resolve w;
     w_existsSync := fun path => negb (String.eqb path missing) && w_existsSync w path;
     w_ext := w_ext w;
     w_buildSpec := w_buildSpec w;
     w_exportGenesisState := w_exportGenesisState w;
     w_exportGenesisWasm := w_exportGenesisWasm w;
     w_randomKey := w_randomKey w;
     w_peerId := w_peerId w;
     w_parachainAccount := w_parachainAccount w;
     w_relayInfo := w_relayInfo w;
     w_specVersion := w_specVersion w;
     w_activeConfig := w_activeConfig w;
     w_gitTag := w_gitTag w;
     w_txStatuses := w_txStatuses w;
     w_readFile := w_readFile w;
     w_jsonParses := w_jsonParses w;
     w_blake2 := w_blake2 w;
     w_curlErr := w_curlErr w |}.

(** The effect strays from the files of the relay chain [chain]:
    [chain.json], [chain-raw.json] and the latter resolved against the
    working directory. *)
Definition strays (w : World) (chain : string) (e : Event) : Prop :=
  keeps_to (chain +:+ ".json") (chain +:+ "-raw.json")
    (resolve_cwd w (chain +:+ "-raw.json")) e = false.

(** * Properties *)

(** ** The monad *)

Lemma bind_Returned {A B} (m : M A) (k : A → M B) (s : State) (a : A) :
  outcome (m s) = Returned a →
  bind m k s =
    {| outcome := outcome (k a (final (m s)));
       events := events (m s) ++ events (k a (final (m s)));
       final := final (k a (final (m s))) |}.
Proof. intros H. unfold bind. rewrite H. reflexivity. Qed.

Lemma bind_not_Returned {A B} (m : M A) (k : A → M B) (s : State) :
  (∀ a, outcome (m s) ≠ Returned a) →
  bind m k s =
    {| outcome := abort (outcome (m s)); events := events (m s); final := final (m s) |}.
Proof.
  intros H. unfold bind. destruct (outcome (m s)) as [a| | |]; try reflexivity.
  exfalso. exact (H a eq_refl).
Qed.

Lemma bind_outcome_inv {A B} (m : M A) (k : A → M B) (s : State) (b : B) :
  outcome (bind m k s) = Returned b →
  ∃ a, outcome (m s) = Returned a ∧ outcome (k a (final (m s))) = Returned b.
Proof.
  unfold bind. destruct (outcome (m s)) as [a| | |] eqn:E; simpl; try discriminate.
  intros H. exists a. split; [reflexivity | exact H].
Qed.

Lemma bind_ret_l {A B} (a : A) (k : A → M B) (s : State) :
  bind (ret a) k s = k a s.
Proof. unfold bind, ret. simpl. destruct (k a s). reflexivity. Qed.

Lemma bind_pure {A B} (m : M A) (k : A → M B) (s : State) (a : A) :
  m s = ret a s → bind m k s = k a s.
Proof. intros H. unfold bind. rewrite H. simpl. destruct (k a s). reflexivity. Qed.

Lemma bind_stop {A B} (o : Outcome A) (k : A → M B) (s : State) :
  (∀ a, o ≠ Returned a) → bind (stop o) k s = stop (abort o) s.
Proof.
  intros H. unfold bind, stop. simpl. destruct o; try reflexivity.
  exfalso. exact (H a eq_refl).
Qed.

(** A loop over a list whose body leaves every element as it is, and does
    nothing, is the identity. *)
Lemma for_of_map_id {A} (P : A → Prop) (body : A → M A) (xs : list A) (s : State) :
  (∀ x s, P x → body x s = ret x s) →
  Forall P xs →
  for_of_map xs body s = ret xs s.
Proof.
  intros Hbody Hxs. induction Hxs as [|x xs Hx _ IH]; [reflexivity|].
  cbn [for_of_map]. rewrite (bind_pure _ _ _ x) by auto.
  rewrite (bind_pure _ _ _ xs) by exact IH. reflexivity.
Qed.

(** What holds of every value a loop body returns holds of the list the
    loop returns, element by element. *)
Lemma for_of_map_Forall2 {A B} (R : A → B → Prop) (body : A → M B) (xs : list A) :
  (∀ x s y, outcome (body x s) = Returned y → R x y) →
  ∀ s ys, outcome (for_of_map xs body s) = Returned ys → Forall2 R xs ys.
Proof.
  intros Hbody. induction xs as [|x xs IH]; intros s ys H.
  - cbn in H. injection H as <-. constructor.
  - cbn [for_of_map] in H.
    apply bind_outcome_inv in H as (y & Hy & H).
    apply bind_outcome_inv in H as (rest & Hrest & H).
    cbn in H. injection H as <-. constructor; eauto.
Qed.

(** ** JavaScript values *)

Lemma Number_toString_truthy (n : Z) : truthy_string (Number_toString n) = true.
Proof.
  unfold Number_toString, NilZero.string_of_int, NilZero.string_of_uint.
  destruct (Z.to_int n) as [d|d]; [destruct d|]; reflexivity.
Qed.

Lemma truthy_opt_is_Some (o : option string) : truthy_opt o = true → is_Some o.
Proof. destruct o; [eauto | discriminate]. Qed.

(** ** Resolution of parachain ids *)

Section Resolution.

Variable w : World.

Lemma resolve_parachain_resolved (dir : string) (p : ParachainConfig) (s : State) :
  truthy_opt (pc_resolvedId p) = true →
  resolve_parachain w dir p s = ret p s.
Proof. intros H. unfold resolve_parachain. rewrite H. reflexivity. Qed.

(** What [getParachainIdFromSpec] does when the binary runs and its output
    parses. *)
Lemma getParachainIdFromSpec_ok (bin : string) (chain : option string)
    (spec : SpecJson) (s : State) :
  w_ext w (st_time s) = Fine →
  w_buildSpec w bin (chain_arg chain) = Some spec →
  outcome (getParachainIdFromSpec w bin chain s)
    = Returned (js_or (sj_paraId spec) (sj_para_id spec))
  ∧ events (getParachainIdFromSpec w bin chain s) = [EBuildSpec bin (chain_arg chain)].
Proof.
  intros Hext Hspec.
  unfold getParachainIdFromSpec, spawn, ext, bind, get_procs, set_procs, now, emit, ret.
  cbn. rewrite Hext. cbn. rewrite Hspec. cbn. split; reflexivity.
Qed.

(** Every entry that resolution returns carries a truthy resolved id, and
    differs from the entry it was given in that field only. *)
Lemma resolve_parachain_post (dir : string) (p p' : ParachainConfig) (s : State) :
  outcome (resolve_parachain w dir p s) = Returned p' →
  truthy_opt (pc_resolvedId p') = true ∧ p' = set_resolvedId p (pc_resolvedId p').
Proof.
  unfold resolve_parachain.
  destruct (truthy_opt (pc_resolvedId p)) eqn:Hr.
  - cbn. intros [= <-]. split; [exact Hr | destruct p; reflexivity].
  - destruct (truthy_opt (pc_id p)) eqn:Hid.
    + cbn. intros [= <-]. split; [exact Hid | reflexivity].
    + intros H. apply bind_outcome_inv in H as (v & _ & H).
      destruct (js_toString v) as [str|] eqn:Hv; [|discriminate].
      cbn in H. injection H as <-. split; [|reflexivity].
      destruct v as [n|]; [|discriminate]. cbn in Hv. injection Hv as <-.
      cbn. apply Number_toString_truthy.
Qed.

(** C7: for a parachain entry with no explicit id, the resolved id is read
    from the chain spec the parachain binary generates: the field [paraId]
    when it holds a non-zero number, otherwise the field [para_id], written
    as a decimal numeral when the number is a safe integer (below [2^53] in
    absolute value); the binary is run once.  A generated spec with
    [para_id: 2000] and no [paraId] gives the resolved id ["2000"].  This
    holds of the runner without the guard on [resolvedId], and of the one
    with the guard for an entry that has no resolved id yet. *)
Theorem resolved_id_read_from_generated_spec
    (dir : string) (p : ParachainConfig) (spec : SpecJson) (s : State) :
  truthy_opt (pc_id p) = false →
  w_ext w (st_time s) = Fine →
  w_buildSpec w (w_resolve w dir (pc_bin p)) (chain_arg (pc_chain p)) = Some spec →
  let r := resolve_parachain_unguarded w dir p s in
  (truthy_opt (pc_resolvedId p) = false → resolve_parachain w dir p s = r)
  ∧ events r = [EBuildSpec (w_resolve w dir (pc_bin p)) (chain_arg (pc_chain p))]
  ∧ (∀ n, sj_paraId spec = Some n → n ≠ 0 → safe_integer n = true →
       outcome r = Returned (set_resolvedId p (Some (Number_toString n))))
  ∧ (∀ m, truthy (sj_paraId spec) = false → sj_para_id spec = Some m →
       safe_integer m = true →
       outcome r = Returned (set_resolvedId p (Some (Number_toString m))))
  ∧ (sj_paraId spec = None → sj_para_id spec = Some 2000 →
       outcome r = Returned (set_resolvedId p (Some "2000"))).
Proof.
  intros Hid Hext Hspec r.
  destruct (getParachainIdFromSpec_ok _ (pc_chain p) _ s Hext Hspec) as [Ho He].
  assert (Hrun : r = bind (getParachainIdFromSpec w (w_resolve w dir (pc_bin p)) (pc_chain p))
                   (fun paraId => match js_toString paraId with
                                  | None => throw TypeError
                                  | Some str => ret (set_resolvedId p (Some str))
                                  end) s).
  { subst r. unfold resolve_parachain_unguarded. rewrite Hid. reflexivity. }
  assert (Hguard : truthy_opt (pc_resolvedId p) = false → resolve_parachain w dir p s = r).
  { intros Hr. rewrite Hrun. unfold resolve_parachain. rewrite Hr, Hid. reflexivity. }
  rewrite (bind_Returned _ _ _ _ Ho) in Hrun.
  assert (Hout : ∀ k, js_or (sj_paraId spec) (sj_para_id spec) = Some k →
                      outcome r = Returned (set_resolvedId p (Some (Number_toString k)))).
  { intros k Hk. rewrite Hrun. cbn [outcome]. rewrite Hk. reflexivity. }
  split; [exact Hguard | split; [|split; [|split]]].
  - rewrite Hrun. cbn [events]. rewrite He.
    destruct (js_toString _); reflexivity.
  - intros n Hn Hnz _. apply Hout. unfold js_or. rewrite Hn. cbn.
    destruct (Z.eqb_spec n 0); [contradiction | reflexivity].
  - intros m Hf Hm _. apply Hout. unfold js_or. rewrite Hf. exact Hm.
  - intros Hn Hm. apply (Hout 2000). unfold js_or. rewrite Hn. exact Hm.
Qed.

(** The older runner, which has no guard, runs the spec-generation binary
    again for an entry that carries a resolved id and no id of its own. *)
Remark resolve_parachain_unguarded_reruns (dir : string) (p : ParachainConfig)
    (spec : SpecJson) (s : State) :
  truthy_opt (pc_id p) = false →
  w_ext w (st_time s) = Fine →
  w_buildSpec w (w_resolve w dir (pc_bin p)) (chain_arg (pc_chain p)) = Some spec →
  events (resolve_parachain_unguarded w dir p s)
  = [EBuildSpec (w_resolve w dir (pc_bin p)) (chain_arg (pc_chain p))].
Proof.
  intros Hid Hext Hspec. unfold resolve_parachain_unguarded. rewrite Hid.
  destruct (getParachainIdFromSpec_ok _ (pc_chain p) _ s Hext Hspec) as [Ho He].
  rewrite (bind_Returned _ _ _ _ Ho). cbn [events]. rewrite He.
  destruct (js_toString _); reflexivity.
Qed.

Lemma resolve_parachain_unguarded_id (dir : string) (p : ParachainConfig) (s : State) :
  truthy_opt (pc_id p) = true →
  resolve_parachain_unguarded w dir p s = ret (set_resolvedId p (pc_id p)) s.
Proof. intros H. unfold resolve_parachain_unguarded. rewrite H. reflexivity. Qed.

(** Every entry the step without the guard returns carries a truthy
    resolved id, and differs from the entry it was given in that field
    only. *)
Lemma resolve_parachain_unguarded_post (dir : string) (p p' : ParachainConfig) (s : State) :
  outcome (resolve_parachain_unguarded w dir p s) = Returned p' →
  truthy_opt (pc_resolvedId p') = true ∧ p' = set_resolvedId p (pc_resolvedId p').
Proof.
  unfold resolve_parachain_unguarded.
  destruct (truthy_opt (pc_id p)) eqn:Hid.
  - cbn. intros [= <-]. split; [exact Hid | reflexivity].
  - intros H. apply bind_outcome_inv in H as (v & _ & H).
    destruct (js_toString v) as [str|] eqn:Hv; [|discriminate].
    cbn in H. injection H as <-. split; [|reflexivity].
    destruct v as [n|]; [|discriminate]. cbn in Hv. injection Hv as <-.
    cbn. apply Number_toString_truthy.
Qed.

(** Resolution around any step: what it returns. *)
Lemma resolve_with_post (step : ParachainConfig → M ParachainConfig)
    (c c' : LaunchConfig) (s : State) :
  outcome (resolve_with step c s) = Returned c' →
  ∃ parachains simpleParachains parachains',
    lc_parachains c = Some parachains
    ∧ lc_simpleParachains c = Some simpleParachains
    ∧ outcome (for_of_map parachains step s) = Returned parachains'
    ∧ c' = set_simpleParachains (set_parachains c (Some parachains'))
             (Some (map resolve_simple simpleParachains)).
Proof.
  unfold resolve_with. intros H.
  destruct (lc_parachains c) as [ps|]; [|discriminate].
  apply bind_outcome_inv in H as (ps' & Hps' & H).
  destruct (lc_simpleParachains c) as [sps|]; [|discriminate].
  cbn in H. injection H as <-.
  exists ps, sps, ps'. repeat split. exact Hps'.
Qed.

(** Resolution around a step is the identity, with no effect, on a
    configuration it returned, when the step is the identity on every
    entry it returns. *)
Lemma resolve_with_again (step : ParachainConfig → M ParachainConfig)
    (fixed : ParachainConfig → Prop) (c resolved : LaunchConfig) (s : State) :
  (∀ p s0, fixed p → step p s0 = ret p s0) →
  (∀ p s0 p', outcome (step p s0) = Returned p' → fixed p') →
  outcome (resolve_with step c s) = Returned resolved →
  ∀ s', resolve_with step resolved s' = ret resolved s'.
Proof.
  intros Hfixed Hpost H s'.
  apply resolve_with_post in H as (ps & sps & ps' & _ & _ & Hps' & ->).
  assert (Hall : Forall fixed ps').
  { apply (for_of_map_Forall2 (fun _ p' => fixed p')) in Hps'.
    - clear -Hps'. induction Hps'; constructor; auto.
    - intros x s0 y Hy. exact (Hpost x s0 y Hy). }
  unfold resolve_with. cbn [lc_parachains lc_simpleParachains set_simpleParachains
    set_parachains].
  rewrite (bind_pure _ _ _ ps').
  2:{ apply (for_of_map_id fixed); [|exact Hall]. intros x s0 Hx. apply Hfixed. exact Hx. }
  rewrite map_map. unfold set_simpleParachains, set_parachains. cbn.
  reflexivity.
Qed.


End Resolution.

(** ** The configuration check and [run] *)

Section Launch.

Variable w : World.

Lemma mapM_pc_nodes_Some (ps : list ParachainConfig) (nodess : list (list ParachainNodeConfig)) :
  mapM pc_nodes ps = Some nodess →
  Forall (fun p => is_Some (pc_nodes p)) ps.
Proof.
  intros H. apply mapM_Some in H. induction H; constructor; eauto.
Qed.

Lemma set_simpleParachains_id (c : LaunchConfig) (sps : list SimpleParachainConfig) :
  lc_simpleParachains c = Some sps →
  set_simpleParachains c (Some sps) = c.
Proof. destruct c; cbn. intros ->. reflexivity. Qed.

(** What a configuration that passes the check looks like, and what the
    check leaves of it. *)
Lemma checkConfig_true (raw : option LaunchConfig) (dir : option string) (upgrade : bool) :
  fst (checkConfig w raw dir upgrade) = true →
  ∃ c relaychain parachains,
    raw = Some c
    ∧ lc_relaychain c = Some relaychain
    ∧ lc_parachains c = Some parachains
    ∧ (length parachains < length (rc_nodes relaychain))%nat
    ∧ Forall (fun p => is_Some (pc_nodes p)) parachains
    ∧ snd (checkConfig w raw dir upgrade)
      = Some (set_simpleParachains c (Some (default [] (lc_simpleParachains c)))).
Proof.
  unfold checkConfig. intros H.
  destruct raw as [c|]; [|discriminate].
  destruct (lc_relaychain c) as [relaychain|] eqn:Hrc; [|discriminate].
  destruct (negb (truthy_string (rc_bin relaychain))); [discriminate|].
  destruct (negb (truthy_string (rc_chain relaychain))); [discriminate|].
  destruct (length (rc_nodes relaychain) =? 0)%nat; [discriminate|].
  destruct (negb (forallb _ (rc_nodes relaychain))); [discriminate|].
  destruct (lc_parachains c) as [parachains|] eqn:Hps; [|discriminate].
  destruct (length (rc_nodes relaychain) <=? length parachains)%nat eqn:Hlen;
    [discriminate|].
  destruct (mapM pc_nodes parachains) as [nodess|] eqn:Hnodes; [|discriminate].
  destruct (negb (forallb _ nodess)); [discriminate|].
  match type of H with context [if negb ?b then _ else _] => destruct b end;
    [|discriminate].
  exists c, relaychain, parachains.
  apply Nat.leb_gt in Hlen. apply mapM_pc_nodes_Some in Hnodes.
  repeat split; try assumption.
  cbn. destruct (lc_simpleParachains c) as [sps|] eqn:Hsps; cbn.
  - rewrite (set_simpleParachains_id c sps Hsps). reflexivity.
  - reflexivity.
Qed.

(** The check rejects a plan with at least as many parachains as relay
    nodes. *)
Lemma checkConfig_counts (c : LaunchConfig) (relaychain : RelayChainConfig)
    (parachains : list ParachainConfig) (dir : option string) (upgrade : bool) :
  lc_relaychain c = Some relaychain →
  lc_parachains c = Some parachains →
  (length (rc_nodes relaychain) ≤ length parachains)%nat →
  fst (checkConfig w (Some c) dir upgrade) = false.
Proof.
  intros Hrc Hps Hle.
  destruct (fst (checkConfig w (Some c) dir upgrade)) eqn:E; [|reflexivity].
  apply checkConfig_true in E as (c' & rc' & ps' & [= <-] & Hrc' & Hps' & Hlt & _).
  rewrite Hrc in Hrc'. rewrite Hps in Hps'.
  injection Hrc' as <-. injection Hps' as <-. lia.
Qed.

(** When the check fails, [run] only resets [registeredParachains] and
    returns [null]. *)
Lemma run_check_failed (dir : string) (raw : option LaunchConfig) (s : State) :
  fst (checkConfig w raw None false) = false →
  run w dir raw s
  = ret None {| st_time := st_time s; st_registered := ∅; st_procs := st_procs s |}.
Proof.
  intros H. unfold run.
  destruct (checkConfig w raw None false) as [[|] c]; [discriminate|].
  reflexivity.
Qed.

(** When the check passes, [run] returns a configuration or does not
    return. *)
Lemma run_check_passed (dir : string) (raw : option LaunchConfig) (s : State) :
  fst (checkConfig w raw None false) = true →
  outcome (run w dir raw s) ≠ Returned None.
Proof.
  intros H Hrun. unfold run in Hrun.
  destruct (checkConfig w raw None false) as [[|] [c|]]; try discriminate.
  apply bind_outcome_inv in Hrun as ([] & _ & Hrun).
  apply bind_outcome_inv in Hrun as (config & _ & Hrun).
  apply bind_outcome_inv in Hrun as ([config' bootnodes] & _ & Hrun).
  apply bind_outcome_inv in Hrun as ([] & _ & Hrun).
  discriminate.
Qed.

(** C10: a launch plan with at least as many parachain entries as relay
    nodes fails the configuration check, and [run] then returns [null]
    having performed no effect (no resolution, no spec generation, no
    process start); so a plan [run] returns has strictly more relay nodes
    than parachains. *)
Theorem run_rejects_too_many_parachains (dir : string) (c : LaunchConfig)
    (relaychain : RelayChainConfig) (parachains : list ParachainConfig) :
  lc_relaychain c = Some relaychain →
  lc_parachains c = Some parachains →
  ((length (rc_nodes relaychain) ≤ length parachains)%nat →
     fst (checkConfig w (Some c) None false) = false
     ∧ ∀ s, outcome (run w dir (Some c) s) = Returned None
            ∧ events (run w dir (Some c) s) = []
            ∧ st_procs (final (run w dir (Some c) s)) = st_procs s)
  ∧ (∀ s launched, outcome (run w dir (Some c) s) = Returned (Some launched) →
       (length parachains < length (rc_nodes relaychain))%nat).
Proof.
  intros Hrc Hps. split.
  - intros Hle.
    pose proof (checkConfig_counts c relaychain parachains None false Hrc Hps Hle) as Hc.
    split; [exact Hc|]. intros s. rewrite (run_check_failed dir _ s Hc). auto.
  - intros s launched Hrun.
    destruct (Nat.lt_ge_cases (length parachains) (length (rc_nodes relaychain)))
      as [Hlt|Hge]; [exact Hlt|].
    pose proof (checkConfig_counts c relaychain parachains None false Hrc Hps Hge) as Hc.
    rewrite (run_check_failed dir _ s Hc) in Hrun. discriminate.
Qed.

End Launch.

(** ** Pieces that return *)

Lemma returns_ret {A} (a : A) : returns (ret a).
Proof. intros s. exists a. reflexivity. Qed.

Lemma returns_bind {A B} (m : M A) (k : A → M B) :
  returns m → (∀ a, returns (k a)) → returns (bind m k).
Proof.
  intros Hm Hk s. destruct (Hm s) as [a Ha]. destruct (Hk a (final (m s))) as [b Hb].
  exists b. rewrite (bind_Returned _ _ _ _ Ha). exact Hb.
Qed.

(** The same, when the continuation is known to return only for the values
    the first piece can return. *)
Lemma returns_bind_post {A B} (P : A → Prop) (m : M A) (k : A → M B) :
  returns m →
  (∀ s a, outcome (m s) = Returned a → P a) →
  (∀ a, P a → returns (k a)) →
  returns (bind m k).
Proof.
  intros Hm HP Hk s. destruct (Hm s) as [a Ha].
  destruct (Hk a (HP s a Ha) (final (m s))) as [b Hb].
  exists b. rewrite (bind_Returned _ _ _ _ Ha). exact Hb.
Qed.

Lemma returns_emit (e : Event) : returns (emit e).
Proof. intros s. exists tt. reflexivity. Qed.

Lemma returns_now : returns now.
Proof. intros s. eexists. reflexivity. Qed.

Lemma returns_get_registered : returns get_registered.
Proof. intros s. eexists. reflexivity. Qed.

Lemma returns_set_registered (r : gmap string bool) : returns (set_registered r).
Proof. intros s. eexists. reflexivity. Qed.

Lemma returns_get_procs : returns get_procs.
Proof. intros s. eexists. reflexivity. Qed.

Lemma returns_set_procs (p : gmap string bool) : returns (set_procs p).
Proof. intros s. eexists. reflexivity. Qed.

Lemma returns_for_of {A} (xs : list A) (body : A → M unit) :
  (∀ x, x ∈ xs → returns (body x)) → returns (for_of xs body).
Proof.
  induction xs as [|x xs IH]; intros H; cbn [for_of].
  - apply returns_ret.
  - apply returns_bind; [apply H; left|].
    intros _. apply IH. intros y Hy. apply H. right. exact Hy.
Qed.

Lemma returns_for_of_map {A B} (xs : list A) (body : A → M B) :
  (∀ x, x ∈ xs → returns (body x)) → returns (for_of_map xs body).
Proof.
  induction xs as [|x xs IH]; intros H; cbn [for_of_map].
  - apply returns_ret.
  - apply returns_bind; [apply H; left|].
    intros y. apply returns_bind.
    + apply IH. intros z Hz. apply H. right. exact Hz.
    + intros rest. apply returns_ret.
Qed.

Lemma returns_countdown (i : nat) : returns (countdown i).
Proof.
  induction i as [|i IH]; cbn [countdown]; [apply returns_ret|].
  apply returns_bind; [apply returns_emit | intros _; exact IH].
Qed.

Create HintDb returns.

#[local] Hint Resolve returns_ret returns_emit returns_now returns_get_registered
  returns_set_registered returns_get_procs returns_set_procs returns_countdown : returns.

Ltac returns_step :=
  first
    [ solve [eauto with returns]
    | apply returns_for_of; intros ? ?
    | apply returns_for_of_map; intros ? ?
    | apply returns_bind; [|intros ?] ].

Section Cooperative.

Variable w : World.
Hypothesis Hcoop : cooperative w.

Lemma returns_ext (e : Event) : returns (ext w e).
Proof.
  unfold ext. repeat returns_step. rewrite (coop_ext w Hcoop). apply returns_ret.
Qed.

Lemma returns_require_file (path : string) : returns (require_file w path).
Proof. unfold require_file. rewrite (coop_exists w Hcoop). apply returns_ret. Qed.

Lemma returns_spawn (key : string) : returns (spawn key).
Proof. unfold spawn. repeat returns_step. Qed.

#[local] Hint Resolve returns_ext returns_require_file returns_spawn : returns.

Lemma returns_executeTransaction (tx : Tx) (finalization : bool) :
  returns (executeTransaction w tx finalization).
Proof.
  unfold executeTransaction. repeat returns_step.
  rewrite (coop_ext w Hcoop). repeat returns_step.
  rewrite (coop_tx w Hcoop). apply returns_emit.
Qed.

Lemma returns_setBalance (who value : string) (finalization : bool) :
  returns (setBalance w who value finalization).
Proof. apply returns_executeTransaction. Qed.

Lemma returns_startCollator bin wsPort rpcPort port options :
  returns (startCollator w bin wsPort rpcPort port options).
Proof.
  unfold startCollator. repeat returns_step.
  rewrite (coop_ext w Hcoop). apply returns_emit.
Qed.

Lemma returns_startSimpleCollator bin id spec port skip :
  returns (startSimpleCollator w bin id spec port skip).
Proof.
  unfold startSimpleCollator. repeat returns_step.
  rewrite (coop_ext w Hcoop). apply returns_emit.
Qed.

Lemma returns_startNode bin node spec : returns (startNode bin node spec).
Proof. unfold startNode. repeat returns_step. Qed.

Lemma returns_connect (port : Z) : returns (connect w port).
Proof. unfold connect. repeat returns_step. Qed.

Lemma returns_disconnect : returns (disconnect w).
Proof. unfold disconnect. apply returns_ext. Qed.

Lemma returns_loadTypeDef (types : TypesDef) : returns (loadTypeDef w types).
Proof.
  unfold loadTypeDef. destruct types as [path|]; repeat returns_step.
  destruct (coop_readFile w Hcoop path) as [x ->]. rewrite (coop_json w Hcoop).
  apply returns_ret.
Qed.

Lemma returns_generateChainSpec bin chain : returns (generateChainSpec w bin chain).
Proof. unfold generateChainSpec. repeat returns_step. Qed.

Lemma returns_generateChainSpecRaw bin chain id :
  returns (generateChainSpecRaw w bin chain id).
Proof. unfold generateChainSpecRaw. repeat returns_step. Qed.

#[local] Hint Resolve returns_executeTransaction returns_setBalance returns_startCollator
  returns_startSimpleCollator returns_startNode returns_connect returns_disconnect
  returns_loadTypeDef returns_generateChainSpec returns_generateChainSpecRaw : returns.

Lemma returns_exportGenesisState bin chain : returns (exportGenesisState w bin chain).
Proof.
  unfold exportGenesisState. repeat returns_step.
  destruct (coop_state w Hcoop bin (chain_arg chain)) as [x ->]. apply returns_ret.
Qed.

Lemma returns_exportGenesisWasm bin chain : returns (exportGenesisWasm w bin chain).
Proof.
  unfold exportGenesisWasm. repeat returns_step.
  destruct (coop_wasm w Hcoop bin (chain_arg chain)) as [x ->]. apply returns_ret.
Qed.

Lemma returns_try_or_exit {A} (m : M A) (code : Z) : returns m → returns (try_or_exit m code).
Proof.
  intros H s. destruct (H s) as [a Ha]. exists a. unfold try_or_exit. rewrite Ha. exact Ha.
Qed.

#[local] Hint Resolve returns_exportGenesisState returns_exportGenesisWasm : returns.

Lemma returns_add_parachain_to_genesis dir spec parachain :
  returns (add_parachain_to_genesis w dir spec parachain).
Proof.
  unfold add_parachain_to_genesis, addGenesisParachain, genesis_exports. repeat returns_step.
  destruct (negb _); [|apply returns_ret].
  apply returns_bind.
  - destruct (gp_prepopulated parachain); [apply returns_ret|].
    apply returns_try_or_exit. repeat returns_step.
  - intros [genesisState genesisWasm]. repeat returns_step.
Qed.

Lemma returns_addParachainsToGenesis dir spec ps sps :
  returns (addParachainsToGenesis w dir spec ps sps).
Proof.
  unfold addParachainsToGenesis. apply returns_for_of. intros x _.
  apply returns_add_parachain_to_genesis.
Qed.

Lemma returns_getParachainIdFromSpec bin chain :
  returns (getParachainIdFromSpec w bin chain).
Proof.
  unfold getParachainIdFromSpec. repeat returns_step.
  destruct (coop_buildSpec w Hcoop bin (chain_arg chain)) as (spec & -> & _).
  apply returns_ret.
Qed.

Lemma getParachainIdFromSpec_is_Some bin chain s v :
  outcome (getParachainIdFromSpec w bin chain s) = Returned v → is_Some v.
Proof.
  unfold getParachainIdFromSpec. intros H.
  apply bind_outcome_inv in H as (? & _ & H).
  apply bind_outcome_inv in H as (? & _ & H).
  destruct (coop_buildSpec w Hcoop bin (chain_arg chain)) as (spec & Hspec & Hv).
  rewrite Hspec in H. cbn in H. injection H as <-. exact Hv.
Qed.

Lemma returns_resolve_parachain dir p : returns (resolve_parachain w dir p).
Proof.
  unfold resolve_parachain.
  destruct (truthy_opt (pc_resolvedId p)); [apply returns_ret|].
  destruct (truthy_opt (pc_id p)); [apply returns_ret|].
  apply (returns_bind_post (fun v : JsNumber => is_Some v)).
  - apply returns_getParachainIdFromSpec.
  - intros s v. apply getParachainIdFromSpec_is_Some.
  - intros v [n ->]. cbn. apply returns_ret.
Qed.

Lemma returns_resolve_parachain_unguarded dir p :
  returns (resolve_parachain_unguarded w dir p).
Proof.
  unfold resolve_parachain_unguarded.
  destruct (truthy_opt (pc_id p)); [apply returns_ret|].
  apply (returns_bind_post (fun v : JsNumber => is_Some v)).
  - apply returns_getParachainIdFromSpec.
  - intros s v. apply getParachainIdFromSpec_is_Some.
  - intros v [n ->]. cbn. apply returns_ret.
Qed.

Lemma returns_generate_node_key node : returns (generate_node_key w node).
Proof. unfold generate_node_key. repeat returns_step. Qed.

Lemma returns_launch_parachain dir spec only_one finalization p :
  is_Some (pc_nodes p) →
  returns (launch_parachain w dir spec only_one finalization p).
Proof.
  intros [nodes Hnodes]. unfold launch_parachain, nodes_of. rewrite Hnodes.
  repeat returns_step.
  destruct (truthy_string _); eauto with returns.
Qed.

Lemma returns_launch_simple_parachain dir spec finalization p :
  returns (launch_simple_parachain w dir spec finalization p).
Proof.
  unfold launch_simple_parachain. repeat returns_step.
  destruct (truthy_string _); eauto with returns.
Qed.

End Cooperative.

Section Run.

Variable w : World.

Lemma resolveParachainId_post (dir : string) (c c' : LaunchConfig) (s : State) :
  outcome (resolveParachainId w dir c s) = Returned c' →
  ∃ parachains simpleParachains parachains',
    lc_parachains c = Some parachains
    ∧ lc_simpleParachains c = Some simpleParachains
    ∧ c' = set_simpleParachains (set_parachains c (Some parachains'))
             (Some (map resolve_simple simpleParachains))
    ∧ Forall2 (fun p p' => is_Some (pc_resolvedId p')
                           ∧ p' = set_resolvedId p (pc_resolvedId p'))
        parachains parachains'.
Proof.
  unfold resolveParachainId. intros H.
  apply resolve_with_post in H as (ps & sps & ps' & Hps & Hsps & Hps' & ->).
  exists ps, sps, ps'. repeat split; [exact Hps | exact Hsps|].
  eapply for_of_map_Forall2; [|exact Hps'].
  intros x s0 y Hy. apply resolve_parachain_unguarded_post in Hy as [Ht Hy].
  split; [apply truthy_opt_is_Some; exact Ht | exact Hy].
Qed.

Lemma generateNodeKeys_post (c c' : LaunchConfig) (bootnodes : list string) (s : State) :
  outcome (generateNodeKeys w c s) = Returned (c', bootnodes) →
  ∃ relaychain nodes',
    lc_relaychain c = Some relaychain
    ∧ c' = set_relaychain c (Some (set_nodes relaychain nodes'))
    ∧ Forall2 (fun n n' => is_Some (rn_nodeKey n')
                           ∧ n' = set_nodeKey n (rn_nodeKey n'))
        (rc_nodes relaychain) nodes'.
Proof.
  unfold generateNodeKeys. intros H.
  destruct (lc_relaychain c) as [rc|]; [|discriminate].
  apply bind_outcome_inv in H as (keyed & Hkeyed & H).
  cbn in H. injection H as <- <-.
  exists rc, (map fst keyed). repeat split.
  apply Forall2_fmap_r.
  eapply for_of_map_Forall2; [|exact Hkeyed].
  intros n s0 [n' b] Hn. unfold generate_node_key in Hn.
  apply bind_outcome_inv in Hn as (t & _ & Hn).
  apply bind_outcome_inv in Hn as (? & _ & Hn).
  cbn in Hn. injection Hn as <- <-. cbn. split; [eauto | reflexivity].
Qed.

Lemma returns_resolveParachainId (dir : string) (c : LaunchConfig) :
  cooperative w →
  is_Some (lc_parachains c) → is_Some (lc_simpleParachains c) →
  returns (resolveParachainId w dir c).
Proof.
  intros Hcoop [ps Hps] [sps Hsps]. unfold resolveParachainId, resolve_with.
  rewrite Hps, Hsps.
  apply returns_bind; [|intros ?; apply returns_ret].
  apply returns_for_of_map. intros p _. apply returns_resolve_parachain_unguarded.
  exact Hcoop.
Qed.

Lemma returns_generateNodeKeys (c : LaunchConfig) :
  cooperative w → is_Some (lc_relaychain c) → returns (generateNodeKeys w c).
Proof.
  intros Hcoop [rc Hrc]. unfold generateNodeKeys. rewrite Hrc.
  apply returns_bind; [|intros ?; apply returns_ret].
  apply returns_for_of_map. intros n _. apply returns_generate_node_key. exact Hcoop.
Qed.

Lemma returns_launch (dir : string) (c : LaunchConfig) (bootnodes : list string)
    (relaychain : RelayChainConfig) (parachains : list ParachainConfig) :
  cooperative w →
  lc_relaychain c = Some relaychain →
  lc_parachains c = Some parachains →
  is_Some (lc_simpleParachains c) →
  rc_nodes relaychain ≠ [] →
  Forall (fun p => is_Some (pc_nodes p)) parachains →
  returns (launch w dir c bootnodes).
Proof.
  intros Hcoop Hrc Hps [sps Hsps] Hne Hnodes.
  unfold launch. rewrite Hrc, Hps, Hsps.
  pose proof (returns_ext w Hcoop) as Hext.
  pose proof (returns_require_file w Hcoop) as Hreq.
  pose proof (returns_generateChainSpec w Hcoop) as Hgen.
  pose proof (returns_generateChainSpecRaw w Hcoop) as Hraw.
  pose proof (returns_disconnect w Hcoop) as Hdis.
  apply returns_bind; [apply Hreq | intros _].
  apply returns_bind; [apply Hgen | intros _].
  apply returns_bind; [apply Hext | intros _].
  apply returns_bind; [apply returns_for_of; intros; apply Hext | intros _].
  apply returns_bind; [destruct (rc_genesis relaychain); [apply Hext | apply returns_ret]
                      | intros _].
  apply returns_bind; [apply returns_addParachainsToGenesis; exact Hcoop | intros _].
  apply returns_bind; [|intros _].
  { destruct (lc_hrmpChannels c); [|apply returns_ret].
    unfold addHrmpChannelsToGenesis. apply returns_for_of; intros; apply Hext. }
  apply returns_bind; [apply Hext | intros _].
  apply returns_bind; [apply Hraw | intros _].
  apply returns_bind; [apply returns_for_of; intros; apply returns_startNode | intros _].
  apply returns_bind; [|intros _].
  { unfold connect_relay, first_wsPort.
    destruct (rc_nodes relaychain) as [|node nodes]; [contradiction|].
    apply returns_bind; [apply returns_ret | intros ?].
    apply returns_bind; [apply returns_loadTypeDef; exact Hcoop | intros _].
    apply returns_connect. exact Hcoop. }
  apply returns_bind; [|intros _].
  { apply returns_for_of. intros p Hp. apply returns_launch_parachain; [exact Hcoop|].
    rewrite Forall_forall in Hnodes. apply Hnodes. exact Hp. }
  apply returns_bind; [|intros _; apply Hdis].
  apply returns_for_of. intros p _. apply returns_launch_simple_parachain. exact Hcoop.
Qed.

Lemma resolve_simple_Forall2 (simpleParachains : list SimpleParachainConfig) :
  Forall2 (fun sp sp' => sp_resolvedId sp' = Some (sp_id sp)
                         ∧ sp' = set_simple_resolvedId sp (Some (sp_id sp)))
    simpleParachains (map resolve_simple simpleParachains).
Proof.
  induction simpleParachains as [|sp sps IH]; cbn [map]; constructor; [|exact IH].
  split; reflexivity.
Qed.

(** C9: [run] returns [null] exactly when the configuration check fails,
    and then it has performed no effect (no spec generated, no process
    started); when it returns anything else, that is the checked
    configuration with a resolved id in every parachain, its own id as
    resolved id in every simple parachain, and a node key in every relay
    node; and in a world where nothing goes wrong (every awaited operation
    completes, every file exists, can be read and parses) it does return
    that plan whenever the check passes. *)
Theorem run_returns_null_iff_check_fails (dir : string) (raw : option LaunchConfig)
    (s : State) :
  let r := run w dir raw s in
  (outcome r = Returned None ↔ fst (checkConfig w raw None false) = false)
  ∧ (fst (checkConfig w raw None false) = false →
       events r = [] ∧ st_procs (final r) = st_procs s)
  ∧ (∀ plan, outcome r = Returned (Some plan) →
       ∃ checked, snd (checkConfig w raw None false) = Some checked
                  ∧ resolved_plan checked plan)
  ∧ (cooperative w → fst (checkConfig w raw None false) = true →
       ∃ plan, outcome r = Returned (Some plan)).
Proof.
  intros r. subst r. split; [|split; [|split]].
  - split.
    + intros H. destruct (fst (checkConfig w raw None false)) eqn:E; [|reflexivity].
      exfalso. exact (run_check_passed w dir raw s E H).
    + intros H. rewrite (run_check_failed w dir raw s H). reflexivity.
  - intros H. rewrite (run_check_failed w dir raw s H). auto.
  - intros plan H.
    destruct (fst (checkConfig w raw None false)) eqn:E.
    2:{ rewrite (run_check_failed w dir raw s E) in H. discriminate. }
    destruct (checkConfig_true w raw None false E)
      as (c & rc & ps & -> & Hrc & Hps & Hlt & Hnodes & Hsnd).
    unfold run in H. destruct (checkConfig w (Some c) None false) as [ok checked].
    cbn in E, Hsnd. subst ok checked.
    apply bind_outcome_inv in H as ([] & _ & H). cbn [final set_registered ret] in H.
    apply bind_outcome_inv in H as (config & Hconfig & H).
    apply bind_outcome_inv in H as ([config' bootnodes] & Hkeyed & H).
    apply bind_outcome_inv in H as ([] & _ & H).
    cbn in H. injection H as <-.
    apply resolveParachainId_post in Hconfig as (ps0 & sps & ps' & Hps0 & Hsps & -> & Hall).
    apply generateNodeKeys_post in Hkeyed as (rc0 & nodes' & Hrc0 & -> & Hkeys).
    eexists. split; [reflexivity|].
    exists rc0, ps0, sps, nodes', ps', (map resolve_simple sps). cbn in Hrc0.
    split; [exact Hrc0 | split; [exact Hps0 | split; [exact Hsps | split; [reflexivity|]]]].
    split; [exact Hall | split; [apply resolve_simple_Forall2 | exact Hkeys]].
  - intros Hcoop E.
    destruct (checkConfig_true w raw None false E)
      as (c & rc & ps & -> & Hrc & Hps & Hlt & Hnodes & Hsnd).
    unfold run. destruct (checkConfig w (Some c) None false) as [ok checked].
    cbn in E, Hsnd. subst ok checked.
    set (checked := set_simpleParachains c (Some (default [] (lc_simpleParachains c)))).
    assert (Hret : returns
      (config <- resolveParachainId w dir checked;;
       keyed <- generateNodeKeys w config;;
       (let '(config0, bootnodes) := keyed in
        launch w dir config0 bootnodes;; ret (Some config0)))).
    { apply (returns_bind_post (fun config =>
        ∃ ps', config = set_simpleParachains (set_parachains checked (Some ps'))
                 (Some (map resolve_simple (default [] (lc_simpleParachains c))))
               ∧ Forall (fun p => is_Some (pc_nodes p)) ps')).
      - apply returns_resolveParachainId; [exact Hcoop | |]; cbn; eauto.
      - intros s0 config Hconfig.
        apply resolveParachainId_post in Hconfig
          as (ps0 & sps & ps' & Hps0 & Hsps & -> & Hall).
        cbn in Hps0, Hsps. rewrite Hps in Hps0. injection Hps0 as <-.
        injection Hsps as <-. exists ps'. split; [reflexivity|].
        clear -Hall Hnodes. induction Hall as [|p p' ps ps' [_ Hp] _ IH]; [constructor|].
        inversion Hnodes; subst. constructor; [|apply IH; assumption].
        rewrite Hp. cbn. assumption.
      - intros config (ps' & -> & Hnodes').
        apply (returns_bind_post (fun keyed : LaunchConfig * list string =>
          ∃ nodes', fst keyed = set_relaychain
                      (set_simpleParachains (set_parachains checked (Some ps'))
                         (Some (map resolve_simple (default [] (lc_simpleParachains c)))))
                      (Some (set_nodes rc nodes'))
                    ∧ length nodes' = length (rc_nodes rc))).
        + apply returns_generateNodeKeys; [exact Hcoop|]. cbn. eauto.
        + intros s0 [config' bootnodes] Hkeyed.
          apply generateNodeKeys_post in Hkeyed as (rc0 & nodes' & Hrc0 & -> & Hkeys).
          cbn in Hrc0. rewrite Hrc in Hrc0. injection Hrc0 as <-.
          exists nodes'. split; [reflexivity|].
          symmetry. eapply Forall2_length. exact Hkeys.
        + intros [config' bootnodes] (nodes' & Hc' & Hlen). cbn in Hc'. subst config'.
          apply returns_bind; [|intros _; apply returns_ret].
          eapply returns_launch; try exact Hcoop; cbn; eauto.
          intros Hnil. cbn in Hnil. subst nodes'. cbn in Hlen.
          destruct (rc_nodes rc); [cbn in Hlt; lia | discriminate]. }
    destruct (Hret {| st_time := st_time s; st_registered := ∅; st_procs := st_procs s |})
      as [plan Hplan].
    rewrite (bind_Returned _ _ _ tt) by reflexivity. cbn [outcome final set_registered ret].
    destruct plan as [plan|]; [exists plan; exact Hplan|].
    exfalso.
    apply bind_outcome_inv in Hplan as (config & _ & Hplan).
    apply bind_outcome_inv in Hplan as ([config' bootnodes] & _ & Hplan).
    apply bind_outcome_inv in Hplan as ([] & _ & Hplan). discriminate.
Qed.

End Run.

(** ** Genesis registration *)

Lemma bind_assoc {A B C} (m : M A) (k : A → M B) (h : B → M C) (s : State) :
  bind (bind m k) h s = bind m (fun a => bind (k a) h) s.
Proof.
  unfold bind. destruct (outcome (m s)) as [a| | |]; cbn [outcome events final abort];
    try reflexivity.
  destruct (outcome (k a (final (m s)))) as [b| | |]; cbn [outcome events final abort];
    try reflexivity.
  rewrite (assoc_L (++)). reflexivity.
Qed.

Lemma bind_ext {A B} (m : M A) (k k' : A → M B) (s : State) :
  (∀ a s', k a s' = k' a s') → bind m k s = bind m k' s.
Proof.
  intros H. unfold bind. destruct (outcome (m s)); try reflexivity. rewrite H. reflexivity.
Qed.

Lemma for_of_app {A} (xs ys : list A) (body : A → M unit) (s : State) :
  for_of (xs ++ ys) body s = (for_of xs body;; for_of ys body) s.
Proof.
  revert s. induction xs as [|x xs IH]; intros s.
  - cbn [app for_of]. rewrite bind_ret_l. reflexivity.
  - cbn [app for_of]. rewrite bind_assoc. apply bind_ext. intros _ s'. apply IH.
Qed.

Lemma registrations_app (evs1 evs2 : list Event) (id : string) :
  registrations (evs1 ++ evs2) id = (registrations evs1 id + registrations evs2 id)%nat.
Proof. unfold registrations. rewrite List.filter_app, length_app. reflexivity. Qed.

Lemma is_registered_insert (registered : gmap string bool) (k k' : string) :
  is_registered (<[k := true]> registered) k'
  = String.eqb k k' || is_registered registered k'.
Proof.
  unfold is_registered. destruct (String.eqb_spec k k') as [->|Hne].
  - rewrite lookup_insert_eq. reflexivity.
  - rewrite lookup_insert_ne by exact Hne. reflexivity.
Qed.

Section Genesis.

Variable w : World.

Lemma add_parachain_to_genesis_unfold (dir spec : string) (e : GenesisParachain) (s : State) :
  add_parachain_to_genesis w dir spec e s
  = if w_existsSync w (w_resolve w dir (gp_bin e)) then
      if is_registered (st_registered s) (js_key (gp_resolvedId e)) then ret tt s
      else
        (genesis <- genesis_exports w (w_resolve w dir (gp_bin e)) e;;
         addGenesisParachain w spec (gp_resolvedId e) (fst genesis) (snd genesis) true;;
         registered <- get_registered;;
         set_registered (<[js_key (gp_resolvedId e) := true]> registered)) s
    else exit 0 s.
Proof.
  unfold add_parachain_to_genesis, require_file. cbn zeta.
  destruct (w_existsSync w (w_resolve w dir (gp_bin e))); [|reflexivity].
  rewrite bind_ret_l. rewrite (bind_pure _ _ _ (st_registered s)) by reflexivity.
  cbn beta.
  destruct (is_registered (st_registered s) (js_key (gp_resolvedId e))); cbn [negb];
    [reflexivity|].
  apply bind_ext. intros [genesisState genesisWasm] s'. reflexivity.
Qed.

Lemma genesis_exports_spec (bin : string) (e : GenesisParachain) (s : State) :
  (∀ id, registrations (events (genesis_exports w bin e s)) id = 0%nat)
  ∧ st_registered (final (genesis_exports w bin e s)) = st_registered s.
Proof.
  unfold genesis_exports. destruct (gp_prepopulated e); [split; reflexivity|].
  unfold try_or_exit, exportGenesisState, exportGenesisWasm, bind, emit, ret, throw, stop.
  cbn.
  destruct (w_exportGenesisState w _ _); cbn;
    [destruct (w_exportGenesisWasm w _ _); cbn|]; split; reflexivity.
Qed.

(** One entry of the list of paras: what it writes, whatever happens, and
    what it leaves when it returns. *)
Lemma add_parachain_to_genesis_spec (dir spec : string) (e : GenesisParachain) (s : State) :
  let r := add_parachain_to_genesis w dir spec e s in
  let key := js_key (gp_resolvedId e) in
  (∀ id, (registrations (events r) id
          ≤ if String.eqb key id && negb (is_registered (st_registered s) key)
            then 1 else 0)%nat)
  ∧ (outcome r = Returned tt →
       (∀ id, registrations (events r) id
              = if String.eqb key id && negb (is_registered (st_registered s) key)
                then 1%nat else 0%nat)
       ∧ (∀ id, is_registered (st_registered (final r)) id
                = String.eqb key id || is_registered (st_registered s) id)).
Proof.
  cbn zeta. rewrite add_parachain_to_genesis_unfold.
  destruct (w_existsSync w (w_resolve w dir (gp_bin e))).
  2:{ cbn. split; [intros; lia | discriminate]. }
  destruct (is_registered (st_registered s) (js_key (gp_resolvedId e))) eqn:Hreg; cbn [negb].
  { cbn. split; [intros; rewrite andb_false_r; lia|]. intros _. split.
    - intros id. rewrite andb_false_r. reflexivity.
    - intros id. destruct (String.eqb_spec (js_key (gp_resolvedId e)) id) as [<-|];
        [rewrite Hreg|]; reflexivity. }
  destruct (genesis_exports_spec (w_resolve w dir (gp_bin e)) e s) as [Hev Hfin].
  destruct (outcome (genesis_exports w (w_resolve w dir (gp_bin e)) e s))
    as [genesis| | |] eqn:Hout.
  2-4: rewrite bind_not_Returned by (rewrite Hout; discriminate);
       rewrite Hout; cbn [outcome events final abort];
       (split; [intros; rewrite Hev; lia | discriminate]).
  rewrite (bind_Returned _ _ _ _ Hout).
  unfold addGenesisParachain, ext, now, get_registered, set_registered, bind, emit, ret,
    throw, hang, stop.
  cbn [outcome events final st_time st_registered st_procs].
  destruct (w_ext w (st_time (final (genesis_exports w (w_resolve w dir (gp_bin e)) e s))));
    cbn [outcome events final abort st_time st_registered st_procs app].
  - split.
    + intros id. rewrite registrations_app, Hev. unfold registrations. cbn.
      rewrite andb_true_r. destruct (String.eqb _ id); cbn; lia.
    + intros _. split.
      * intros id. rewrite registrations_app, Hev. unfold registrations. cbn.
        rewrite andb_true_r. destruct (String.eqb _ id); reflexivity.
      * intros id. rewrite Hfin. apply is_registered_insert.
  - split; [|discriminate].
    intros id. rewrite registrations_app, Hev. unfold registrations. cbn.
    rewrite andb_true_r. destruct (String.eqb _ id); cbn; lia.
  - split; [|discriminate].
    intros id. rewrite registrations_app, Hev. unfold registrations. cbn.
    rewrite andb_true_r. destruct (String.eqb _ id); cbn; lia.
Qed.

End Genesis.

Section GenesisLoop.

Variable w : World.

(** The loop over the list of paras, from any state: an id is written at
    most once, and not at all when it is registered already; when the loop
    returns, the ids written are those of the list that were not
    registered, and all of them are registered. *)
Lemma genesis_loop_spec (dir spec : string) (paras : list GenesisParachain) (s : State) :
  let r := for_of paras (add_parachain_to_genesis w dir spec) s in
  (∀ id, (registrations (events r) id
          ≤ if is_registered (st_registered s) id then 0 else 1)%nat)
  ∧ (outcome r = Returned tt →
       (∀ id, registrations (events r) id
              = if has_para paras id && negb (is_registered (st_registered s) id)
                then 1%nat else 0%nat)
       ∧ (∀ id, is_registered (st_registered (final r)) id
                = has_para paras id || is_registered (st_registered s) id)).
Proof.
  revert s. induction paras as [|e paras IH]; intros s; cbn zeta.
  { cbn. split; [intros id; destruct (is_registered _ id); lia|].
    intros _. split; reflexivity. }
  cbn [for_of].
  assert (Hcons : ∀ id, has_para (e :: paras) id
                        = String.eqb (js_key (gp_resolvedId e)) id || has_para paras id)
    by reflexivity.
  destruct (add_parachain_to_genesis_spec w dir spec e s) as [Hle Hret]. cbn zeta in Hle, Hret.
  set (key := js_key (gp_resolvedId e)) in *.
  set (r1 := add_parachain_to_genesis w dir spec e s) in *.
  destruct (outcome r1) as [[]| | |] eqn:Hout.
  2-4: rewrite bind_not_Returned by (fold r1; rewrite Hout; discriminate);
       fold r1; rewrite Hout; cbn [outcome events final abort];
       (split; [|discriminate]); intros id; specialize (Hle id);
       destruct (String.eqb_spec key id) as [Heq|Hne]; [subst id|];
       destruct (is_registered (st_registered s) key) eqn:Hk; cbn in Hle;
       try (destruct (is_registered (st_registered s) id)); lia.
  rewrite (bind_Returned _ _ _ _ Hout). fold r1. cbn [outcome events final].
  destruct (Hret eq_refl) as [Hcount Hreg]. clear Hret Hle.
  destruct (IH (final r1)) as [IHle IHret].
  cbn zeta in IHle, IHret.
  set (r2 := for_of paras (add_parachain_to_genesis w dir spec) (final r1)) in *.
  split.
  - intros id. rewrite registrations_app, Hcount. specialize (IHle id).
    rewrite Hreg in IHle.
    destruct (String.eqb_spec key id) as [Heq|Hne]; [subst id|];
      destruct (is_registered (st_registered s) key) eqn:Hk; cbn in IHle |- *;
      try (destruct (is_registered (st_registered s) id)); lia.
  - intros H. destruct (IHret H) as [IHcount IHreg]. split.
    + intros id. rewrite registrations_app, Hcount, IHcount, Hreg, Hcons.
      destruct (String.eqb_spec key id) as [Heq|Hne]; [subst id|];
        destruct (is_registered (st_registered s) key) eqn:Hk; cbn [negb andb orb Nat.add];
        try (destruct (is_registered (st_registered s) id));
        destruct (has_para paras _); cbn [negb andb orb Nat.add]; reflexivity.
    + intros id. rewrite IHreg, Hreg, Hcons.
      destruct (String.eqb_spec key id) as [Heq|Hne]; [subst id|];
        destruct (is_registered (st_registered s) key) eqn:Hk; cbn [negb andb orb Nat.add];
        try (destruct (is_registered (st_registered s) id));
        destruct (has_para paras _); cbn [negb andb orb Nat.add]; reflexivity.
Qed.

Lemma has_para_elem_of (paras : list GenesisParachain) (e : GenesisParachain) :
  e ∈ paras → has_para paras (js_key (gp_resolvedId e)) = true.
Proof.
  intros H. unfold has_para. apply existsb_exists. exists e. split.
  - apply list_elem_of_In. exact H.
  - apply String.eqb_refl.
Qed.

Lemma is_registered_empty (id : string) : is_registered ∅ id = inherited id.
Proof. unfold is_registered. rewrite lookup_empty. reflexivity. Qed.

(** The loop entered with nothing registered: once the entries up to the
    first one that carries an id are processed, the id is registered and
    has its one entry, and the rest of the loop writes none for it. *)
Lemma genesis_first_entry (dir spec : string) (first rest : list GenesisParachain)
    (e : GenesisParachain) (s : State) :
  st_registered s = ∅ → e ∈ first → inherited (js_key (gp_resolvedId e)) = false →
  let body := add_parachain_to_genesis w dir spec in
  let r1 := for_of first body s in
  outcome r1 = Returned tt →
  is_registered (st_registered (final r1)) (js_key (gp_resolvedId e)) = true
  ∧ registrations (events r1) (js_key (gp_resolvedId e)) = 1%nat
  ∧ registrations (events (for_of rest body (final r1))) (js_key (gp_resolvedId e)) = 0%nat.
Proof.
  intros Hempty Hin Hown body r1 H1.
  destruct (genesis_loop_spec dir spec first s) as [_ Hret1].
  cbn zeta in Hret1. fold body in Hret1. rewrite Hempty in Hret1.
  destruct (Hret1 H1) as [Hcount1 Hreg1]. fold r1 in Hcount1, Hreg1.
  rewrite Hcount1, Hreg1, (has_para_elem_of _ e Hin), is_registered_empty, Hown.
  split; [reflexivity | split; [reflexivity|]].
  destruct (genesis_loop_spec dir spec rest (final r1)) as [Hle2 _].
  cbn zeta in Hle2. fold body in Hle2.
  specialize (Hle2 (js_key (gp_resolvedId e))).
  rewrite Hreg1, (has_para_elem_of _ e Hin) in Hle2. cbn in Hle2. lia.
Qed.

(** C1: starting from an empty [registeredParachains], as [run] leaves it,
    [addParachainsToGenesis] writes at most one registration entry for any
    id, whatever happens, and none at all for an id that is a name every
    object inherits (["constructor"], ["toString"], ...), which
    [registeredParachains] reads as registered from the start.  When the
    function returns, the id of every full parachain and of every simple
    parachain that is not such a name has exactly one registration entry,
    however many entries share it, and is in [registeredParachains].  The
    full parachains are processed first, then the simple ones, each group
    in the order of the list; the id is registered, with its one entry
    written, as soon as the first entry that carries it has been
    processed, and what follows writes no entry for it.  In a world where
    nothing goes wrong the function does return. *)
Theorem addParachainsToGenesis_registers_once (dir spec : string)
    (parachains : list ParachainConfig) (simpleParachains : list SimpleParachainConfig)
    (s : State) :
  st_registered s = ∅ →
  let add := addParachainsToGenesis w dir spec in
  let r := add parachains simpleParachains s in
  (∀ id, (registrations (events r) id ≤ 1)%nat)
  ∧ (∀ id, inherited id = true → registrations (events r) id = 0%nat)
  ∧ (outcome r = Returned tt →
       (∀ p, p ∈ parachains →
          let id := js_key (pc_resolvedId p) in
          inherited id = false →
          registrations (events r) id = 1%nat
          ∧ is_registered (st_registered (final r)) id = true)
       ∧ (∀ sp, sp ∈ simpleParachains →
            let id := js_key (sp_resolvedId sp) in
            inherited id = false →
            registrations (events r) id = 1%nat
            ∧ is_registered (st_registered (final r)) id = true))
  ∧ (∀ before p after, parachains = (before ++ p :: after)%list →
       let id := js_key (pc_resolvedId p) in
       let r1 := add (before ++ [p])%list [] s in
       r = (add (before ++ [p])%list [];; add after simpleParachains) s
       ∧ (inherited id = false → outcome r1 = Returned tt →
            is_registered (st_registered (final r1)) id = true
            ∧ registrations (events r1) id = 1%nat
            ∧ registrations (events (add after simpleParachains (final r1))) id = 0%nat))
  ∧ (∀ before sp after, simpleParachains = (before ++ sp :: after)%list →
       let id := js_key (sp_resolvedId sp) in
       let r1 := add parachains (before ++ [sp])%list s in
       r = (add parachains (before ++ [sp])%list;; add [] after) s
       ∧ (inherited id = false → outcome r1 = Returned tt →
            is_registered (st_registered (final r1)) id = true
            ∧ registrations (events r1) id = 1%nat
            ∧ registrations (events (add [] after (final r1))) id = 0%nat))
  ∧ (cooperative w → outcome r = Returned tt).
Proof.
  intros Hempty add r. subst r add. unfold addParachainsToGenesis.
  set (body := add_parachain_to_genesis w dir spec).
  destruct (genesis_loop_spec dir spec (genesis_paras parachains simpleParachains) s)
    as [Hle Hret].
  cbn zeta in Hle, Hret. fold body in Hle, Hret. rewrite Hempty in Hle, Hret.
  split; [|split; [|split; [|split; [|split]]]].
  - intros id. specialize (Hle id). rewrite is_registered_empty in Hle.
    destruct (inherited id); lia.
  - intros id Hid. specialize (Hle id). rewrite is_registered_empty, Hid in Hle. lia.
  - intros H. destruct (Hret H) as [Hcount Hreg]. split.
    + intros p Hp. cbn zeta. intros Hown.
      assert (Hin : genesis_of_parachain p ∈ genesis_paras parachains simpleParachains).
      { unfold genesis_paras. apply elem_of_app. left.
        apply list_elem_of_fmap. exists p. split; [reflexivity | exact Hp]. }
      apply has_para_elem_of in Hin. cbn [genesis_of_parachain gp_resolvedId] in Hin.
      rewrite Hcount, Hreg, Hin, is_registered_empty, Hown. split; reflexivity.
    + intros sp Hsp. cbn zeta. intros Hown.
      assert (Hin : genesis_of_simple sp ∈ genesis_paras parachains simpleParachains).
      { unfold genesis_paras. apply elem_of_app. right.
        apply list_elem_of_fmap. exists sp. split; [reflexivity | exact Hsp]. }
      apply has_para_elem_of in Hin. cbn [genesis_of_simple gp_resolvedId] in Hin.
      rewrite Hcount, Hreg, Hin, is_registered_empty, Hown. split; reflexivity.
  - intros before p after Hsplit. cbn zeta. split.
    + rewrite <- for_of_app. f_equal. subst parachains. unfold genesis_paras.
      cbn [map app]. rewrite !map_app, app_nil_r. cbn [map].
      rewrite <- !(assoc_L (++)). reflexivity.
    + intros Hown H1.
      apply (genesis_first_entry dir spec
               (genesis_paras (before ++ [p]) []) (genesis_paras after simpleParachains)
               (genesis_of_parachain p) s Hempty); [|exact Hown | exact H1].
      unfold genesis_paras. apply elem_of_app. left.
      apply list_elem_of_fmap. exists p. split; [reflexivity|].
      apply elem_of_app. right. constructor.
  - intros before sp after Hsplit. cbn zeta. split.
    + rewrite <- for_of_app. f_equal. subst simpleParachains. unfold genesis_paras.
      cbn [map app]. rewrite !map_app. cbn [map].
      rewrite <- !(assoc_L (++)). reflexivity.
    + intros Hown H1.
      apply (genesis_first_entry dir spec
               (genesis_paras parachains (before ++ [sp])) (genesis_paras [] after)
               (genesis_of_simple sp) s Hempty); [|exact Hown | exact H1].
      unfold genesis_paras. apply elem_of_app. right.
      apply list_elem_of_fmap. exists sp. split; [reflexivity|].
      apply elem_of_app. right. constructor.
  - intros Hcoop.
    destruct (returns_for_of (genesis_paras parachains simpleParachains) body
                (fun x _ => returns_add_parachain_to_genesis w Hcoop dir spec x) s)
      as [[] H].
    exact H.
Qed.

End GenesisLoop.

(** ** Order of submissions *)

Lemma app_split_at {A} (l1 l2 k1 k2 : list A) (x : A) :
  (l1 ++ l2 = k1 ++ x :: k2)%list → x ∉ l1 → ∃ k1', k1 = (l1 ++ k1')%list.
Proof.
  revert k1. induction l1 as [|y l1 IH]; intros k1 H Hx.
  - exists k1. reflexivity.
  - destruct k1 as [|z k1]; cbn in H.
    + injection H as -> _. exfalso. apply Hx. left.
    + injection H as -> H. destruct (IH k1 H) as [k1' ->].
      * intros Hin. apply Hx. right. exact Hin.
      * exists k1'. reflexivity.
Qed.

Section Submissions.

Variable w : World.

(** What [executeTransaction] performs: the nonce query, the submission
    unless the query failed, and the inclusion when the promise resolves. *)
Lemma executeTransaction_events (tx : Tx) (finalization : bool) (s : State) :
  let r := executeTransaction w tx finalization s in
  (outcome r = Returned tt ∧ events r = [EQueryNonce; ESubmit tx; EIncluded tx])
  ∨ (outcome r ≠ Returned tt
     ∧ (events r = [EQueryNonce] ∨ events r = [EQueryNonce; ESubmit tx])).
Proof.
  unfold executeTransaction, bind, now, emit, ret, throw, hang, stop. cbn.
  destruct (w_ext w (st_time s)); cbn.
  - destruct (settle finalization _) as [[|]|]; cbn.
    + left. split; reflexivity.
    + right. split; [discriminate | right; reflexivity].
    + right. split; [discriminate | right; reflexivity].
  - right. split; [discriminate | left; reflexivity].
  - right. split; [discriminate | left; reflexivity].
Qed.

(** The effects of starting the collators of a parachain, one after the
    other: only starts and readiness, and the readiness of every node once
    the loop has returned. *)
Lemma start_collators_events (bin : string) (options : ParachainNodeConfig → CollatorOptions)
    (nodes : list ParachainNodeConfig) (s : State) :
  let r := for_of nodes (fun node =>
             startCollator w bin (pn_wsPort node) (pn_rpcPort node) (pn_port node)
               (options node)) s in
  (∀ tx, ESubmit tx ∉ events r)
  ∧ (outcome r = Returned tt →
       ∀ node, node ∈ nodes → ECollatorReady (pn_wsPort node) ∈ events r).
Proof.
  revert s. induction nodes as [|node nodes IH]; intros s; cbn zeta.
  { cbn. split; [intros tx H; inversion H | intros _ node H; inversion H]. }
  cbn [for_of].
  set (start := startCollator w bin (pn_wsPort node) (pn_rpcPort node) (pn_port node)
                  (options node)).
  assert (Hstart :
    (outcome (start s) = Returned tt
     ∧ events (start s) = [EStartCollator bin (pn_wsPort node) (pn_rpcPort node)
                             (pn_port node) (options node);
                           ECollatorReady (pn_wsPort node)])
    ∨ (outcome (start s) = Pending
       ∧ events (start s) = [EStartCollator bin (pn_wsPort node) (pn_rpcPort node)
                               (pn_port node) (options node)])).
  { subst start. unfold startCollator, spawn, bind, now, get_procs, set_procs, emit, ret,
      hang, stop. cbn.
    destruct (w_ext w (st_time s)); cbn; [left | right | right]; split; reflexivity. }
  destruct Hstart as [[Hout Hev]|[Hout Hev]].
  - rewrite (bind_Returned _ _ _ _ Hout). cbn [outcome events final].
    destruct (IH (final (start s))) as [IHno IHready]. cbn zeta in IHno, IHready.
    rewrite Hev. split.
    + intros tx H. apply elem_of_app in H as [H|H]; [|exact (IHno tx H)].
      repeat (apply elem_of_cons in H as [H|H]; [discriminate|]). inversion H.
    + intros H node' Hin. apply elem_of_cons in Hin as [->|Hin].
      * apply elem_of_app. left. right. left.
      * apply elem_of_app. right. exact (IHready H node' Hin).
  - rewrite bind_not_Returned by (rewrite Hout; discriminate).
    rewrite Hout, Hev. cbn [outcome events final abort]. split; [|discriminate].
    intros tx H. repeat (apply elem_of_cons in H as [H|H]; [discriminate|]). inversion H.
Qed.

(** Splitting a short list of effects at one of them. *)
Ltac split_events H :=
  repeat match type of H with
         | [] = (?l ++ _ :: _)%list => destruct l; discriminate H
         | (_ :: _) = (?l ++ _ :: _)%list =>
             destruct l; cbn in H;
             [ first [discriminate H | injection H as H]
             | injection H as ? H; subst ]
         end.

(** C8: in the launch of one parachain, whenever the balance-seeding
    extrinsic is submitted, every collator node of that parachain was
    started before and its start had completed; and in one parachain
    runtime upgrade, whenever the enacting extrinsic is submitted, the
    authorizing extrinsic was submitted and then included before it, with
    nothing else submitted in between. *)
Theorem balance_after_start_and_authorize_before_enact :
  (∀ dir spec only_one finalization parachain s nodes node who value,
     pc_nodes parachain = Some nodes → node ∈ nodes →
     precedes (ECollatorReady (pn_wsPort node)) (ESubmit (TxSetBalance who value))
       (events (launch_parachain w dir spec only_one finalization parachain s)))
  ∧ (∀ wasm finalization s code l1 l2,
       events (upgradeParachainRuntime w wasm finalization s)
       = (l1 ++ ESubmit (TxEnactAuthorizedUpgrade code) :: l2)%list →
       ∃ codeHash,
         l1 = [EQueryNonce; ESubmit (TxAuthorizeUpgrade codeHash);
               EIncluded (TxAuthorizeUpgrade codeHash); EQueryNonce]).
Proof.
  split.
  - intros dir spec only_one finalization parachain s nodes node who value Hnodes Hin l1 l2.
    unfold launch_parachain, require_file, nodes_of. cbn zeta. rewrite Hnodes.
    destruct (w_existsSync w _).
    2:{ cbn. intros H. destruct l1; discriminate. }
    rewrite bind_ret_l, bind_ret_l.
    set (bin := w_resolve w dir (pc_bin parachain)).
    set (options := fun node : ParachainNodeConfig =>
           {| co_name := pn_name node; co_relaySpec := spec; co_spec := pc_chain parachain;
              co_flags := pn_flags node; co_basePath := pn_basePath node;
              co_onlyOneParachainNode := only_one |}).
    destruct (start_collators_events bin options nodes s) as [Hno Hready].
    cbn zeta in Hno, Hready.
    set (starts := for_of nodes _) in *.
    destruct (outcome (starts s)) as [[]| | |] eqn:Hout.
    2-4: rewrite bind_not_Returned by (rewrite Hout; discriminate);
         cbn [events]; intros H; exfalso; apply (Hno (TxSetBalance who value));
         rewrite H; apply elem_of_app; right; left.
    rewrite (bind_Returned _ _ _ _ Hout). cbn [events]. intros H.
    apply app_split_at in H as [l1' ->]; [|apply Hno].
    apply elem_of_app. left. apply Hready; [reflexivity | exact Hin].
  - intros wasm finalization s code l1 l2.
    unfold upgradeParachainRuntime, readFileSync.
    destruct wasm as [path|]; [|cbn; intros H; destruct l1; discriminate].
    destruct (w_readFile w path) as [hex|]; [|cbn; intros H; destruct l1; discriminate].
    rewrite bind_ret_l.
    set (auth := TxAuthorizeUpgrade (w_blake2 w hex)).
    set (enact := TxEnactAuthorizedUpgrade ("0x" +:+ hex)).
    destruct (executeTransaction_events auth finalization s) as [[Hout Hev]|[Hout [Hev|Hev]]];
      cbn zeta in Hout, Hev.
    + rewrite (bind_Returned _ _ _ _ Hout). cbn [events]. rewrite Hev.
      destruct (executeTransaction_events enact false
                  (final (executeTransaction w auth finalization s)))
        as [[_ Hev2]|[_ [Hev2|Hev2]]]; cbn zeta in Hev2; rewrite Hev2; cbn [app];
        intros H; exists (w_blake2 w hex); subst auth enact; split_events H; reflexivity.
    + rewrite bind_not_Returned
        by (intros []; exact Hout).
      cbn [events]. rewrite Hev. intros H. split_events H.
    + rewrite bind_not_Returned
        by (intros []; exact Hout).
      cbn [events]. rewrite Hev. intros H. subst auth. split_events H.
Qed.

End Submissions.

(** ** The relay rolling restart *)

Lemma ceil_div_le (a : Z) : a ≤ 1000 * Z.of_nat (Z.to_nat (ceil_div a 1000)).
Proof.
  unfold ceil_div. pose proof (Z.mul_div_le (- a) 1000). lia.
Qed.

Lemma elapsed_app (l1 l2 : list Event) : elapsed (l1 ++ l2) = elapsed l1 + elapsed l2.
Proof.
  induction l1 as [|e l1 IH]; [reflexivity|]. destruct e; cbn; rewrite ?IH; lia.
Qed.

Lemma stops_app (l1 l2 : list Event) : stops (l1 ++ l2) = (stops l1 + stops l2)%nat.
Proof.
  induction l1 as [|e l1 IH]; [reflexivity|]. destruct e; cbn; rewrite ?IH; lia.
Qed.

Lemma elapsed_delays (n : nat) : elapsed (replicate n (EDelay 1000)) = 1000 * Z.of_nat n.
Proof. induction n as [|n IH]; cbn [replicate elapsed]; lia. Qed.

Lemma stops_delays (n : nat) : stops (replicate n (EDelay 1000)) = O.
Proof. induction n as [|n IH]; cbn; [reflexivity | exact IH]. Qed.

Lemma down_app (l1 l2 : list Event) : down (l1 ++ l2) = fold_left down_step l2 (down l1).
Proof. unfold down. apply fold_left_app. Qed.

Lemma fold_down_delays (n : nat) (d : gset string) :
  fold_left down_step (replicate n (EDelay 1000)) d = d.
Proof. induction n as [|n IH]; cbn; [reflexivity | exact IH]. Qed.

(** With no process stopped, none is down. *)
Lemma fold_down_no_stops (evs : list Event) :
  stops evs = O → fold_left down_step evs ∅ = ∅.
Proof.
  induction evs as [|e evs IH]; [reflexivity|].
  destruct e; cbn [stops fold_left down_step]; try exact IH; try discriminate.
  - rewrite difference_disjoint_L by set_solver. exact IH.
  - rewrite difference_disjoint_L by set_solver. exact IH.
Qed.

(** The last stop of a sequence of effects. *)
Lemma stops_last (evs : list Event) :
  (0 < stops evs)%nat →
  ∃ k1 key k2, evs = (k1 ++ EKill key :: k2)%list ∧ stops k2 = O.
Proof.
  induction evs as [|e evs IH]; cbn [stops]; [lia|]. intros H.
  destruct (stops evs) as [|n] eqn:Hevs.
  - destruct e; cbn [stops] in H; try lia.
    exists [], key, evs. split; [reflexivity | exact Hevs].
  - destruct IH as (k1 & key & k2 & -> & Hk2); [lia|].
    exists (e :: k1), key, k2. split; [reflexivity | exact Hk2].
Qed.

(** A prefix of a sequence of waits is a sequence of waits. *)
Lemma delays_split (n : nat) (l1 l2 : list Event) :
  replicate n (EDelay 1000) = (l1 ++ l2)%list →
  ∃ m, l1 = replicate m (EDelay 1000) ∧ (m ≤ n)%nat.
Proof.
  revert l1. induction n as [|n IH]; intros l1 H.
  - destruct l1; [|discriminate]. exists O. split; [reflexivity | lia].
  - destruct l1 as [|e l1].
    + exists O. split; [reflexivity | lia].
    + cbn in H. injection H as <- H. destruct (IH l1 H) as (m & -> & Hm).
      exists (S m). split; [reflexivity | lia].
Qed.

Lemma countdown_events (i : nat) (s : State) :
  outcome (countdown i s) = Returned tt
  ∧ events (countdown i s) = replicate i (EDelay 1000)
  ∧ st_procs (final (countdown i s)) = st_procs s.
Proof.
  revert s. induction i as [|i IH]; intros s; [repeat split|].
  cbn [countdown]. rewrite (bind_Returned _ _ _ tt) by reflexivity.
  destruct (IH (final (delay 1000 s))) as (Ho & He & Hp).
  cbn [outcome events final]. rewrite Ho, He, Hp. repeat split.
Qed.

Section RollingRestart.

Variable w : World.
Variables bin spec : string.
Variable epoch_time : Z.

Let seconds : nat := Z.to_nat (ceil_div epoch_time 1000).
Let round : RelayNodeConfig → list Event := restart_round bin spec seconds.

(** One round: it runs to its end, or the process to stop is not in the
    table and nothing happens after the wait. *)
Lemma restart_relay_node_events (node : RelayNodeConfig) (s : State) :
  let r := restart_relay_node bin spec epoch_time node s in
  (outcome r = Returned tt ∧ events r = round node)
  ∨ (outcome r = Thrown TypeError ∧ events r = replicate seconds (EDelay 1000)).
Proof.
  cbn zeta. unfold restart_relay_node, waitWithTimer. fold seconds.
  destruct (countdown_events seconds s) as (Ho & He & Hp).
  rewrite (bind_Returned _ _ _ _ Ho). cbn [outcome events final]. rewrite He.
  unfold killProcess, startNode, spawn, get_procs, set_procs, bind, emit, ret, throw, stop.
  cbn [outcome events final st_procs st_time st_registered].
  destruct (st_procs (final (countdown seconds s)) !! key_string (KName (rn_name node)));
    cbn [outcome events final abort app].
  - left. split; reflexivity.
  - right. split; [reflexivity|]. apply app_nil_r.
Qed.

(** The loop: the rounds of the first nodes, run to their end, and perhaps
    the wait of a round that stops there. *)
Lemma rolling_restart_events (nodes : list RelayNodeConfig) (s : State) :
  ∃ (done : list RelayNodeConfig) (rest : list RelayNodeConfig) (extra : nat),
    nodes = (done ++ rest)%list
    ∧ events (for_of nodes (restart_relay_node bin spec epoch_time) s)
      = (flat_map round done ++ replicate extra (EDelay 1000))%list.
Proof.
  revert s. induction nodes as [|node nodes IH]; intros s.
  { exists [], [], O. split; reflexivity. }
  cbn [for_of].
  destruct (restart_relay_node_events node s) as [[Ho He]|[Ho He]]; cbn zeta in Ho, He.
  - rewrite (bind_Returned _ _ _ _ Ho). cbn [events]. rewrite He.
    destruct (IH (final (restart_relay_node bin spec epoch_time node s)))
      as (done & rest & extra & -> & ->).
    exists (node :: done), rest, extra. split; [reflexivity|].
    cbn [flat_map]. rewrite (assoc_L (++)). reflexivity.
  - rewrite bind_not_Returned by (rewrite Ho; discriminate). cbn [events]. rewrite He.
    exists [], (node :: nodes), seconds. split; reflexivity.
Qed.

(** Where a stop sits among rounds that ran to their end. *)
Lemma rounds_split (done : list RelayNodeConfig) (extra : nat) (l1 l2 : list Event)
    (key : Key) :
  (flat_map round done ++ replicate extra (EDelay 1000))%list
  = (l1 ++ EKill key :: l2)%list →
  ∃ node l2',
    done !! stops l1 = Some node
    ∧ key = KName (rn_name node)
    ∧ l2 = EStartNode bin node spec :: l2'
    ∧ elapsed l1 = 1000 * Z.of_nat seconds * Z.of_nat (S (stops l1))
    ∧ down l1 = ∅.
Proof.
  revert l1 l2 key. induction done as [|node done IH]; intros l1 l2 key H.
  { cbn in H. exfalso.
    assert (Hin : EKill key ∈ replicate extra (EDelay 1000))
      by (rewrite H; apply elem_of_app; right; left).
    apply elem_of_replicate in Hin as [Hin _]. discriminate. }
  cbn [flat_map] in H. unfold round at 1, restart_round in H.
  rewrite <- !(assoc_L (++)) in H.
  destruct (app_split_at _ _ _ _ _ H) as [l1' ->].
  { clear. induction seconds; [apply not_elem_of_nil|].
    cbn. apply not_elem_of_cons. split; [discriminate | assumption]. }
  rewrite <- (assoc_L (++)) in H. apply app_inv_head in H.
  rewrite elapsed_app, stops_app, elapsed_delays, stops_delays, down_app.
  unfold down at 1. cbn [fold_left]. rewrite fold_down_delays.
  destruct l1' as [|e l1'].
  - cbn in H. injection H as <- <-. eexists node, _.
    cbn. repeat split. lia.
  - cbn in H. injection H as <- H.
    destruct l1' as [|e l1']; [discriminate|].
    cbn in H. injection H as <- H.
    destruct (IH l1' _ _ H) as (node' & l2' & Hlook & -> & -> & Hel & Hdown).
    exists node', l2'. cbn [stops elapsed Nat.add lookup].
    repeat split.
    + exact Hlook.
    + rewrite Hel. lia.
    + cbn [fold_left down_step key_string].
      rewrite (left_id_L ∅ (∪)), difference_diag_L. exact Hdown.
Qed.

(** At most one process is down after any prefix of rounds. *)
Lemma rounds_down (done : list RelayNodeConfig) (extra : nat) (l1 l2 : list Event) :
  (flat_map round done ++ replicate extra (EDelay 1000))%list = (l1 ++ l2)%list →
  (size (down l1) ≤ 1)%nat.
Proof.
  destruct (stops l1) as [|n] eqn:Hstops.
  - intros _. unfold down. rewrite (fold_down_no_stops l1 Hstops), size_empty. lia.
  - destruct (stops_last l1) as (k1 & key & k2 & -> & Hk2); [lia|].
    rewrite <- (assoc_L (++)). cbn [app]. intros H.
    apply rounds_split in H as (node & l2' & _ & -> & Hl2 & _ & Hdown).
    rewrite down_app. cbn [fold_left down_step key_string]. rewrite Hdown.
    destruct k2 as [|e k2].
    + cbn [fold_left]. rewrite (left_id_L ∅ (∪)), size_singleton. lia.
    + cbn in Hl2. injection Hl2 as -> Hl2. cbn in Hk2.
      cbn [fold_left down_step]. rewrite (left_id_L ∅ (∪)), difference_diag_L.
      rewrite (fold_down_no_stops k2 Hk2), size_empty. lia.
Qed.

End RollingRestart.

(** C4: in the relay rolling restart, run with the epoch time computed as
    epoch length times block time, the stop of the n-th node (the one after
    n-1 earlier stops) comes after waits that add up to at least n times the
    epoch time; the node stopped is the n-th of the list and is started
    again at once, before anything else happens, so that after any prefix of
    the effects at most one process is down; between two stops the waits add
    up to at least the epoch time; and with epoch length 100 and block time
    6000 the epoch time is 600000. *)
Theorem relay_rolling_restart_timing (bin spec : string) (info : RelayInfo)
    (nodes : list RelayNodeConfig) (s : State) :
  let epoch_time := ri_epochLength info * ri_blockTime info in
  let r := for_of nodes (restart_relay_node bin spec epoch_time) s in
  (∀ l1 key l2, events r = (l1 ++ EKill key :: l2)%list →
     epoch_time * Z.of_nat (S (stops l1)) ≤ elapsed l1
     ∧ ∃ node l2', nodes !! stops l1 = Some node
                   ∧ key = KName (rn_name node)
                   ∧ l2 = EStartNode bin node spec :: l2')
  ∧ (∀ l1 l2, events r = (l1 ++ l2)%list → (size (down l1) ≤ 1)%nat)
  ∧ (∀ l1 key1 mid key2 l2,
       events r = (l1 ++ EKill key1 :: mid ++ EKill key2 :: l2)%list →
       epoch_time ≤ elapsed mid)
  ∧ (ri_epochLength info = 100 → ri_blockTime info = 6000 → epoch_time = 600000).
Proof.
  intros epoch_time r.
  destruct (rolling_restart_events bin spec epoch_time nodes s)
    as (done & rest & extra & Hnodes & Hev).
  fold r in Hev. pose proof (ceil_div_le epoch_time) as Hceil.
  split; [|split; [|split]].
  - intros l1 key l2 H. rewrite Hev in H.
    apply rounds_split in H as (node & l2' & Hlook & -> & -> & Hel & _).
    split; [rewrite Hel; nia|].
    exists node, l2'. repeat split.
    rewrite Hnodes. apply lookup_app_l_Some. exact Hlook.
  - intros l1 l2 H. rewrite Hev in H. eapply rounds_down. exact H.
  - intros l1 key1 mid key2 l2 H. rewrite Hev in H.
    pose proof H as H1. apply rounds_split in H1 as (_ & _ & _ & _ & _ & Hel1 & _).
    change (l1 ++ EKill key1 :: mid ++ EKill key2 :: l2)%list
      with (l1 ++ (EKill key1 :: mid) ++ EKill key2 :: l2)%list in H.
    rewrite (assoc_L (++)) in H.
    apply rounds_split in H as (_ & _ & _ & _ & _ & Hel2 & _).
    rewrite elapsed_app, stops_app in Hel2. cbn [elapsed stops] in Hel2. nia.
  - intros H1 H2. subst epoch_time. rewrite H1, H2. reflexivity.
Qed.

(** ** Upgrade sessions *)

Lemma session_le_refl (sess : UpgradeSession) : session_le sess sess.
Proof. left. reflexivity. Qed.

Lemma session_le_trans (a b c : UpgradeSession) :
  session_le a b → session_le b c → session_le a c.
Proof.
  intros [->|[Ha ->]] [->|[Hb ->]].
  - left. reflexivity.
  - right. split; [exact Hb | reflexivity].
  - right. split; [exact Ha | reflexivity].
  - discriminate.
Qed.

Lemma sessions_le_refl (info : gmap string UpgradeSession) : sessions_le info info.
Proof. intros id. destruct (info !! id); [apply session_le_refl | exact I]. Qed.

Lemma sessions_le_trans (a b c : gmap string UpgradeSession) :
  sessions_le a b → sessions_le b c → sessions_le a c.
Proof.
  intros Hab Hbc id. specialize (Hab id). specialize (Hbc id).
  destruct (a !! id), (b !! id), (c !! id); try contradiction; try exact I.
  eapply session_le_trans; eassumption.
Qed.

Lemma updated_mono (info info' : gmap string UpgradeSession) (id : string) :
  sessions_le info info' → updated info id = true → updated info' id = true.
Proof.
  intros Hle. specialize (Hle id). unfold updated.
  destruct (info !! id) as [a|], (info' !! id) as [b|]; try contradiction; try discriminate.
  destruct Hle as [->|[_ ->]]; [trivial | reflexivity].
Qed.

Lemma sessions_le_old_version (info info' : gmap string UpgradeSession) (id : string)
    (sess' : UpgradeSession) :
  sessions_le info info' → info' !! id = Some sess' →
  ∃ sess, info !! id = Some sess ∧ old_version sess = old_version sess'.
Proof.
  intros Hle H. specialize (Hle id). rewrite H in Hle.
  destruct (info !! id) as [a|]; [|contradiction].
  exists a. split; [reflexivity|]. destruct Hle as [->|[_ ->]]; reflexivity.
Qed.

Lemma quiet_app (id : string) (l1 l2 : list Event) :
  quiet id (l1 ++ l2) ↔ quiet id l1 ∧ quiet id l2.
Proof. apply Forall_app. Qed.

Lemma quiet_not_upgraded (id : string) (old new : Z) (evs : list Event) :
  quiet id evs → EReport (ParachainUpgraded id old new) ∉ evs.
Proof.
  intros Hq Hin. unfold quiet in Hq. rewrite Forall_forall in Hq.
  apply (Hq _ Hin). reflexivity.
Qed.

Section Avoids.

Variable P : Event → Prop.

Lemma avoids_ret {A} (a : A) : avoids P (ret a).
Proof. intros s. constructor. Qed.

Lemma avoids_stop {A} (o : Outcome A) : avoids P (stop o).
Proof. intros s. constructor. Qed.

Lemma avoids_bind {A B} (m : M A) (k : A → M B) :
  avoids P m → (∀ a, avoids P (k a)) → avoids P (bind m k).
Proof.
  intros Hm Hk s. unfold bind.
  destruct (outcome (m s)); cbn [events]; try apply Hm.
  apply Forall_app. split; [apply Hm | apply Hk].
Qed.

Lemma avoids_emit (e : Event) : ¬ P e → avoids P (emit e).
Proof. intros H s. constructor; [exact H | constructor]. Qed.

Lemma avoids_now : avoids P now.
Proof. intros s. constructor. Qed.

Lemma avoids_countdown (i : nat) : ¬ P (EDelay 1000) → avoids P (countdown i).
Proof.
  intros H. induction i as [|i IH]; [apply avoids_ret|].
  cbn [countdown]. apply avoids_bind; [|intros _; exact IH].
  apply avoids_emit. exact H.
Qed.

Lemma avoids_waitWithTimer (time : Z) : ¬ P (EDelay 1000) → avoids P (waitWithTimer time).
Proof. apply avoids_countdown. Qed.

Lemma avoids_ext (w : World) (e : Event) : ¬ P e → avoids P (ext w e).
Proof.
  intros H. unfold ext. apply avoids_bind; [apply avoids_now | intros t].
  apply avoids_bind; [apply avoids_emit; exact H | intros _].
  destruct (w_ext w t); [apply avoids_ret | apply avoids_stop | apply avoids_stop].
Qed.

Lemma avoids_connect_typed (w : World) (types : TypesDef) (port : Z) :
  (∀ path, ¬ P (EReadTypeDef path)) → ¬ P (EConnect port) →
  avoids P (connect_typed w types port).
Proof.
  intros Hread Hconnect. unfold connect_typed, loadTypeDef, connect.
  apply avoids_bind; [|intros _].
  - destruct types as [path|]; [|apply avoids_ret].
    apply avoids_bind; [apply avoids_emit; apply Hread | intros _].
    destruct (w_readFile w path); [|apply avoids_stop].
    destruct (w_jsonParses w path); [apply avoids_ret | apply avoids_stop].
  - apply avoids_bind; [apply avoids_ext; exact Hconnect | intros _; apply avoids_ret].
Qed.

Lemma avoids_getSpecVersion (w : World) (api : Z) :
  ¬ P (EGetSpecVersion api) → avoids P (getSpecVersion w api).
Proof.
  intros H. unfold getSpecVersion. apply avoids_bind; [apply avoids_now | intros t].
  apply avoids_bind; [apply avoids_emit; exact H | intros _; apply avoids_ret].
Qed.

Lemma avoids_for_of_fold {A S} (xs : list A) (body : S → A → M S) (acc : S) :
  (∀ acc x, avoids P (body acc x)) → avoids P (for_of_fold xs body acc).
Proof.
  intros H. revert acc. induction xs as [|x xs IH]; intros acc; cbn [for_of_fold].
  - apply avoids_ret.
  - apply avoids_bind; [apply H | intros acc'; apply IH].
Qed.

End Avoids.

Lemma silent_waitWithTimer (time : Z) : silent (waitWithTimer time).
Proof. intros id. apply avoids_waitWithTimer. intros []. Qed.

Lemma silent_connect_typed (w : World) (types : TypesDef) (port : Z) :
  silent (connect_typed w types port).
Proof. intros id. apply avoids_connect_typed; [intros path []| intros []]. Qed.

Lemma silent_getSpecVersion (w : World) (api : Z) : silent (getSpecVersion w api).
Proof. intros id. apply avoids_getSpecVersion. intros []. Qed.

Lemma silent_disconnect (w : World) : silent (disconnect w).
Proof. intros id. apply avoids_ext. intros []. Qed.

Lemma silent_waitForExtraOutput : silent waitForExtraOutput.
Proof. intros id. apply avoids_emit. intros []. Qed.

Section Tracks.

Context {X : Type}.

(** A piece that reports no verdict and hands the table on. *)
Lemma tracks_silent (info : gmap string UpgradeSession)
    (proj : X → option (gmap string UpgradeSession)) (r : Result X) :
  (∀ id, quiet id (events r)) →
  (∀ x info', outcome r = Returned x → proj x = Some info' → info' = info) →
  tracks info proj r.
Proof.
  intros Hq Hproj. split.
  - intros id _. apply Hq.
  - intros id l1 old new l2 H. exfalso.
    apply (quiet_not_upgraded id old new _ (Hq id)). rewrite H.
    apply elem_of_app. right. left.
  - intros id old new H. exfalso. exact (quiet_not_upgraded id old new _ (Hq id) H).
  - intros x info' Hx Hp. rewrite (Hproj x info' Hx Hp). apply sessions_le_refl.
  - intros x info' id old new _ _ H. exfalso.
    exact (quiet_not_upgraded id old new _ (Hq id) H).
  - intros x info' id Hx Hp H1 H2. rewrite (Hproj x info' Hx Hp) in H2. congruence.
Qed.

End Tracks.

(** Pieces run one after the other. *)
Lemma tracks_bind {A B} (info : gmap string UpgradeSession)
    (p1 : A → gmap string UpgradeSession) (p2 : B → option (gmap string UpgradeSession))
    (m : M A) (k : A → M B) (s : State) :
  tracks info (fun a => Some (p1 a)) (m s) →
  (∀ a, outcome (m s) = Returned a → tracks (p1 a) p2 (k a (final (m s)))) →
  tracks info p2 (bind m k s).
Proof.
  intros T1 T2. destruct (outcome (m s)) as [a| | |] eqn:Hout.
  2-4: rewrite bind_not_Returned by (rewrite Hout; discriminate); rewrite Hout;
       split; cbn [outcome events abort];
       [ apply (tracks_quiet _ _ _ T1) | apply (tracks_once _ _ _ T1)
       | apply (tracks_report _ _ _ T1) | discriminate | discriminate | discriminate ].
  specialize (T2 a eq_refl). rewrite (bind_Returned _ _ _ _ Hout).
  pose proof (tracks_le _ _ _ T1 a (p1 a) Hout eq_refl) as Hle1.
  split; cbn [outcome events].
  - intros id Hu. apply quiet_app. split; [apply (tracks_quiet _ _ _ T1 id Hu)|].
    apply (tracks_quiet _ _ _ T2). eapply updated_mono; eassumption.
  - intros id l1 old new l2 H. symmetry in H.
    apply app_eq_app in H as [l [[H1 H2]|[H1 H2]]].
    + apply (tracks_once _ _ _ T2 id l old new l2). exact H2.
    + destruct l as [|e l].
      * cbn in H2. apply (tracks_once _ _ _ T2 id [] old new l2). symmetry. exact H2.
      * cbn in H2. injection H2 as <- ->.
        apply quiet_app. split.
        -- apply (tracks_once _ _ _ T1 id l1 old new l). exact H1.
        -- apply (tracks_quiet _ _ _ T2).
           apply (tracks_marked _ _ _ T1 a (p1 a) id old new Hout eq_refl).
           rewrite H1. apply elem_of_app. right. left.
  - intros id old new H. apply elem_of_app in H as [H|H].
    + apply (tracks_report _ _ _ T1). exact H.
    + destruct (tracks_report _ _ _ T2 id old new H) as (Hne & Hu & sess' & Hs & Hold).
      split; [exact Hne|]. split.
      * destruct (updated info id) eqn:E; [|reflexivity].
        rewrite (updated_mono _ _ _ Hle1 E) in Hu. discriminate.
      * destruct (sessions_le_old_version _ _ _ _ Hle1 Hs) as (sess & Hsess & Hv).
        exists sess. split; [exact Hsess | congruence].
  - intros x info' Hx Hp. eapply sessions_le_trans; [exact Hle1|].
    apply (tracks_le _ _ _ T2 x info' Hx Hp).
  - intros x info' id old new Hx Hp H. apply elem_of_app in H as [H|H].
    + eapply updated_mono; [apply (tracks_le _ _ _ T2 x info' Hx Hp)|].
      apply (tracks_marked _ _ _ T1 a (p1 a) id old new Hout eq_refl H).
    + apply (tracks_marked _ _ _ T2 x info' id old new Hx Hp H).
  - intros x info' id Hx Hp Hu Hu'.
    destruct (updated (p1 a) id) eqn:E.
    + destruct (tracks_flip _ _ _ T1 a (p1 a) id Hout eq_refl Hu E) as (old & new & H).
      exists old, new. apply elem_of_app. left. exact H.
    + destruct (tracks_flip _ _ _ T2 x info' id Hx Hp E Hu') as (old & new & H).
      exists old, new. apply elem_of_app. right. exact H.
Qed.

(** A piece that reports no verdict, before a piece that tracks. *)
Lemma tracks_after_silent {A B} (info : gmap string UpgradeSession)
    (p2 : B → option (gmap string UpgradeSession)) (m : M A) (k : A → M B) (s : State) :
  silent m →
  (∀ a, outcome (m s) = Returned a → tracks info p2 (k a (final (m s)))) →
  tracks info p2 (bind m k s).
Proof.
  intros Hm Hk. apply (tracks_bind info (fun _ => info)); [|exact Hk].
  apply tracks_silent; [intros id; apply (Hm id)|]. intros x info' _ [= <-]. reflexivity.
Qed.

Section Verification.

Variable w : World.
Variable types : TypesDef.

(** A session that is marked as upgraded is skipped: no effect at all. *)
Lemma verify_parachain_skips (failed : bool) (info : gmap string UpgradeSession)
    (parachain : ParachainConfig) (sess : UpgradeSession) (s : State) :
  info !! js_key (pc_resolvedId parachain) = Some sess →
  has_updated sess = true →
  verify_parachain w types (failed, info) parachain s = ret (failed, info) s.
Proof. intros Hs Hu. unfold verify_parachain. rewrite Hs, Hu. reflexivity. Qed.

Lemma tracks_verify_parachain (acc : bool * gmap string UpgradeSession)
    (parachain : ParachainConfig) (s : State) :
  tracks (snd acc) (fun acc' => Some (snd acc')) (verify_parachain w types acc parachain s).
Proof.
  destruct acc as [failed info]. cbn [snd]. unfold verify_parachain.
  set (key := js_key (pc_resolvedId parachain)).
  destruct (info !! key) as [sess|] eqn:Hs.
  2:{ apply tracks_silent; [intros id; constructor | discriminate]. }
  destruct (has_updated sess) eqn:Hu.
  { apply tracks_silent; [intros id; constructor|]. intros x info' [= <-] [= <-]. reflexivity. }
  assert (Hkey : updated info key = false) by (unfold updated; rewrite Hs; exact Hu).
  apply tracks_after_silent; [apply silent_connect_typed | intros api _].
  apply tracks_after_silent; [apply silent_getSpecVersion | intros version _].
  apply tracks_after_silent; [apply silent_disconnect | intros _ _].
  apply tracks_after_silent; [apply silent_waitForExtraOutput | intros _ _].
  destruct (Z.eqb_spec version (old_version sess)) as [Heq|Hne]; cbn [negb].
  - split; cbn [outcome events bind emit ret app].
    + intros id Hid. constructor; [|constructor]. cbn. intros <-. congruence.
    + intros id l1 old new l2 H. destruct l1 as [|e l1].
      * cbn in H. discriminate.
      * cbn in H. injection H as _ H. destruct l1; discriminate.
    + intros id old new H. apply list_elem_of_singleton in H. discriminate.
    + intros x info' [= <-] [= <-]. apply sessions_le_refl.
    + intros x info' id old new _ _ H. apply list_elem_of_singleton in H. discriminate.
    + intros x info' id [= <-] [= <-] Hid Hid'. cbn [snd] in Hid'. congruence.
  - split; cbn [outcome events bind emit ret app].
    + intros id Hid. constructor; [|constructor]. cbn. intros <-. congruence.
    + intros id l1 old new l2 H. destruct l1 as [|e l1].
      * cbn in H. injection H as _ _ _ <-. constructor.
      * cbn in H. injection H as _ H. destruct l1; discriminate.
    + intros id old new H. apply list_elem_of_singleton in H. injection H as -> -> ->.
      split; [congruence|]. split; [exact Hkey|].
      exists sess. split; [exact Hs | reflexivity].
    + intros x info' [= <-] [= <-] id. cbn [snd].
      destruct (decide (key = id)) as [<-|Hid].
      * rewrite Hs, lookup_insert_eq. right. split; [exact Hu | reflexivity].
      * rewrite lookup_insert_ne by exact Hid.
        destruct (info !! id); [apply session_le_refl | exact I].
    + intros x info' id old new [= <-] [= <-] H.
      apply list_elem_of_singleton in H. injection H as -> _ _.
      unfold updated. cbn [snd]. rewrite lookup_insert_eq. reflexivity.
    + intros x info' id [= <-] [= <-] Hid Hid'. cbn [snd] in Hid'.
      destruct (decide (key = id)) as [<-|Hne'].
      * eexists _, _. left.
      * unfold updated in Hid, Hid'. rewrite lookup_insert_ne in Hid' by exact Hne'.
        congruence.
Qed.

(** One pass over the parachains. *)
Lemma tracks_verify_loop (parachains : list ParachainConfig)
    (acc : bool * gmap string UpgradeSession) (s : State) :
  tracks (snd acc) (fun acc' => Some (snd acc'))
    (for_of_fold parachains (verify_parachain w types) acc s).
Proof.
  revert acc s. induction parachains as [|p ps IH]; intros acc s; cbn [for_of_fold].
  - apply tracks_silent; [intros id; constructor|]. intros x info' [= <-] [= <-]. reflexivity.
  - apply (tracks_bind (snd acc) snd); [apply tracks_verify_parachain|].
    intros acc' _. apply IH.
Qed.

Lemma tracks_verify_pass (delay : Z) (parachains : list ParachainConfig)
    (vs : VerifyState) (s : State) :
  tracks (vs_info vs) (fun vs' => Some (vs_info vs'))
    (verify_pass w types delay parachains vs s).
Proof.
  unfold verify_pass. apply tracks_after_silent.
  - intros id. destruct (vs_first_pass vs);
      (apply avoids_bind; [apply avoids_emit; intros [] | intros _]);
      apply silent_waitWithTimer.
  - intros _ _.
    apply (tracks_bind (vs_info vs) snd);
      [apply (tracks_verify_loop parachains (false, vs_info vs))|].
    intros r _. apply tracks_silent; [intros id; constructor|].
    intros x info' [= <-] [= <-]. reflexivity.
Qed.

(** The verification loop. *)
Lemma tracks_while_verify (fuel : nat) (delay : Z) (parachains : list ParachainConfig)
    (vs : VerifyState) (s : State) :
  tracks (vs_info vs) (fmap vs_info)
    (while_loop fuel verify_cond (verify_pass w types delay parachains) vs s).
Proof.
  revert vs s. induction fuel as [|fuel IH]; intros vs s; cbn [while_loop].
  - apply tracks_silent; [intros id; constructor|]. intros x info' [= <-]. discriminate.
  - destruct (verify_cond vs).
    + apply (tracks_bind (vs_info vs) vs_info); [apply tracks_verify_pass|].
      intros vs' _. apply IH.
    + apply tracks_silent; [intros id; constructor|].
      intros x info' [= <-] [= <-]. reflexivity.
Qed.

End Verification.

(** ** The verification loop is bounded *)

Lemma events_bind {A B} (m : M A) (k : A → M B) (s : State) :
  events (bind m k s)
  = (events (m s)
     ++ match outcome (m s) with
        | Returned a => events (k a (final (m s)))
        | _ => []
        end)%list.
Proof.
  unfold bind. destruct (outcome (m s)); cbn [events]; rewrite ?app_nil_r; reflexivity.
Qed.

Lemma bind_Returned_inv {A B} (m : M A) (k : A → M B) (s : State) (b : B) :
  outcome (bind m k s) = Returned b →
  ∃ a, outcome (m s) = Returned a
       ∧ outcome (k a (final (m s))) = Returned b
       ∧ events (bind m k s) = (events (m s) ++ events (k a (final (m s))))%list.
Proof.
  intros H. destruct (bind_outcome_inv _ _ _ _ H) as (a & Ha & Hk).
  exists a. rewrite events_bind, Ha. auto.
Qed.

Lemma passes_app (l1 l2 : list Event) : passes (l1 ++ l2) = (passes l1 + passes l2)%nat.
Proof.
  induction l1 as [|e l1 IH]; [reflexivity|].
  destruct e as [| | | | | | | | | | | | | | | | | | | | | | | | | | | | |r];
    cbn [app passes]; try exact IH.
  destruct r; cbn [passes]; rewrite ?IH; reflexivity.
Qed.

Lemma passes_avoided (evs : list Event) :
  Forall (fun e => ¬ opens_pass e) evs → passes evs = O.
Proof.
  induction 1 as [|e evs He _ IH]; [reflexivity|].
  destruct e as [| | | | | | | | | | | | | | | | | | | | | | | | | | | | |r];
    cbn [passes]; try exact IH.
  destruct r; try exact IH; exfalso; apply He; [left | right]; reflexivity.
Qed.

Section Bounded.

Variable w : World.
Variable types : TypesDef.

Lemma opens_pass_not (e : Event) :
  match e with
  | EReport WaitingCodeValidationDelay | EReport WaitingFewBlocksMore => False
  | _ => True
  end → ¬ opens_pass e.
Proof. intros H [->| ->]; exact H. Qed.

Lemma verify_parachain_no_pass (acc : bool * gmap string UpgradeSession)
    (parachain : ParachainConfig) :
  avoids opens_pass (verify_parachain w types acc parachain).
Proof.
  destruct acc as [failed info]. unfold verify_parachain.
  destruct (info !! _) as [sess|]; [|apply avoids_stop].
  destruct (has_updated sess); [apply avoids_ret|].
  apply avoids_bind;
    [apply avoids_connect_typed; intros; apply opens_pass_not; exact I | intros api].
  apply avoids_bind; [apply avoids_getSpecVersion; apply opens_pass_not; exact I | intros v].
  apply avoids_bind; [apply avoids_ext; apply opens_pass_not; exact I | intros _].
  apply avoids_bind; [apply avoids_emit; apply opens_pass_not; exact I | intros _].
  destruct (negb _);
    (apply avoids_bind;
     [apply avoids_emit; apply opens_pass_not; exact I | intros _; apply avoids_ret]).
Qed.

(** One pass opens one pass, and counts it. *)
Lemma verify_pass_spec (delay : Z) (parachains : list ParachainConfig)
    (vs : VerifyState) (s : State) :
  let r := verify_pass w types delay parachains vs s in
  passes (events r) = 1%nat
  ∧ (∃ rest, events r
             = EReport (if vs_first_pass vs then WaitingCodeValidationDelay
                        else WaitingFewBlocksMore) :: rest)
  ∧ (∀ vs', outcome r = Returned vs' → vs_try_n vs' = vs_try_n vs + 1).
Proof.
  cbn zeta. unfold verify_pass.
  set (loop := fun _ : unit => bind _ _).
  assert (Hloop : avoids opens_pass (loop tt)).
  { apply avoids_bind; [|intros r; apply avoids_ret].
    apply avoids_for_of_fold. intros acc x. apply verify_parachain_no_pass. }
  assert (Hwait : ∀ time s0,
    outcome (waitWithTimer time s0) = Returned tt
    ∧ passes (events (waitWithTimer time s0)) = O).
  { intros time s0. split; [apply countdown_events|].
    apply passes_avoided. apply avoids_waitWithTimer. apply opens_pass_not. exact I. }
  split; [|split].
  - rewrite events_bind, passes_app.
    assert (H1 : passes (events ((if vs_first_pass vs
                   then emit (EReport WaitingCodeValidationDelay);; waitWithTimer delay
                   else emit (EReport WaitingFewBlocksMore);;
                        waitWithTimer (parachain_block_time * 3)) s)) = 1%nat).
    { destruct (vs_first_pass vs); rewrite events_bind; cbn [emit events outcome app passes];
        rewrite (proj2 (Hwait _ _)); reflexivity. }
    rewrite H1. destruct (outcome _); [|reflexivity..].
    destruct a. rewrite (passes_avoided _ (Hloop _)). reflexivity.
  - rewrite events_bind.
    destruct (vs_first_pass vs); rewrite events_bind; cbn [emit events app]; eauto.
  - intros vs' H. apply bind_outcome_inv in H as ([] & _ & H).
    apply bind_outcome_inv in H as (r & _ & H). cbn in H. injection H as <-. reflexivity.
Qed.

(** The loop opens at most as many passes as [try_n] is short of 3. *)
Lemma while_verify_passes (fuel : nat) (delay : Z) (parachains : list ParachainConfig)
    (vs : VerifyState) (s : State) :
  (passes (events (while_loop fuel verify_cond (verify_pass w types delay parachains) vs s))
   ≤ Z.to_nat (3 - vs_try_n vs))%nat.
Proof.
  revert vs s. induction fuel as [|fuel IH]; intros vs s; cbn [while_loop]; [cbn; lia|].
  unfold verify_cond at 1.
  destruct (Z.ltb_spec (vs_try_n vs) 3) as [Hlt|Hge]; cbn [andb]; [|cbn; lia].
  destruct (vs_failed vs); [|cbn; lia].
  destruct (verify_pass_spec delay parachains vs s) as (Hone & _ & Htry). cbn zeta in Hone, Htry.
  rewrite events_bind, passes_app, Hone.
  destruct (outcome (verify_pass w types delay parachains vs s)) as [vs'| | |];
    [|cbn; lia..].
  specialize (IH vs' (final (verify_pass w types delay parachains vs s))).
  rewrite (Htry vs' eq_refl) in IH. lia.
Qed.

(** With fuel for the passes [try_n] is short of 3, and one more test of
    the condition, the loop does not run out of fuel. *)
Lemma while_verify_fuel (fuel : nat) (delay : Z) (parachains : list ParachainConfig)
    (vs : VerifyState) (s : State) :
  (Z.to_nat (3 - vs_try_n vs) < fuel)%nat →
  outcome (while_loop fuel verify_cond (verify_pass w types delay parachains) vs s)
  ≠ Returned None.
Proof.
  revert vs s. induction fuel as [|fuel IH]; intros vs s Hfuel; [lia|]. cbn [while_loop].
  unfold verify_cond at 1.
  destruct (Z.ltb_spec (vs_try_n vs) 3) as [Hlt|Hge]; cbn [andb]; [|discriminate].
  destruct (vs_failed vs); [|discriminate].
  destruct (verify_pass_spec delay parachains vs s) as (_ & _ & Htry). cbn zeta in Htry.
  destruct (outcome (verify_pass w types delay parachains vs s)) as [vs'| | |] eqn:Hout.
  2-4: rewrite bind_not_Returned by (rewrite Hout; discriminate); rewrite Hout; discriminate.
  rewrite (bind_Returned _ _ _ _ Hout). cbn [outcome].
  apply IH. rewrite (Htry vs' eq_refl). lia.
Qed.

(** The flag [parachains_upgrade_failed] is false after a pass only if the
    session of every parachain is marked as upgraded. *)
Lemma verify_loop_success (parachains : list ParachainConfig)
    (acc acc' : bool * gmap string UpgradeSession) (s : State) :
  outcome (for_of_fold parachains (verify_parachain w types) acc s) = Returned acc' →
  (fst acc = true → fst acc' = true)
  ∧ (fst acc' = false →
       ∀ p, p ∈ parachains → updated (snd acc') (js_key (pc_resolvedId p)) = true).
Proof.
  revert acc s. induction parachains as [|p ps IH]; intros acc s H; cbn [for_of_fold] in H.
  { cbn in H. injection H as <-. split; [trivial|]. intros _ p Hp. inversion Hp. }
  apply bind_outcome_inv in H as (acc1 & H1 & H).
  pose proof (tracks_le _ _ _ (tracks_verify_loop w types ps acc1 _) acc' (snd acc') H eq_refl)
    as Hle.
  destruct (IH _ _ H) as [IH1 IH2].
  assert (Hstep : (fst acc = true → fst acc1 = true)
                  ∧ (fst acc1 = false → updated (snd acc1) (js_key (pc_resolvedId p)) = true)).
  { clear -H1. destruct acc as [failed info]. unfold verify_parachain in H1.
    destruct (info !! _) as [sess|] eqn:Hs; [|discriminate].
    destruct (has_updated sess) eqn:Hu.
    - cbn in H1. injection H1 as <-. split; [trivial|]. intros _. cbn [snd].
      unfold updated. rewrite Hs. exact Hu.
    - apply bind_outcome_inv in H1 as (api & _ & H1).
      apply bind_outcome_inv in H1 as (v & _ & H1).
      apply bind_outcome_inv in H1 as ([] & _ & H1).
      apply bind_outcome_inv in H1 as ([] & _ & H1).
      destruct (negb _).
      + apply bind_outcome_inv in H1 as ([] & _ & H1). cbn in H1. injection H1 as <-.
        cbn [fst snd]. split; [trivial|]. intros _. unfold updated.
        rewrite lookup_insert_eq. reflexivity.
      + apply bind_outcome_inv in H1 as ([] & _ & H1). cbn in H1. injection H1 as <-.
        cbn [fst snd]. split; [trivial | discriminate]. }
  destruct Hstep as [Hs1 Hs2]. split; [auto|].
  intros Hf p' Hp'. apply elem_of_cons in Hp' as [->|Hp']; [|apply IH2; assumption].
  eapply updated_mono; [exact Hle|]. apply Hs2.
  destruct (fst acc1) eqn:E; [|reflexivity]. rewrite IH1 in Hf by reflexivity. discriminate.
Qed.

(** When the loop returns with the flag false, the session of every
    parachain is marked as upgraded. *)
Lemma while_verify_success (fuel : nat) (delay : Z) (parachains : list ParachainConfig)
    (vs vs' : VerifyState) (s : State) :
  outcome (while_loop fuel verify_cond (verify_pass w types delay parachains) vs s)
  = Returned (Some vs') →
  (vs_failed vs = false →
     ∀ p, p ∈ parachains → updated (vs_info vs) (js_key (pc_resolvedId p)) = true) →
  vs_failed vs' = false →
  ∀ p, p ∈ parachains → updated (vs_info vs') (js_key (pc_resolvedId p)) = true.
Proof.
  revert vs s. induction fuel as [|fuel IH]; intros vs s H Hinv; [discriminate|].
  cbn [while_loop] in H. destruct (verify_cond vs).
  - apply bind_outcome_inv in H as (vs1 & H1 & H). apply (IH _ _ H).
    intros Hf p Hp. unfold verify_pass in H1.
    apply bind_outcome_inv in H1 as ([] & _ & H1).
    apply bind_outcome_inv in H1 as (r & Hr & H1). cbn in H1. injection H1 as <-.
    cbn [vs_failed vs_info] in *.
    apply (proj2 (verify_loop_success _ _ _ _ Hr) Hf p Hp).
  - cbn in H. injection H as <-. exact Hinv.
Qed.

(** The sessions the restart of the parachains creates are not marked as
    upgraded. *)
Lemma restart_parachain_sessions (dir spec : string) (only_one : bool)
    (info info' : gmap string UpgradeSession) (parachain : ParachainConfig) (s : State) :
  outcome (restart_parachain w dir spec types only_one info parachain s) = Returned info' →
  info' = info
  ∨ ∃ sess, info' = <[js_key (pc_resolvedId parachain) := sess]> info
            ∧ has_updated sess = false.
Proof.
  unfold restart_parachain. intros H.
  apply bind_outcome_inv in H as (new_bin & _ & H).
  apply bind_outcome_inv in H as (nodes & _ & H).
  apply bind_outcome_inv in H as (info1 & H1 & H).
  apply bind_outcome_inv in H as ([] & _ & H). cbn in H. injection H as <-.
  destruct nodes as [|node0 nodes].
  - cbn in H1. injection H1 as <-. left. reflexivity.
  - apply bind_outcome_inv in H1 as (api & _ & H1).
    apply bind_outcome_inv in H1 as (version & _ & H1).
    apply bind_outcome_inv in H1 as ([] & _ & H1).
    apply bind_outcome_inv in H1 as ([] & _ & H1).
    cbn in H1. injection H1 as <-. right. eexists. split; reflexivity.
Qed.

Lemma restart_parachains_sessions (dir spec : string) (only_one : bool)
    (parachains : list ParachainConfig) (info info' : gmap string UpgradeSession)
    (s : State) :
  outcome (for_of_fold parachains (restart_parachain w dir spec types only_one) info s)
  = Returned info' →
  (∀ id sess, info !! id = Some sess → has_updated sess = false) →
  ∀ id sess, info' !! id = Some sess → has_updated sess = false.
Proof.
  revert info s. induction parachains as [|p ps IH]; intros info s H Hinfo;
    cbn [for_of_fold] in H.
  - cbn in H. injection H as <-. exact Hinfo.
  - apply bind_outcome_inv in H as (info1 & H1 & H). apply (IH _ _ H).
    apply restart_parachain_sessions in H1 as [->|(sess & -> & Hs)]; [exact Hinfo|].
    intros id sess' Hl. destruct (decide (js_key (pc_resolvedId p) = id)) as [<-|Hne].
    + rewrite lookup_insert_eq in Hl. injection Hl as <-. exact Hs.
    + rewrite lookup_insert_ne in Hl by exact Hne. eapply Hinfo. exact Hl.
Qed.

End Bounded.

Section Polls.

Variable w : World.
Variable types : TypesDef.

(** A poll that returns has given its verdict: the session is reported as
    upgraded, with a version that differs from its old one, and marked, or
    it is reported as failed and the flag of failure is up. *)
Lemma verify_parachain_verdict (failed : bool) (info : gmap string UpgradeSession)
    (parachain : ParachainConfig) (sess : UpgradeSession) (s : State)
    (acc' : bool * gmap string UpgradeSession) :
  let id := js_key (pc_resolvedId parachain) in
  let r := verify_parachain w types (failed, info) parachain s in
  info !! id = Some sess → has_updated sess = false →
  outcome r = Returned acc' →
  (∃ new, new ≠ old_version sess
          ∧ EReport (ParachainUpgraded id (old_version sess) new) ∈ events r
          ∧ acc' = (failed, <[id := mark_updated sess]> info))
  ∨ (EReport (ParachainFailed id (old_version sess)) ∈ events r ∧ acc' = (true, info)).
Proof.
  intros id r Hs Hu H. subst r. unfold verify_parachain in *. fold id in H |- *.
  rewrite Hs, Hu in *.
  apply bind_Returned_inv in H as (api & _ & H & ->).
  apply bind_Returned_inv in H as (version & _ & H & ->).
  apply bind_Returned_inv in H as ([] & _ & H & ->).
  apply bind_Returned_inv in H as ([] & _ & H & ->).
  destruct (Z.eqb_spec version (old_version sess)) as [Heq|Hne]; cbn [negb] in *.
  - right. cbn in H. injection H as <-. split; [|reflexivity].
    do 4 (apply elem_of_app; right). cbn. left.
  - left. exists version. cbn in H. injection H as <-.
    split; [exact Hne | split; [|reflexivity]].
    do 4 (apply elem_of_app; right). cbn. left.
Qed.

Lemma verify_loop_verdicts (parachains : list ParachainConfig)
    (acc acc' : bool * gmap string UpgradeSession) (s : State) :
  let r := for_of_fold parachains (verify_parachain w types) acc s in
  outcome r = Returned acc' →
  ∀ p, p ∈ parachains →
    let id := js_key (pc_resolvedId p) in
    updated (snd acc) id = false →
    (∃ old new, EReport (ParachainUpgraded id old new) ∈ events r
                ∧ updated (snd acc') id = true)
    ∨ (∃ old, EReport (ParachainFailed id old) ∈ events r ∧ fst acc' = true).
Proof.
  cbn zeta. revert acc s.
  induction parachains as [|q qs IH]; intros acc s H p Hp Hid; [inversion Hp|].
  cbn [for_of_fold] in *.
  apply bind_Returned_inv in H as (acc1 & H1 & H & ->).
  pose proof (tracks_verify_loop w types qs acc1 (final (verify_parachain w types acc q s)))
    as Hrest.
  pose proof (tracks_le _ _ _ Hrest acc' (snd acc') H eq_refl) as Hle.
  destruct (verify_loop_success w types qs acc1 acc' _ H) as [Hfailed _].
  destruct (updated (snd acc1) (js_key (pc_resolvedId p))) eqn:Hid1.
  - left.
    destruct (tracks_flip _ _ _ (tracks_verify_parachain w types acc q s) acc1 (snd acc1)
                (js_key (pc_resolvedId p)) H1 eq_refl Hid Hid1) as (old & new & Hev).
    exists old, new. split; [apply elem_of_app; left; exact Hev|].
    exact (updated_mono _ _ _ Hle Hid1).
  - apply elem_of_cons in Hp as [->|Hp].
    + destruct acc as [failed info]. cbn [snd] in Hid.
      destruct (info !! js_key (pc_resolvedId q)) as [sess|] eqn:Hs.
      2:{ unfold verify_parachain in H1. rewrite Hs in H1. discriminate H1. }
      assert (Hu : has_updated sess = false) by (unfold updated in Hid; rewrite Hs in Hid; exact Hid).
      destruct (verify_parachain_verdict failed info q sess s acc1 Hs Hu H1)
        as [(new & _ & Hev & ->)|[Hev ->]].
      * exfalso. unfold updated in Hid1. cbn [snd] in Hid1.
        rewrite lookup_insert_eq in Hid1. discriminate Hid1.
      * right. exists (old_version sess). split; [apply elem_of_app; left; exact Hev|].
        apply Hfailed. reflexivity.
    + destruct (IH acc1 _ H p Hp Hid1) as [(old & new & Hev & Hm)|(old & Hev & Hf)].
      * left. exists old, new. split; [apply elem_of_app; right; exact Hev | exact Hm].
      * right. exists old. split; [apply elem_of_app; right; exact Hev | exact Hf].
Qed.

(** Every pass that returns has given a verdict on every session that was
    not marked when it began: the session is reported as upgraded and
    marked, or it is reported as failed and the pass ends with the flag of
    failure up. *)
Lemma verify_pass_verdicts (delay : Z) (parachains : list ParachainConfig)
    (vs vs' : VerifyState) (s : State) :
  let r := verify_pass w types delay parachains vs s in
  outcome r = Returned vs' →
  ∀ p, p ∈ parachains →
    let id := js_key (pc_resolvedId p) in
    updated (vs_info vs) id = false →
    (∃ old new, EReport (ParachainUpgraded id old new) ∈ events r
                ∧ updated (vs_info vs') id = true)
    ∨ (∃ old, EReport (ParachainFailed id old) ∈ events r ∧ vs_failed vs' = true).
Proof.
  cbn zeta. intros H p Hp Hid. unfold verify_pass in *.
  apply bind_Returned_inv in H as ([] & _ & H & ->).
  apply bind_Returned_inv in H as (acc' & Hloop & H & ->).
  cbn in H. injection H as <-. cbn [vs_info vs_failed].
  destruct (verify_loop_verdicts parachains (false, vs_info vs) acc' _ Hloop p Hp Hid)
    as [(old & new & Hev & Hm)|(old & Hev & Hf)].
  - left. exists old, new. split; [|exact Hm].
    apply elem_of_app; right. apply elem_of_app; left. exact Hev.
  - right. exists old. split; [|exact Hf].
    apply elem_of_app; right. apply elem_of_app; left. exact Hev.
Qed.

Hypothesis Hcoop : cooperative w.

Lemma ext_fine (e : Event) (s : State) :
  ext w e s = {| outcome := Returned tt; events := [e]; final := tick s |}.
Proof.
  unfold ext, bind, now, emit, ret. cbn [outcome events final st_time].
  rewrite (coop_ext w Hcoop). reflexivity.
Qed.

Lemma bind_step {A B} (m : M A) (k : A → M B) (s s' : State) (a : A) (evs : list Event) :
  m s = {| outcome := Returned a; events := evs; final := s' |} →
  bind m k s = {| outcome := outcome (k a s');
                  events := (evs ++ events (k a s'))%list;
                  final := final (k a s') |}.
Proof. intros H. unfold bind. rewrite H. reflexivity. Qed.

Lemma connect_typed_fine (port : Z) (s : State) :
  ∃ pre s', connect_typed w types port s
            = {| outcome := Returned port; events := pre; final := s' |}
            ∧ (st_time s ≤ st_time s')%nat.
Proof.
  unfold connect_typed, connect.
  assert (Hload : ∃ pre s', loadTypeDef w types s
                            = {| outcome := Returned tt; events := pre; final := s' |}
                            ∧ (st_time s ≤ st_time s')%nat).
  { unfold loadTypeDef. destruct types as [path|].
    - destruct (coop_readFile w Hcoop path) as [text ->]. rewrite (coop_json w Hcoop).
      eexists _, _. split; [reflexivity | cbn; lia].
    - eexists _, _. split; [reflexivity | cbn; lia]. }
  destruct Hload as (pre & s1 & Hload & Hle).
  rewrite (bind_step _ _ _ _ _ _ Hload).
  rewrite (bind_step _ _ _ _ _ _ (ext_fine (EConnect port) s1)).
  eexists _, _. split; [reflexivity | cbn; lia].
Qed.

(** In a world where nothing goes wrong, the sequence of a poll: the
    connection, the reading of the version, the disconnection, the short
    wait; the continuation gets the version the runtime has when it is
    read. *)
Lemma poll_sequence {A} (port : Z) (k : Z → M A) (s : State) :
  ∃ t s' pre,
    (st_time s ≤ t)%nat
    ∧ EGetSpecVersion port ∈ pre
    ∧ (api <- connect_typed w types port;;
       version <- getSpecVersion w api;;
       disconnect w;;
       waitForExtraOutput;;
       k version) s
      = {| outcome := outcome (k (w_specVersion w t port) s');
           events := (pre ++ events (k (w_specVersion w t port) s'))%list;
           final := final (k (w_specVersion w t port) s') |}.
Proof.
  destruct (connect_typed_fine port s) as (pre & s1 & Hconnect & Hle).
  rewrite (bind_step _ _ _ _ _ _ Hconnect).
  assert (Hread : getSpecVersion w port s1
                  = {| outcome := Returned (w_specVersion w (st_time s1) port);
                       events := [EGetSpecVersion port]; final := tick s1 |})
    by reflexivity.
  rewrite (bind_step _ _ _ _ _ _ Hread).
  unfold disconnect. rewrite (bind_step _ _ _ _ _ _ (ext_fine EDisconnect (tick s1))).
  assert (Hwait : waitForExtraOutput (tick (tick s1))
                  = {| outcome := Returned tt; events := [EDelay 250];
                       final := tick (tick (tick s1)) |}) by reflexivity.
  rewrite (bind_step _ _ _ _ _ _ Hwait).
  cbn [outcome events final].
  exists (st_time s1), (tick (tick (tick s1))),
    (pre ++ [EGetSpecVersion port; EDisconnect; EDelay 250])%list.
  split; [exact Hle | split].
  - apply elem_of_app. right. left.
  - f_equal. rewrite <- !(assoc_L (++)). reflexivity.
Qed.

(** The transition: in a world where nothing goes wrong, the poll of a
    session that is not marked reads the version of its runtime; when it
    differs from the old version, the session is reported as upgraded and
    marked, and the flag of failure is left as it is; when it is the old
    version, the session is reported as failed, left as it is, and the flag
    of failure is raised. *)
Lemma verify_parachain_transition (failed : bool) (info : gmap string UpgradeSession)
    (parachain : ParachainConfig) (sess : UpgradeSession) (s : State) :
  let id := js_key (pc_resolvedId parachain) in
  let r := verify_parachain w types (failed, info) parachain s in
  info !! id = Some sess → has_updated sess = false →
  ∃ t, (st_time s ≤ t)%nat
       ∧ EGetSpecVersion (first_node sess) ∈ events r
       ∧ let version := w_specVersion w t (first_node sess) in
         (version ≠ old_version sess →
            outcome r = Returned (failed, <[id := mark_updated sess]> info)
            ∧ EReport (ParachainUpgraded id (old_version sess) version) ∈ events r)
         ∧ (version = old_version sess →
              outcome r = Returned (true, info)
              ∧ EReport (ParachainFailed id (old_version sess)) ∈ events r).
Proof.
  intros id r Hs Hu. subst r. unfold verify_parachain. fold id. rewrite Hs, Hu.
  destruct (poll_sequence (first_node sess)
              (fun spec_version =>
                 if negb (spec_version =? old_version sess)
                 then emit (EReport (ParachainUpgraded id (old_version sess) spec_version));;
                      ret (failed, <[id := mark_updated sess]> info)
                 else emit (EReport (ParachainFailed id (old_version sess)));;
                      ret (true, info)) s)
    as (t & s' & pre & Ht & Hpre & ->).
  exists t. split; [exact Ht|]. cbn [events outcome].
  split; [apply elem_of_app; left; exact Hpre|].
  cbn zeta. split.
  - intros Hne. destruct (Z.eqb_spec (w_specVersion w t (first_node sess)) (old_version sess));
      [contradiction|]. cbn [negb]. split; [reflexivity|].
    apply elem_of_app; right. cbn. left.
  - intros Heq. rewrite Heq, Z.eqb_refl. cbn [negb]. split; [reflexivity|].
    apply elem_of_app; right. cbn. left.
Qed.

(** The older runner keeps no flag: a parachain with a session is polled,
    whatever its session holds. *)
Lemma verify_parachain_unflagged_reads (failed : bool) (info : gmap string UpgradeSession)
    (parachain : ParachainConfig) (sess : UpgradeSession) (s : State) :
  info !! js_key (pc_resolvedId parachain) = Some sess →
  EGetSpecVersion (first_node sess)
  ∈ events (verify_parachain_unflagged w types info failed parachain s).
Proof.
  intros Hs. unfold verify_parachain_unflagged. rewrite Hs.
  set (id := js_key (pc_resolvedId parachain)).
  destruct (poll_sequence (first_node sess)
              (fun spec_version =>
                 if negb (spec_version =? old_version sess)
                 then emit (EReport (ParachainUpgraded id (old_version sess) spec_version));;
                      ret failed
                 else emit (EReport (ParachainFailed id (old_version sess)));;
                      ret true) s)
    as (t & s' & pre & _ & Hpre & ->).
  cbn [events]. apply elem_of_app; left; exact Hpre.
Qed.

End Polls.

(** C5: in the upgrade test whose sessions carry [has_updated] (part_002,
    the same in part_003), the sessions the restart of the parachains
    creates are not marked as upgraded.  In a world where nothing goes
    wrong, the poll of a session that is not marked reads the version of
    its runtime: when it differs from the old version the session is
    reported as upgraded and marked, otherwise it is reported as failed and
    left as it is.  Every pass that returns has given such a verdict on
    every session that was not marked when it began.  A session that is
    marked is skipped, with no effect at all, so its version is not read;
    and through the whole verification loop every session stays in the
    table with its old version, a mark is never taken back, a session
    marked at the start is never polled, nothing is polled after it was
    reported as upgraded (so it is reported at most once), a report of an
    upgrade shows a version that differs from the old version of a session
    that was not marked, and a session is marked at the end exactly when it
    was at the start or was reported as upgraded.  The older
    src/src/runner.ts keeps no flag: there a parachain with a session is
    polled whatever its session holds. *)
Theorem upgrade_sessions_monotone (w : World) (types : TypesDef) :
  (∀ dir spec only_one parachains s info,
     outcome (for_of_fold parachains (restart_parachain w dir spec types only_one) ∅ s)
     = Returned info →
     ∀ id sess, info !! id = Some sess → has_updated sess = false)
  ∧ (cooperative w →
     ∀ failed info parachain sess s,
       let id := js_key (pc_resolvedId parachain) in
       let r := verify_parachain w types (failed, info) parachain s in
       info !! id = Some sess → has_updated sess = false →
       ∃ t, (st_time s ≤ t)%nat
            ∧ EGetSpecVersion (first_node sess) ∈ events r
            ∧ let version := w_specVersion w t (first_node sess) in
              (version ≠ old_version sess →
                 outcome r = Returned (failed, <[id := mark_updated sess]> info)
                 ∧ EReport (ParachainUpgraded id (old_version sess) version) ∈ events r)
              ∧ (version = old_version sess →
                   outcome r = Returned (true, info)
                   ∧ EReport (ParachainFailed id (old_version sess)) ∈ events r))
  ∧ (∀ delay parachains vs vs' s,
       let r := verify_pass w types delay parachains vs s in
       outcome r = Returned vs' →
       ∀ p, p ∈ parachains →
         let id := js_key (pc_resolvedId p) in
         updated (vs_info vs) id = false →
         (∃ old new, EReport (ParachainUpgraded id old new) ∈ events r
                     ∧ updated (vs_info vs') id = true)
         ∨ (∃ old, EReport (ParachainFailed id old) ∈ events r ∧ vs_failed vs' = true))
  ∧ (∀ failed info parachain sess s,
       info !! js_key (pc_resolvedId parachain) = Some sess →
       has_updated sess = true →
       verify_parachain w types (failed, info) parachain s = ret (failed, info) s)
  ∧ (∀ fuel delay parachains info s,
       tracks info (fmap vs_info)
         (verify_upgrades w fuel types delay parachains info s))
  ∧ (cooperative w →
     ∀ failed info parachain sess s,
       info !! js_key (pc_resolvedId parachain) = Some sess →
       EGetSpecVersion (first_node sess)
       ∈ events (verify_parachain_unflagged w types info failed parachain s)).
Proof.
  split; [|split; [|split; [|split; [|split]]]].
  - intros dir spec only_one parachains s info H id sess.
    apply (restart_parachains_sessions w types dir spec only_one parachains ∅ info s H).
    intros id' sess' Hl. rewrite lookup_empty in Hl. discriminate.
  - intros Hcoop failed info parachain sess s.
    apply (verify_parachain_transition w types Hcoop).
  - intros delay parachains vs vs' s. apply verify_pass_verdicts.
  - intros failed info parachain sess s. apply verify_parachain_skips.
  - intros fuel delay parachains info s. unfold verify_upgrades.
    apply (tracks_while_verify w types fuel delay parachains
             {| vs_try_n := 0; vs_failed := true; vs_first_pass := true; vs_info := info |}).
  - intros Hcoop failed info parachain sess s.
    apply (verify_parachain_unflagged_reads w types Hcoop).
Qed.

(** ** The verdict on the relay *)

Lemma check_relay_upgrade_spec (relay_old_version relay_new_version : Z) (s : State) :
  check_relay_upgrade relay_old_version relay_new_version s
  = {| outcome := Returned (relay_old_version =? relay_new_version);
       events := [EReport (relay_verdict relay_old_version relay_new_version)];
       final := tick s |}.
Proof.
  unfold check_relay_upgrade, relay_verdict.
  destruct (relay_old_version =? relay_new_version); reflexivity.
Qed.

Lemma report_summary_spec (parachains_upgrade_failed relay_upgrade_failed : bool) (s : State) :
  report_summary parachains_upgrade_failed relay_upgrade_failed s
  = {| outcome := Returned tt;
       events := [EReport (banner parachains_upgrade_failed relay_upgrade_failed)];
       final := tick s |}.
Proof.
  unfold report_summary, banner.
  destruct (parachains_upgrade_failed || relay_upgrade_failed); reflexivity.
Qed.

(** What follows the relay upgrade: the verdict, the parachain phases run
    from a state that does not depend on the verdict, the banner. *)
Lemma after_relay_upgrade_spec (w : World) (fuel : nat) (types : TypesDef)
    (parachains : list ParachainConfig) (info : gmap string UpgradeSession)
    (relay_old_version : Z) (relay_new : RelayInfo) (delay : Z) (s : State) :
  let relay_new_version := ri_specVersion relay_new in
  let phases := parachain_phases w fuel types parachains info relay_new delay (tick s) in
  let r := after_relay_upgrade w fuel types parachains info relay_old_version relay_new
             delay s in
  events r
  = (EReport (relay_verdict relay_old_version relay_new_version)
     :: events phases
     ++ match outcome phases with
        | Returned (Some vs) =>
            [EReport (banner (vs_failed vs) (relay_old_version =? relay_new_version))]
        | _ => []
        end)%list
  ∧ outcome r
    = match outcome phases with
      | Returned (Some _) => Returned tt
      | Returned None => Pending
      | o => abort o
      end.
Proof.
  cbn zeta. unfold after_relay_upgrade.
  rewrite (bind_Returned _ _ _ (relay_old_version =? ri_specVersion relay_new))
    by (rewrite check_relay_upgrade_spec; reflexivity).
  rewrite check_relay_upgrade_spec. cbn [outcome events final app].
  set (phases := parachain_phases w fuel types parachains info relay_new delay (tick s)).
  unfold bind. fold phases.
  destruct (outcome phases) as [[vs|]| | |]; cbn [outcome events final abort];
    rewrite ?report_summary_spec; cbn [outcome events]; rewrite ?app_nil_r;
    split; reflexivity.
Qed.

Lemma for_of_events_elem {A} (xs : list A) (body : A → M unit) (x : A) (s : State) :
  (∀ y, y ∈ xs → returns (body y)) →
  x ∈ xs →
  ∃ sx, ∀ e, e ∈ events (body x sx) → e ∈ events (for_of xs body s).
Proof.
  revert s. induction xs as [|y ys IH]; intros s Hret Hx; [inversion Hx|].
  cbn [for_of]. rewrite events_bind.
  apply elem_of_cons in Hx as [->|Hx].
  - exists s. intros e He. apply elem_of_app. left. exact He.
  - destruct (Hret y (list_elem_of_here _ _) s) as [[] Hy]. rewrite Hy.
    destruct (IH (final (body y s))) as [sx Hsx]; [|exact Hx|].
    + intros z Hz. apply Hret. right. exact Hz.
    + exists sx. intros e He. apply elem_of_app. right. apply Hsx. exact He.
Qed.

Section CooperativeUpgrade.

Variable w : World.
Hypothesis Hcoop : cooperative w.
Variable types : TypesDef.

Lemma returns_connect_typed (port : Z) : returns (connect_typed w types port).
Proof.
  unfold connect_typed. apply returns_bind; [apply returns_loadTypeDef; exact Hcoop|].
  intros _. apply returns_connect. exact Hcoop.
Qed.

Lemma returns_upgradeParachainRuntime (path : string) (finalization : bool) :
  returns (upgradeParachainRuntime w (Some path) finalization).
Proof.
  unfold upgradeParachainRuntime, readFileSync.
  destruct (coop_readFile w Hcoop path) as [hex ->].
  apply returns_bind; [apply returns_ret | intros code].
  apply returns_bind; [apply returns_executeTransaction; exact Hcoop | intros _].
  apply returns_executeTransaction. exact Hcoop.
Qed.

Lemma returns_upgrade_parachain (info : gmap string UpgradeSession) (p : ParachainConfig) :
  is_Some (pc_upgradeWasm p) → returns (upgrade_parachain w types info p).
Proof.
  intros [path Hpath]. unfold upgrade_parachain. rewrite Hpath.
  destruct (info !! _) as [sess|]; [|apply returns_ret].
  apply returns_bind; [apply returns_connect_typed | intros _].
  apply returns_bind; [apply returns_upgradeParachainRuntime | intros _].
  apply returns_bind; [apply returns_disconnect; exact Hcoop | intros _].
  apply returns_emit.
Qed.

(** The submission of an upgrade performs the authorizing submission. *)
Lemma upgrade_parachain_submits (info : gmap string UpgradeSession) (p : ParachainConfig)
    (s : State) :
  is_Some (pc_upgradeWasm p) →
  is_Some (info !! js_key (pc_resolvedId p)) →
  ∃ codeHash, ESubmit (TxAuthorizeUpgrade codeHash) ∈ events (upgrade_parachain w types info p s).
Proof.
  intros [path Hpath] [sess Hsess]. unfold upgrade_parachain. rewrite Hpath, Hsess.
  destruct (returns_connect_typed (first_node sess) s) as [api Hapi].
  destruct (coop_readFile w Hcoop path) as [hex Hhex].
  exists (w_blake2 w hex).
  rewrite events_bind, Hapi. cbn beta iota. rewrite events_bind.
  unfold upgradeParachainRuntime at 1, readFileSync. rewrite Hhex.
  rewrite bind_ret_l, events_bind.
  apply elem_of_app. right. apply elem_of_app. left. apply elem_of_app. left.
  unfold executeTransaction, bind, now, emit, ret. cbn.
  rewrite (coop_ext w Hcoop). cbn. rewrite (coop_tx w Hcoop). cbn.
  right. left.
Qed.

Lemma all_sessions_le (parachains : list ParachainConfig)
    (info info' : gmap string UpgradeSession) :
  sessions_le info info' → all_sessions parachains info → all_sessions parachains info'.
Proof.
  intros Hle H p Hp. specialize (H p Hp). specialize (Hle (js_key (pc_resolvedId p))).
  destruct H as [sess Hs]. rewrite Hs in Hle.
  destruct (info' !! _); [eauto | contradiction].
Qed.

Lemma returns_verify_parachain (acc : bool * gmap string UpgradeSession)
    (p : ParachainConfig) :
  is_Some (snd acc !! js_key (pc_resolvedId p)) →
  returns (verify_parachain w types acc p).
Proof.
  destruct acc as [failed info]. intros [sess Hsess]. unfold verify_parachain.
  cbn [snd] in Hsess. rewrite Hsess.
  destruct (has_updated sess); [apply returns_ret|].
  apply returns_bind; [apply returns_connect_typed | intros api].
  apply returns_bind; [|intros version].
  { unfold getSpecVersion. repeat returns_step. }
  apply returns_bind; [apply returns_disconnect; exact Hcoop | intros _].
  apply returns_bind; [apply returns_emit | intros _].
  destruct (negb _); (apply returns_bind; [apply returns_emit | intros _; apply returns_ret]).
Qed.

Lemma returns_verify_loop (all parachains : list ParachainConfig)
    (acc : bool * gmap string UpgradeSession) :
  (∀ p, p ∈ parachains → p ∈ all) →
  all_sessions all (snd acc) →
  returns (for_of_fold parachains (verify_parachain w types) acc).
Proof.
  revert acc. induction parachains as [|p ps IH]; intros acc Hsub Hall; cbn [for_of_fold].
  - apply returns_ret.
  - apply (returns_bind_post (fun acc' => all_sessions all (snd acc'))).
    + apply returns_verify_parachain. apply Hall. apply Hsub. left.
    + intros s acc' H. eapply all_sessions_le; [|exact Hall].
      apply (tracks_le _ _ _ (tracks_verify_parachain w types acc p s) acc' _ H eq_refl).
    + intros acc' Hacc'. apply IH; [|exact Hacc'].
      intros q Hq. apply Hsub. right. exact Hq.
Qed.

Lemma returns_verify_pass (delay : Z) (parachains : list ParachainConfig) (vs : VerifyState) :
  all_sessions parachains (vs_info vs) →
  returns (verify_pass w types delay parachains vs).
Proof.
  intros Hall. unfold verify_pass. apply returns_bind; [|intros _].
  - destruct (vs_first_pass vs);
      (apply returns_bind; [apply returns_emit | intros _; apply returns_countdown]).
  - apply returns_bind; [|intros r; apply returns_ret].
    apply (returns_verify_loop parachains); [auto | exact Hall].
Qed.

Lemma returns_while_verify (fuel : nat) (delay : Z) (parachains : list ParachainConfig)
    (vs : VerifyState) :
  all_sessions parachains (vs_info vs) →
  returns (while_loop fuel verify_cond (verify_pass w types delay parachains) vs).
Proof.
  revert vs. induction fuel as [|fuel IH]; intros vs Hall; cbn [while_loop].
  - apply returns_ret.
  - destruct (verify_cond vs); [|apply returns_ret].
    apply (returns_bind_post (fun vs' => all_sessions parachains (vs_info vs'))).
    + apply returns_verify_pass. exact Hall.
    + intros s vs' H. eapply all_sessions_le; [|exact Hall].
      apply (tracks_le _ _ _ (tracks_verify_pass w types delay parachains vs s) vs' _ H
               eq_refl).
    + intros vs' Hvs'. apply IH. exact Hvs'.
Qed.

(** In a world where nothing goes wrong the parachain phases run to their
    end: every upgrade is submitted, at least one polling pass is made, and
    the loop ends within its bound. *)
Lemma parachain_phases_complete (fuel : nat) (parachains : list ParachainConfig)
    (info : gmap string UpgradeSession) (relay_new : RelayInfo) (delay : Z) (s : State) :
  (4 ≤ fuel)%nat →
  all_sessions parachains info →
  (∀ p, p ∈ parachains → is_Some (pc_upgradeWasm p)) →
  let phases := parachain_phases w fuel types parachains info relay_new delay s in
  (∃ vs, outcome phases = Returned (Some vs))
  ∧ (∀ p, p ∈ parachains →
       ∃ codeHash, ESubmit (TxAuthorizeUpgrade codeHash) ∈ events phases)
  ∧ (1 ≤ passes (events phases) ≤ 3)%nat.
Proof.
  intros Hfuel Hall Hwasm. cbn zeta. unfold parachain_phases.
  destruct (countdown_events
              (Z.to_nat (ceil_div (ri_epochLength relay_new * ri_blockTime relay_new) 1000)) s)
    as (Hw & Hwe & _).
  fold (waitWithTimer (ri_epochLength relay_new * ri_blockTime relay_new)) in Hw, Hwe.
  set (wait := waitWithTimer (ri_epochLength relay_new * ri_blockTime relay_new)) in *.
  set (submit := for_of parachains (upgrade_parachain w types info)).
  assert (Hsub : returns submit).
  { apply returns_for_of. intros p Hp. apply returns_upgrade_parachain. apply Hwasm. exact Hp. }
  destruct (Hsub (final (wait s))) as [[] Hsubmit].
  set (s2 := final (submit (final (wait s)))) in *.
  set (verify := verify_upgrades w fuel types delay parachains info).
  assert (Hverify : ∃ vs, outcome (verify s2) = Returned (Some vs)).
  { destruct (returns_while_verify fuel delay parachains
                {| vs_try_n := 0; vs_failed := true; vs_first_pass := true; vs_info := info |}
                Hall s2) as [[vs|] Hvs]; [eauto|].
    exfalso. revert Hvs. apply while_verify_fuel. cbn. lia. }
  destruct Hverify as [vs Hvs].
  rewrite (bind_Returned _ _ _ _ Hw), (bind_Returned _ _ _ _ Hsubmit).
  cbn [outcome events final]. fold s2. fold verify.
  split; [|split].
  - exists vs. exact Hvs.
  - intros p Hp.
    destruct (for_of_events_elem parachains (upgrade_parachain w types info) p
                (final (wait s))) as [sx Hsx]; [|exact Hp|].
    { intros y Hy. apply returns_upgrade_parachain. apply Hwasm. exact Hy. }
    destruct (upgrade_parachain_submits info p sx (Hwasm p Hp) (Hall p Hp)) as [hash Hhash].
    exists hash. apply elem_of_app. right. apply elem_of_app. left.
    apply Hsx. exact Hhash.
  - rewrite !passes_app.
    assert (Hp1 : passes (events (wait s)) = O).
    { apply passes_avoided. apply avoids_waitWithTimer. apply opens_pass_not. exact I. }
    assert (Hp2 : passes (events (submit (final (wait s)))) = O).
    { apply passes_avoided. subst submit. generalize (final (wait s)). clear.
      induction parachains as [|p ps IH]; intros s; [constructor|].
      cbn [for_of]. rewrite events_bind. apply Forall_app. split.
      - unfold upgrade_parachain. destruct (info !! _) as [sess|]; [|constructor].
        apply avoids_bind;
          [apply avoids_connect_typed; intros; apply opens_pass_not; exact I | intros _].
        apply avoids_bind; [|intros _].
        { unfold upgradeParachainRuntime, readFileSync.
          apply avoids_bind; [|intros code].
          - destruct (pc_upgradeWasm p) as [path|]; [|apply avoids_stop].
            destruct (w_readFile w path); [apply avoids_ret | apply avoids_stop].
          - assert (Htx : ∀ tx fin, avoids opens_pass (executeTransaction w tx fin)).
            { intros tx fin. unfold executeTransaction.
              apply avoids_bind; [apply avoids_now | intros t0].
              apply avoids_bind; [apply avoids_emit; apply opens_pass_not; exact I | intros _].
              destruct (w_ext w t0); try apply avoids_stop.
              apply avoids_bind; [apply avoids_now | intros t].
              apply avoids_bind; [apply avoids_emit; apply opens_pass_not; exact I | intros _].
              destruct (settle fin _) as [[|]|]; try apply avoids_stop.
              apply avoids_emit. apply opens_pass_not. exact I. }
            apply avoids_bind; [apply Htx | intros _; apply Htx]. }
        apply avoids_bind; [apply avoids_ext; apply opens_pass_not; exact I | intros _].
        apply avoids_emit. apply opens_pass_not. exact I.
      - destruct (outcome _); [apply IH | constructor..]. }
    rewrite Hp1, Hp2. cbn [Nat.add].
    pose proof (while_verify_passes w types fuel delay parachains
                  {| vs_try_n := 0; vs_failed := true; vs_first_pass := true;
                     vs_info := info |} s2) as Hle.
    cbn [vs_try_n] in Hle. fold (verify_upgrades w fuel types delay parachains info) in Hle.
    fold verify in Hle. split; [|cbn in Hle; lia].
    subst verify.
    destruct fuel as [|fuel]; [lia|].
    change (verify_upgrades w (S fuel) types delay parachains info s2)
      with (bind (verify_pass w types delay parachains
                    {| vs_try_n := 0; vs_failed := true; vs_first_pass := true;
                       vs_info := info |})
              (while_loop fuel verify_cond (verify_pass w types delay parachains)) s2).
    rewrite events_bind, passes_app.
    destruct (verify_pass_spec w types delay parachains
                {| vs_try_n := 0; vs_failed := true; vs_first_pass := true; vs_info := info |}
                s2) as (Hone & _). cbn zeta in Hone. rewrite Hone. lia.
Qed.

End CooperativeUpgrade.

(** ** The restart of the collators, and the relay verdict in the run *)

Lemma for_of_returned_elem {A} (xs : list A) (body : A → M unit) (x : A) (s : State) :
  outcome (for_of xs body s) = Returned tt →
  x ∈ xs →
  ∃ sx, outcome (body x sx) = Returned tt
        ∧ ∀ e, e ∈ events (body x sx) → e ∈ events (for_of xs body s).
Proof.
  revert s. induction xs as [|y ys IH]; intros s H Hx; [inversion Hx|].
  cbn [for_of] in *. apply bind_Returned_inv in H as ([] & Hy & H & ->).
  apply elem_of_cons in Hx as [->|Hx].
  - exists s. split; [exact Hy|]. intros e He. apply elem_of_app. left. exact He.
  - destruct (IH _ H Hx) as (sx & Hsx & Hev). exists sx. split; [exact Hsx|].
    intros e He. apply elem_of_app. right. apply Hev. exact He.
Qed.

Lemma for_of_fold_returned_elem {A S} (xs : list A) (body : S → A → M S) (x : A)
    (acc acc' : S) (s : State) :
  outcome (for_of_fold xs body acc s) = Returned acc' →
  x ∈ xs →
  ∃ accx sx accx', outcome (body accx x sx) = Returned accx'
        ∧ ∀ e, e ∈ events (body accx x sx) → e ∈ events (for_of_fold xs body acc s).
Proof.
  revert acc s. induction xs as [|y ys IH]; intros acc s H Hx; [inversion Hx|].
  cbn [for_of_fold] in *. apply bind_Returned_inv in H as (acc1 & Hy & H & ->).
  apply elem_of_cons in Hx as [->|Hx].
  - exists acc, s, acc1. split; [exact Hy|]. intros e He. apply elem_of_app. left. exact He.
  - destruct (IH _ _ H Hx) as (accx & sx & accx' & Hsx & Hev).
    exists accx, sx, accx'. split; [exact Hsx|].
    intros e He. apply elem_of_app. right. apply Hev. exact He.
Qed.

Lemma killProcess_returned (key : Key) (s : State) :
  outcome (killProcess key s) = Returned tt → events (killProcess key s) = [EKill key].
Proof.
  unfold killProcess, bind, get_procs, set_procs, emit, ret, throw, stop. cbn.
  destruct (st_procs s !! key_string key); cbn; [reflexivity | discriminate].
Qed.

Lemma startCollator_returned (w : World) (bin : string) (wsPort : Z) (rpcPort : option Z)
    (port : Z) (options : CollatorOptions) (s : State) :
  outcome (startCollator w bin wsPort rpcPort port options s) = Returned tt →
  events (startCollator w bin wsPort rpcPort port options s)
  = [EStartCollator bin wsPort rpcPort port options; ECollatorReady wsPort].
Proof.
  unfold startCollator, spawn, bind, now, get_procs, set_procs, emit, ret, hang, stop. cbn.
  destruct (w_ext w (st_time s)); cbn; [reflexivity | discriminate | discriminate].
Qed.

(** A restart of a parachain that returned has stopped every collator of
    the parachain and started it again under the upgraded binary. *)
Lemma restart_parachain_restarts (w : World) (dir spec : string) (types : TypesDef)
    (only_one : bool) (info info' : gmap string UpgradeSession) (p : ParachainConfig)
    (nodes : list ParachainNodeConfig) (node : ParachainNodeConfig) (s : State) :
  let r := restart_parachain w dir spec types only_one info p s in
  outcome r = Returned info' →
  pc_nodes p = Some nodes →
  node ∈ nodes →
  EKill (KPort (pn_wsPort node)) ∈ events r ∧ ECollatorReady (pn_wsPort node) ∈ events r.
Proof.
  cbn zeta. unfold restart_parachain, nodes_of. intros H Hnodes Hnode. rewrite Hnodes in *.
  apply bind_Returned_inv in H as (new_bin & _ & H & ->).
  apply bind_Returned_inv in H as (nodes' & Hn & H & ->).
  cbn in Hn. injection Hn as <-.
  apply bind_Returned_inv in H as (info1 & _ & H & ->).
  apply bind_Returned_inv in H as ([] & Hloop & _ & ->).
  destruct (for_of_returned_elem _ _ node _ Hloop Hnode) as (sx & Hbody & Hev).
  apply bind_Returned_inv in Hbody as ([] & Hkill & Hbody & Hevb).
  apply bind_Returned_inv in Hbody as ([] & Hstart & _ & Hevs).
  apply killProcess_returned in Hkill. apply startCollator_returned in Hstart.
  split; do 3 (apply elem_of_app; right); apply elem_of_app; left; apply Hev; rewrite Hevb.
  - apply elem_of_app. left. rewrite Hkill. left.
  - apply elem_of_app. right. rewrite Hevs. apply elem_of_app. left. rewrite Hstart.
    right. left.
Qed.

(** ** Before the verdict on the relay *)

Lemma avoids_for_of (P : Event → Prop) {A} (xs : list A) (body : A → M unit) :
  (∀ x, avoids P (body x)) → avoids P (for_of xs body).
Proof.
  intros H. induction xs as [|x xs IH]; cbn [for_of]; [apply avoids_ret|].
  apply avoids_bind; [apply H | intros _; exact IH].
Qed.

Lemma avoids_state (P : Event → Prop) {A} (m : M A) :
  (∀ s, events (m s) = []) → avoids P m.
Proof. intros H s. rewrite H. constructor. Qed.

(** One step of the proof that a piece of the orchestrator writes no line
    of the report. *)
Ltac unreported :=
  lazymatch goal with
  | |- avoids _ (bind _ _) => apply avoids_bind; [|intros ?]
  | |- avoids _ (ret _) => apply avoids_ret
  | |- avoids _ (emit _) => apply avoids_emit; intros [? ?]; discriminate
  | |- avoids _ (ext _ _) => apply avoids_ext; intros [? ?]; discriminate
  | |- avoids _ (delay _) => apply avoids_emit; intros [? ?]; discriminate
  | |- avoids _ now => apply avoids_now
  | |- avoids _ (throw _) => apply avoids_stop
  | |- avoids _ (exit _) => apply avoids_stop
  | |- avoids _ hang => apply avoids_stop
  | |- avoids _ get_procs => apply avoids_state; reflexivity
  | |- avoids _ (set_procs _) => apply avoids_state; reflexivity
  | |- avoids _ (waitWithTimer _) => apply avoids_waitWithTimer; intros [? ?]; discriminate
  | |- avoids _ (match ?x with _ => _ end) => destruct x
  end.

Section Unreported.

Variable w : World.

Lemma unreported_connect_relay (nodes : list RelayNodeConfig) (types : TypesDef) :
  avoids written (connect_relay w nodes types).
Proof. unfold connect_relay, first_wsPort, loadTypeDef, connect. repeat unreported. Qed.

Lemma unreported_connect_typed (types : TypesDef) (port : Z) :
  avoids written (connect_typed w types port).
Proof. unfold connect_typed, loadTypeDef, connect. repeat unreported. Qed.

Lemma unreported_executeTransaction (tx : Tx) (finalization : bool) :
  avoids written (executeTransaction w tx finalization).
Proof. unfold executeTransaction. repeat unreported. Qed.

Lemma unreported_killProcess (key : Key) : avoids written (killProcess key).
Proof. unfold killProcess. repeat unreported. Qed.

Lemma unreported_baseline (nodes : list RelayNodeConfig) (types : TypesDef) :
  avoids written (baseline w nodes types).
Proof.
  unfold baseline, getRelayInfo, disconnect, waitForExtraOutput.
  apply avoids_bind; [apply unreported_connect_relay | intros _]. repeat unreported.
Qed.

Lemma unreported_restart_parachain (dir spec : string) (types : TypesDef) (only_one : bool)
    (info : gmap string UpgradeSession) (p : ParachainConfig) :
  avoids written (restart_parachain w dir spec types only_one info p).
Proof.
  unfold restart_parachain, nodes_of. repeat unreported.
  - apply unreported_connect_typed.
  - unfold getSpecVersion. repeat unreported.
  - unfold disconnect. repeat unreported.
  - unfold waitForExtraOutput. repeat unreported.
  - apply avoids_for_of. intros node.
    apply avoids_bind; [apply unreported_killProcess | intros _].
    unfold startCollator, spawn, applyAuraKey, giveKeyToCollator. repeat unreported.
Qed.

Lemma unreported_restart_nodes (dir spec : string) (types : TypesDef)
    (nodes : list RelayNodeConfig) (parachains : list ParachainConfig) (bin : string)
    (epoch_time : Z) :
  avoids written (restart_nodes w dir spec types nodes parachains bin epoch_time).
Proof.
  unfold restart_nodes. apply avoids_bind; [|intros _].
  - apply avoids_for_of. intros node. unfold restart_relay_node.
    apply avoids_bind; [unreported | intros _].
    apply avoids_bind; [apply unreported_killProcess | intros _].
    unfold startNode, spawn. repeat unreported.
  - apply avoids_for_of_fold. intros acc p. apply unreported_restart_parachain.
Qed.

Lemma unreported_upgrade_relay (nodes : list RelayNodeConfig) (types : TypesDef)
    (wasm : option string) (epoch_time : Z) :
  avoids written (upgrade_relay w nodes types wasm epoch_time).
Proof.
  unfold upgrade_relay, upgradeRelayRuntime, readFileSync, getRelayInfo,
    getCodeValidationDelay, disconnect, waitForExtraOutput.
  repeat first [ apply unreported_connect_relay | apply unreported_executeTransaction
               | unreported ].
Qed.

End Unreported.

Lemma unwritten_not_elem (evs : list Event) (r : Report) :
  Forall (fun e => ¬ written e) evs → EReport r ∉ evs.
Proof.
  intros H Hin. rewrite Forall_forall in H. apply (H _ Hin). exists r. reflexivity.
Qed.

(** In a run of the whole test, before the first line of the report is
    written (it is the verdict on the relay), every collator was stopped
    and started again. *)
Lemma upgrade_test_restarts_first (w : World) (fuel : nat) (dir : string)
    (config : LaunchConfig) (bin : string) (wasm : option string)
    (relaychain : RelayChainConfig) (parachains : list ParachainConfig) (s : State)
    (l1 l2 : list Event) (r : Report) :
  lc_relaychain config = Some relaychain →
  lc_parachains config = Some parachains →
  events (upgrade_test w fuel dir config bin wasm s) = (l1 ++ EReport r :: l2)%list →
  ∀ p nodes node,
    p ∈ parachains → pc_nodes p = Some nodes → node ∈ nodes →
    EKill (KPort (pn_wsPort node)) ∈ l1 ∧ ECollatorReady (pn_wsPort node) ∈ l1.
Proof.
  intros Hrelay Hparas Hev. unfold upgrade_test in Hev. rewrite Hrelay, Hparas in Hev.
  rewrite events_bind in Hev.
  pose proof (unreported_baseline w (rc_nodes relaychain) (lc_types config) s) as Hbase.
  set (base := baseline w (rc_nodes relaychain) (lc_types config) s) in *.
  assert (Hstop : ∀ evs, Forall (fun e => ¬ written e) evs →
                         evs = (l1 ++ EReport r :: l2)%list → False).
  { intros evs Hall ->. apply (unwritten_not_elem _ r Hall).
    apply elem_of_app. right. left. }
  destruct (outcome base) as [info| | |];
    [|exfalso; rewrite app_nil_r in Hev; exact (Hstop _ Hbase Hev)..].
  rewrite events_bind in Hev.
  match type of Hev with
  | context [restart_nodes w ?d ?sp ?t ?ns ?ps ?b ?e ?s0] =>
      pose proof (unreported_restart_nodes w d sp t ns ps b e s0) as Hrestart;
      set (restart := restart_nodes w d sp t ns ps b e s0) in *
  end.
  destruct (outcome restart) as [sessions| | |] eqn:Hout;
    [|exfalso; rewrite app_nil_r in Hev;
      exact (Hstop _ (proj2 (Forall_app _ _ _) (conj Hbase Hrestart)) Hev)..].
  rewrite events_bind in Hev.
  match type of Hev with
  | context [upgrade_relay w ?ns ?t ?wa ?e ?s0] =>
      pose proof (unreported_upgrade_relay w ns t wa e s0) as Hupgrade;
      set (upgrade := upgrade_relay w ns t wa e s0) in *
  end.
  assert (Hpre : Forall (fun e => ¬ written e)
                   (events base ++ events restart ++ events upgrade)).
  { apply Forall_app. split; [exact Hbase|]. apply Forall_app. split; assumption. }
  assert (Hl1 : ∃ rest, l1 = ((events base ++ events restart ++ events upgrade) ++ rest)%list).
  { destruct (outcome upgrade) as [upgraded| | |];
      [|exfalso; rewrite app_nil_r in Hev; exact (Hstop _ Hpre Hev)..].
    rewrite !(assoc_L (++)) in Hev. rewrite <- (assoc_L (++) (events base)) in Hev.
    exact (app_split_at _ _ _ _ _ Hev (unwritten_not_elem _ r Hpre)). }
  destruct Hl1 as [rest ->].
  intros p nodes node Hp Hnodes Hnode.
  subst restart. unfold restart_nodes in Hout |- *.
  apply bind_Returned_inv in Hout as ([] & _ & Hloop & ->).
  destruct (for_of_fold_returned_elem _ _ p _ _ _ Hloop Hp) as (acc & sx & acc' & Hb & Hin).
  destruct (restart_parachain_restarts w _ _ _ _ _ _ _ nodes node _ Hb Hnodes Hnode)
    as [Hkill Hready].
  split; apply elem_of_app; left; apply elem_of_app; right; apply elem_of_app; left;
    apply elem_of_app; right; apply Hin; assumption.
Qed.


(** ** The verification loop and the sessions it reads *)

Lemma while_loop_exit {S} (fuel : nat) (cond : S → bool) (body : S → M S) (x x' : S)
    (s : State) :
  outcome (while_loop fuel cond body x s) = Returned (Some x') → cond x' = false.
Proof.
  revert x s. induction fuel as [|fuel IH]; intros x s H; [discriminate|].
  cbn [while_loop] in H. destruct (cond x) eqn:Hc.
  - apply bind_outcome_inv in H as (x1 & _ & H). exact (IH _ _ H).
  - cbn in H. injection H as <-. exact Hc.
Qed.

(** A poll returns only if the parachain has a session, and it adds no
    session. *)
Lemma verify_parachain_reads_session (w : World) (types : TypesDef)
    (acc acc' : bool * gmap string UpgradeSession) (p : ParachainConfig) (s : State) :
  outcome (verify_parachain w types acc p s) = Returned acc' →
  is_Some (snd acc !! js_key (pc_resolvedId p))
  ∧ ∀ id, is_Some (snd acc' !! id) → is_Some (snd acc !! id).
Proof.
  destruct acc as [failed info]. unfold verify_parachain. cbn [snd].
  destruct (info !! js_key (pc_resolvedId p)) as [sess|] eqn:Hs; [|discriminate].
  intros H. split; [eauto|].
  destruct (has_updated sess).
  { cbn in H. injection H as <-. trivial. }
  apply bind_outcome_inv in H as (api & _ & H).
  apply bind_outcome_inv in H as (v & _ & H).
  apply bind_outcome_inv in H as ([] & _ & H).
  apply bind_outcome_inv in H as ([] & _ & H).
  destruct (negb _); apply bind_outcome_inv in H as ([] & _ & H);
    cbn in H; injection H as <-; cbn [snd]; [|trivial].
  intros id. destruct (decide (js_key (pc_resolvedId p) = id)) as [<-|Hne].
  - intros _. rewrite Hs. eauto.
  - rewrite lookup_insert_ne by exact Hne. trivial.
Qed.

Lemma verify_loop_reads_sessions (w : World) (types : TypesDef)
    (parachains : list ParachainConfig) (acc acc' : bool * gmap string UpgradeSession)
    (s : State) :
  outcome (for_of_fold parachains (verify_parachain w types) acc s) = Returned acc' →
  ∀ p, p ∈ parachains → is_Some (snd acc !! js_key (pc_resolvedId p)).
Proof.
  revert acc s. induction parachains as [|q ps IH]; intros acc s H p Hp; [inversion Hp|].
  cbn [for_of_fold] in H. apply bind_outcome_inv in H as (acc1 & H1 & H).
  apply verify_parachain_reads_session in H1 as [Hq Hkeys].
  apply elem_of_cons in Hp as [->|Hp]; [exact Hq|].
  apply Hkeys. exact (IH _ _ H p Hp).
Qed.

Lemma verify_upgrades_reads_sessions (w : World) (fuel : nat) (types : TypesDef) (delay : Z)
    (parachains : list ParachainConfig) (info : gmap string UpgradeSession)
    (vs : VerifyState) (s : State) :
  outcome (verify_upgrades w fuel types delay parachains info s) = Returned (Some vs) →
  ∀ p, p ∈ parachains → is_Some (info !! js_key (pc_resolvedId p)).
Proof.
  unfold verify_upgrades. destruct fuel as [|fuel]; [discriminate|].
  cbn [while_loop]. unfold verify_cond at 1. cbn [vs_try_n vs_failed Z.ltb Z.compare andb].
  intros H. apply bind_outcome_inv in H as (vs1 & H1 & _).
  unfold verify_pass in H1.
  apply bind_outcome_inv in H1 as ([] & _ & H1).
  apply bind_outcome_inv in H1 as (r & Hr & _).
  exact (verify_loop_reads_sessions _ _ _ _ _ _ Hr).
Qed.

(** C2: the verification loop opens at most three polling passes, whatever
    happens, and with fuel for four tests of its condition it does not run
    out of fuel; when it returns, either the flag of failure is down and
    the session of every parachain is marked as upgraded, or the flag is up
    and three passes were made; but it returns only if every parachain has
    a session: for the plan with two relay nodes and one parachain with an
    empty list of nodes, which passes the check and is launched, no session
    is opened, and the first pass ends the run with a [TypeError], the
    report holding the verdict on the relay and the opening of the first
    pass and neither a verdict on the parachain nor the closing banner. *)
Theorem verification_bounded_but_needs_sessions :
  (∀ w fuel types delay parachains info s,
     let r := verify_upgrades w fuel types delay parachains info s in
     (passes (events r) ≤ 3)%nat
     ∧ ((4 ≤ fuel)%nat → outcome r ≠ Returned None)
     ∧ (∀ vs, outcome r = Returned (Some vs) →
          (vs_failed vs = false →
             ∀ p, p ∈ parachains → updated (vs_info vs) (js_key (pc_resolvedId p)) = true)
          ∧ (vs_failed vs = true → 3 ≤ vs_try_n vs)
          ∧ ∀ p, p ∈ parachains → is_Some (info !! js_key (pc_resolvedId p)))
     ∧ (∀ p, p ∈ parachains → info !! js_key (pc_resolvedId p) = None →
          ∀ relay_old_version relay_new s0,
            outcome (after_relay_upgrade w fuel types parachains info relay_old_version
                       relay_new delay s0) ≠ Returned tt))
  ∧ fst (checkConfig sample_world (Some headless_plan) (Some "cfg") true) = true
  ∧ is_Some (launched headless_plan)
  ∧ outcome (sample_upgrade_test headless_plan) = Thrown TypeError
  ∧ reports (events (sample_upgrade_test headless_plan))
    = [RelayFailed 1; WaitingCodeValidationDelay].
Proof.
  split.
  - intros w fuel types delay parachains info s. cbn zeta. unfold verify_upgrades.
    split; [|split; [|split]].
    + apply (while_verify_passes w types fuel delay parachains
               {| vs_try_n := 0; vs_failed := true; vs_first_pass := true;
                  vs_info := info |}).
    + intros Hfuel. apply while_verify_fuel. cbn. lia.
    + intros vs H. split; [|split].
      * apply (while_verify_success w types _ _ _ _ _ _ H). discriminate.
      * intros Hf. apply while_loop_exit in H. unfold verify_cond in H.
        rewrite Hf, andb_true_r in H. apply Z.ltb_ge in H. exact H.
      * exact (verify_upgrades_reads_sessions w fuel types delay parachains info vs s H).
    + intros p Hp Hnone relay_old_version relay_new s0 H.
      destruct (after_relay_upgrade_spec w fuel types parachains info relay_old_version
                  relay_new delay s0) as [_ Hout]. cbn zeta in Hout.
      rewrite H in Hout.
      destruct (outcome (parachain_phases _ _ _ _ _ _ _ _)) as [[vs|]| | |] eqn:Hph;
        try discriminate.
      unfold parachain_phases in Hph.
      apply bind_outcome_inv in Hph as ([] & _ & Hph).
      apply bind_outcome_inv in Hph as ([] & _ & Hph).
      destruct (verify_upgrades_reads_sessions _ _ _ _ _ _ _ _ Hph p Hp) as [sess Hs].
      rewrite Hnone in Hs. discriminate.
  - split; [vm_compute; reflexivity|].
    split; [vm_compute; eexists; reflexivity|].
    split; vm_compute; reflexivity.
Qed.

(** ** The properties at the sample plans *)

Lemma sample_world_cooperative : cooperative sample_world.
Proof.
  split; try reflexivity.
  - intros bin chain. eexists. split; [reflexivity | eexists; reflexivity].
  - intros bin chain. eexists. reflexivity.
  - intros bin chain. eexists. reflexivity.
  - intros t []; reflexivity.
  - intros path. eexists. reflexivity.
Qed.

(** C7 at the first parachain of the sample plan: no id is given, the
    generated spec has [para_id: 2000], the resolved id is ["2000"], with
    and without the guard. *)
Lemma resolved_id_read_from_generated_spec_sample :
  let p := parachain_entry None [collator 9988] in
  outcome (resolve_parachain sample_world "cfg" p initial_state)
  = Returned (set_resolvedId p (Some "2000"))
  ∧ outcome (resolve_parachain_unguarded sample_world "cfg" p initial_state)
    = Returned (set_resolvedId p (Some "2000")).
Proof.
  intros p.
  destruct (resolved_id_read_from_generated_spec sample_world "cfg" p
              {| sj_paraId := None; sj_para_id := Some 2000 |} initial_state
              eq_refl eq_refl eq_refl) as (Hguard & _ & _ & _ & H).
  rewrite (Hguard eq_refl). split; exact (H eq_refl eq_refl).
Defined.



(** C10 at the plan with one relay node and one parachain. *)
Lemma run_rejects_too_many_parachains_sample :
  fst (checkConfig sample_world (Some crowded_plan) None false) = false
  ∧ ∀ s, outcome (run sample_world "cfg" (Some crowded_plan) s) = Returned None
         ∧ events (run sample_world "cfg" (Some crowded_plan) s) = []
         ∧ st_procs (final (run sample_world "cfg" (Some crowded_plan) s)) = st_procs s.
Proof.
  apply (run_rejects_too_many_parachains sample_world "cfg" crowded_plan
           (relaychain_of [relay_node "alice" 9944])
           [parachain_entry (Some "2000") [collator 9988]]);
    [reflexivity | reflexivity | cbn; lia].
Defined.

(** C9 at the sample plan with a simple parachain: the check passes and
    [run] returns a plan, in which the two parachains have the resolved id
    ["2000"], the simple parachain its own id ["3000"], and the three relay
    nodes the key that was drawn. *)
Lemma run_returns_null_iff_check_fails_sample :
  ∃ plan relaychain,
    outcome (run sample_world "cfg" (Some mixed_plan) initial_state) = Returned (Some plan)
    ∧ fmap (map pc_resolvedId) (lc_parachains plan) = Some [Some "2000"; Some "2000"]
    ∧ fmap (map sp_resolvedId) (lc_simpleParachains plan) = Some [Some "3000"]
    ∧ lc_relaychain plan = Some relaychain
    ∧ map rn_nodeKey (rc_nodes relaychain) = [Some "ab"; Some "ab"; Some "ab"].
Proof.
  destruct (run_returns_null_iff_check_fails sample_world "cfg" (Some mixed_plan)
              initial_state) as (_ & _ & _ & Hret).
  destruct (Hret sample_world_cooperative) as [plan Hrun]; [vm_compute; reflexivity|].
  exists plan. rewrite Hrun.
  assert (Hcomputed : outcome (run sample_world "cfg" (Some mixed_plan) initial_state)
                      = Returned (launched mixed_plan)) by (vm_compute; reflexivity).
  rewrite Hcomputed in Hrun. injection Hrun as Hrun.
  vm_compute in Hrun. subst plan.
  eexists. split; [reflexivity|]. split; [reflexivity|]. split; [reflexivity|].
  split; reflexivity.
Defined.

(** C1 at two parachains and a simple parachain that all resolved to
    ["2000"], a simple parachain of id ["3000"], and a parachain and a
    simple parachain of id ["constructor"]: one registration entry for
    ["2000"], which is in [registeredParachains], one for ["3000"], and
    none for ["constructor"]. *)
Lemma addParachainsToGenesis_registers_once_sample :
  let parachains :=
    [set_resolvedId (parachain_entry None [collator 9988]) (Some "2000");
     set_resolvedId (parachain_entry (Some "2000") [collator 9999]) (Some "2000");
     set_resolvedId (parachain_entry (Some "constructor") [collator 9911])
       (Some "constructor")] in
  let simpleParachains :=
    [resolve_simple (simple_entry "2000" "9977"); resolve_simple (simple_entry "3000" "9978");
     resolve_simple (simple_entry "constructor" "9979")] in
  let r := addParachainsToGenesis sample_world "cfg" "rococo-local.json" parachains
             simpleParachains initial_state in
  outcome r = Returned tt
  ∧ registrations (events r) "2000" = 1%nat
  ∧ is_registered (st_registered (final r)) "2000" = true
  ∧ registrations (events r) "3000" = 1%nat
  ∧ is_registered (st_registered (final r)) "3000" = true
  ∧ registrations (events r) "constructor" = 0%nat.
Proof.
  intros parachains simpleParachains r.
  destruct (addParachainsToGenesis_registers_once sample_world "cfg" "rococo-local.json"
              parachains simpleParachains initial_state eq_refl)
    as (_ & Hnone & H & _ & _ & Hret).
  pose proof (Hret sample_world_cooperative) as Hout.
  destruct (H Hout) as [Hfull Hsimple].
  destruct (Hfull (set_resolvedId (parachain_entry None [collator 9988]) (Some "2000"))
              (list_elem_of_here _ _) eq_refl) as [H2000 Hreg].
  destruct (Hsimple (resolve_simple (simple_entry "3000" "9978"))
              (list_elem_of_further _ _ _ (list_elem_of_here _ _)) eq_refl)
    as [H3000 Hreg'].
  exact (conj Hout (conj H2000 (conj Hreg (conj H3000
           (conj Hreg' (Hnone "constructor" eq_refl)))))).
Defined.

(** Two parachains that share the id ["constructor"], a name every object
    inherits: [addParachainsToGenesis] returns with no registration entry
    written, for that id or any other, and with [registeredParachains]
    still empty. *)
Lemma inherited_id_is_never_registered :
  let parachains :=
    [set_resolvedId (parachain_entry (Some "constructor") [collator 9988])
       (Some "constructor");
     set_resolvedId (parachain_entry (Some "constructor") [collator 9999])
       (Some "constructor")] in
  let r := addParachainsToGenesis sample_world "cfg" "rococo-local.json" parachains []
             initial_state in
  outcome r = Returned tt
  ∧ registrations (events r) "constructor" = 0%nat
  ∧ events r = []
  ∧ st_registered (final r) = ∅.
Proof. vm_compute. repeat split. Qed.

(** C8 at the first parachain of the sample plan. *)
Lemma balance_after_start_and_authorize_before_enact_sample :
  precedes (ECollatorReady 9988) (ESubmit (TxSetBalance "5Ec42000" "1000"))
    (events (launch_parachain sample_world "cfg" "rococo-local-raw.json" false false
               (set_resolvedId (parachain_entry None [collator 9988]) (Some "2000"))
               initial_state)).
Proof.
  apply (proj1 (balance_after_start_and_authorize_before_enact sample_world)
           "cfg" "rococo-local-raw.json" false false
           (set_resolvedId (parachain_entry None [collator 9988]) (Some "2000"))
           initial_state [collator 9988] (collator 9988)).
  - reflexivity.
  - apply list_elem_of_here.
Defined.

(** C4 at two relay nodes of the launched sample plan, epoch length 100
    and block time 6000: the second stop comes after waits of 1200000 ms, and it is the stop of the
    second node. *)
Lemma relay_rolling_restart_timing_sample :
  let alice := relay_node "alice" 9944 in
  let bob := relay_node "bob" 9955 in
  let before := (replicate 600 (EDelay 1000)
                 ++ [EKill (KName "alice"); EStartNode "polkadot-v2" alice "raw.json"]
                 ++ replicate 600 (EDelay 1000))%list in
  100 * 6000 * Z.of_nat (S (stops before)) ≤ elapsed before
  ∧ ∃ node l2', [alice; bob] !! stops before = Some node
                ∧ KName "bob" = KName (rn_name node)
                ∧ [EStartNode "polkadot-v2" bob "raw.json"]
                  = EStartNode "polkadot-v2" node "raw.json" :: l2'.
Proof.
  intros alice bob before.
  apply (proj1 (relay_rolling_restart_timing "polkadot-v2" "raw.json"
                  {| ri_specVersion := 1; ri_epochLength := 100; ri_blockTime := 6000 |}
                  [alice; bob] (after_launch sample_plan))
           before (KName "bob") [EStartNode "polkadot-v2" bob "raw.json"]).
  vm_compute. reflexivity.
Defined.

Lemma one_upgraded_cooperative : cooperative one_upgraded.
Proof.
  split; try reflexivity.
  - intros bin chain. eexists. split; [reflexivity | eexists; reflexivity].
  - intros bin chain. eexists. reflexivity.
  - intros bin chain. eexists. reflexivity.
  - intros t []; reflexivity.
  - intros path. eexists. reflexivity.
Qed.

(** C5 at two parachains with a session each, when the runtime of the
    first is at a new version and the runtime of the second is not: the
    first poll marks the first session; the first pass reports the first
    parachain as upgraded, and the second and third pass poll the second
    parachain only, so that the version of the first is read once and the
    version of the second three times; the first session is marked at the
    end, the second is not. *)
Lemma upgrade_sessions_monotone_sample :
  let r := verify_upgrades one_upgraded 4 TypesObject 12000 two_parachains two_sessions
             initial_state in
  outcome (verify_parachain one_upgraded TypesObject (false, two_sessions)
             (set_resolvedId (parachain_entry (Some "2000") [collator 9988]) (Some "2000"))
             initial_state)
  = Returned (false, <["2000" := mark_updated (sample_session false)]> two_sessions)
  ∧ reports (events r)
    = [WaitingCodeValidationDelay; ParachainUpgraded "2000" 1 2; ParachainFailed "2001" 1;
       WaitingFewBlocksMore; ParachainFailed "2001" 1;
       WaitingFewBlocksMore; ParachainFailed "2001" 1]
  ∧ reads_of 9988 (events r) = 1%nat
  ∧ reads_of 9999 (events r) = 3%nat
  ∧ polled_once "2000" (events r)
  ∧ ∃ vs, outcome r = Returned (Some vs)
          ∧ updated (vs_info vs) "2000" = true ∧ updated (vs_info vs) "2001" = false.
Proof.
  intros r.
  destruct (upgrade_sessions_monotone one_upgraded TypesObject)
    as (_ & Hpoll & _ & _ & Hloop & _).
  split; [|split; [|split; [|split; [|split]]]].
  - destruct (Hpoll one_upgraded_cooperative false two_sessions
                (set_resolvedId (parachain_entry (Some "2000") [collator 9988]) (Some "2000"))
                (sample_session false) initial_state eq_refl eq_refl)
      as (t & _ & _ & Hflip & _).
    apply Hflip. discriminate.
  - vm_compute. reflexivity.
  - vm_compute. reflexivity.
  - vm_compute. reflexivity.
  - exact (tracks_once _ _ _ (Hloop 4%nat 12000 two_parachains two_sessions initial_state)
             "2000").
  - eexists. split; [vm_compute; reflexivity|]. split; vm_compute; reflexivity.
Defined.

(** C5 fails on src/src/runner.ts: with the same two parachains, the
    verification loop of that runner reads the version of the first
    parachain on each of its ten passes, though the first pass saw it
    upgraded. *)
Lemma unflagged_verification_polls_again :
  let r := verify_upgrades_unflagged one_upgraded true 11 TypesObject two_parachains
             two_sessions initial_state in
  outcome r = Returned (Some (10, true))
  ∧ reads_of 9988 (events r) = 10%nat
  ∧ length (List.filter (fun report => match report with
                                       | ParachainUpgraded _ _ _ => true
                                       | _ => false
                                       end) (reports (events r))) = 10%nat.
Proof. vm_compute. repeat split. Qed.


(** * Further properties of the code *)

(** ** The command lines of spawn.ts *)

Lemma findIndex_Some {A} (f : A → bool) (l : list A) (i : nat) :
  findIndex f l = Some i →
  ∃ x, l !! i = Some x ∧ f x = true ∧ Forall (fun y => f y = false) (take i l).
Proof.
  revert i. induction l as [|y l IH]; intros i H; [discriminate|].
  cbn [findIndex] in H. destruct (f y) eqn:Hy.
  - injection H as <-. exists y. repeat split; [exact Hy | constructor].
  - destruct (findIndex f l) as [j|]; [|discriminate]. injection H as <-.
    destruct (IH j eq_refl) as (x & Hx & Hfx & Hall). exists x.
    repeat split; [exact Hx | exact Hfx | constructor; assumption].
Qed.

Lemma findIndex_None {A} (f : A → bool) (l : list A) :
  findIndex f l = None → Forall (fun y => f y = false) l.
Proof.
  induction l as [|y l IH]; intros H; [constructor|].
  cbn [findIndex] in H. destruct (f y) eqn:Hy; [discriminate|].
  destruct (findIndex f l); [discriminate|]. constructor; auto.
Qed.

Lemma not_separator (l : list string) :
  Forall (fun y => String.eqb "--" y = false) l ↔ ("--" ∉ l).
Proof.
  rewrite Forall_forall. split.
  - intros H Hin. specialize (H _ Hin). rewrite String.eqb_refl in H. discriminate.
  - intros H y Hy. destruct (String.eqb_spec "--" y) as [<-|]; [contradiction | reflexivity].
Qed.

Lemma split_flags_spec (fs : list string) :
  let '(flags_parachain, flags_collator) := split_flags (Some fs) in
  ∃ own, flags_parachain = Some own
         ∧ ("--" ∉ own)
         ∧ match flags_collator with
           | Some relay => fs = (own ++ "--" :: relay)%list
           | None => fs = own
           end
         ∧ ("--" ∈ fs ↔ is_Some flags_collator).
Proof.
  unfold split_flags. destruct (findIndex (String.eqb "--") fs) as [i|] eqn:Hi.
  - apply findIndex_Some in Hi as (x & Hx & Heq & Hall).
    apply String.eqb_eq in Heq. subst x.
    exists (take i fs). repeat split.
    + apply not_separator. exact Hall.
    + rewrite <- (take_drop_middle fs i "--" Hx) at 1. reflexivity.
    + intros _. eauto.
    + intros _. eapply list_elem_of_lookup_2. exact Hx.
  - apply findIndex_None in Hi. apply not_separator in Hi.
    exists fs. repeat split; [exact Hi | intros H; contradiction | intros [? H]; discriminate].
Qed.

Lemma first_separator_unique (a b a' b' : list string) :
  (a ++ "--" :: b = a' ++ "--" :: b')%list → ("--" ∉ a) → ("--" ∉ a') → a = a' ∧ b = b'.
Proof.
  revert a'. induction a as [|x a IH]; intros [|x' a'] H Ha Ha'; cbn in H.
  - injection H as <-. auto.
  - injection H as <- _. exfalso. apply Ha'. left.
  - injection H as -> _. exfalso. apply Ha. left.
  - injection H as <- H. destruct (IH a' H) as [-> ->]; [| |auto].
    + intros Hin. apply Ha. right. exact Hin.
    + intros Hin. apply Ha'. right. exact Hin.
Qed.

(** X1: the flags of a collator are split at their first ["--"]: whenever
    the flags read [own ++ "--" :: relay] with no ["--"] in [own], the
    parachain gets exactly [own] and the embedded relay node exactly
    [relay]; flags without ["--"] all go to the parachain and the relay
    node gets none; and without flags neither gets any. *)
Theorem split_flags_at_first_separator :
  (∀ own relay, ("--" ∉ own) →
     split_flags (Some (own ++ "--" :: relay)%list) = (Some own, Some relay))
  ∧ (∀ fs, ("--" ∉ fs) → split_flags (Some fs) = (Some fs, None))
  ∧ split_flags None = (None, None)
  ∧ (∀ fs own relay, split_flags (Some fs) = (Some own, relay) →
       ("--" ∉ own) ∧ fs = (own ++ match relay with
                                   | Some relay => "--" :: relay
                                   | None => []
                                   end)%list).
Proof.
  split; [|split; [|split]].
  - intros own relay Hown.
    pose proof (split_flags_spec (own ++ "--" :: relay)) as H.
    destruct (split_flags _) as [flags_parachain flags_collator].
    destruct H as (own' & -> & Hown' & Hfs & Hsep).
    destruct flags_collator as [relay'|].
    + destruct (first_separator_unique _ _ _ _ Hfs Hown Hown') as [-> ->]. reflexivity.
    + exfalso. destruct (proj1 Hsep) as [? ?]; [|discriminate].
      apply elem_of_app. right. left.
  - intros fs Hfs. pose proof (split_flags_spec fs) as H.
    destruct (split_flags _) as [flags_parachain flags_collator].
    destruct H as (own' & -> & Hown' & Hfs' & Hsep).
    destruct flags_collator as [relay'|]; [|subst; reflexivity].
    exfalso. apply Hfs. apply Hsep. eauto.
  - reflexivity.
  - intros fs own relay Heq. pose proof (split_flags_spec fs) as H. rewrite Heq in H.
    destruct H as (own' & Hown & Hno & Hfs & _). injection Hown as <-.
    split; [exact Hno|]. destruct relay; [exact Hfs | rewrite app_nil_r; exact Hfs].
Qed.

Lemma collator_own_args_no_separator (wsPort : Z) (rpcPort : option Z) (port : Z)
    (options : CollatorOptions) :
  "--" ∉ collator_own_args wsPort rpcPort port options.
Proof.
  unfold collator_own_args. rewrite !not_elem_of_app, !not_elem_of_cons.
  repeat split; try discriminate; try apply not_elem_of_nil.
  - destruct rpcPort as [n|]; [destruct (n =? 0)|]; rewrite ?not_elem_of_cons;
      repeat split; try discriminate; apply not_elem_of_nil.
  - destruct (co_basePath options) as [path|]; [destruct (truthy_string path)|];
      rewrite not_elem_of_cons; split; try discriminate; apply not_elem_of_nil.
  - destruct (co_spec options) as [chain|]; [destruct (truthy_string chain)|];
      rewrite ?not_elem_of_cons; repeat split; try discriminate; apply not_elem_of_nil.
  - destruct (co_name options) as [[|c name]|]; cbn [truthy_string String.eqb negb];
      try apply not_elem_of_nil.
    rewrite not_elem_of_cons. split; [discriminate | apply not_elem_of_nil].
  - destruct (co_onlyOneParachainNode options); rewrite ?not_elem_of_cons;
      repeat split; try discriminate; apply not_elem_of_nil.
Qed.

(** X2: the command line of a collator.  The call fails only on flags
    that are not an array; otherwise the first ["--"] of the command line
    is the separator the function writes, the relay chain spec comes
    right after it, the part before it is the parachain's own arguments
    followed by the user's flags up to their first ["--"], and the part
    after the spec is the rest of the user's flags. *)
Theorem startCollator_args_separator (wsPort : Z) (rpcPort : option Z) (port : Z)
    (options : CollatorOptions) :
  match startCollator_args wsPort rpcPort port options with
  | None => co_flags options = FlagsNotArray
  | Some args =>
      ∃ own relay,
        args = ((collator_own_args wsPort rpcPort port options ++ own)
                ++ "--" :: ("--chain=" +:+ co_relaySpec options) :: relay)%list
        ∧ ("--" ∉ (collator_own_args wsPort rpcPort port options ++ own)%list)
        ∧ match co_flags options with
          | FlagsArray fs =>
              (fs = (own ++ "--" :: relay)%list) ∨ (fs = own ∧ relay = [] ∧ ("--" ∉ fs))
          | _ => own = [] ∧ relay = []
          end
  end.
Proof.
  unfold startCollator_args.
  pose proof (collator_own_args_no_separator wsPort rpcPort port options) as Hown.
  destruct (co_flags options) as [|fs|]; cbn [flags_array mbind option_bind]; [| |reflexivity].
  - exists [], []. cbn [split_flags default]. rewrite !app_nil_r. repeat split.
    exact Hown.
  - pose proof (split_flags_spec fs) as Hsplit.
    destruct (split_flags (Some fs)) as [flags_parachain flags_collator].
    destruct Hsplit as (own & -> & Hno & Hfs & _).
    exists own, (default [] flags_collator). cbn [default]. repeat split.
    + rewrite <- (assoc_L (++)). reflexivity.
    + rewrite not_elem_of_app. split; assumption.
    + destruct flags_collator as [relay|]; cbn [default]; [left; exact Hfs|].
      right. subst own. auto.
Qed.

(** ** The tag of a binary's repository *)

Lemma append_cons (a : Ascii.ascii) (s t : string) :
  String a s +:+ t = String a (s +:+ t).
Proof. reflexivity. Qed.

Lemma append_snoc (s t : string) (c : Ascii.ascii) :
  s +:+ String c t = (s +:+ String c EmptyString) +:+ t.
Proof.
  induction s as [|a s IH]; [reflexivity|]. rewrite !append_cons, IH. reflexivity.
Qed.

Lemma lastIndexOf_None (c : Ascii.ascii) (s : string) :
  lastIndexOf c s = None ↔ has_char c s = false.
Proof.
  induction s as [|a s IH]; cbn [lastIndexOf has_char]; [tauto|].
  destruct (lastIndexOf c s) as [i|].
  - split; [discriminate|]. intros H. apply orb_false_elim in H as [_ H].
    apply IH in H. discriminate.
  - rewrite (proj1 IH eq_refl), orb_false_r. destruct (Ascii.eqb a c); split; congruence.
Qed.

Lemma lastIndexOf_Some (c : Ascii.ascii) (s : string) (i : nat) :
  lastIndexOf c s = Some i →
  ∃ before after, s = before +:+ String c after
                  ∧ substring 0 (S i) s = before +:+ String c EmptyString
                  ∧ has_char c after = false.
Proof.
  revert i. induction s as [|a s IH]; intros i H; [discriminate|].
  cbn [lastIndexOf] in H. destruct (lastIndexOf c s) as [j|] eqn:Hj.
  - injection H as <-. destruct (IH j eq_refl) as (before & after & -> & Hsub & Hafter).
    exists (String a before), after. repeat split; [|exact Hafter].
    change (substring 0 (S (S j)) (String a (before +:+ String c after)))
      with (String a (substring 0 (S j) (before +:+ String c after))).
    rewrite Hsub. reflexivity.
  - destruct (Ascii.eqb_spec a c) as [->|]; [|discriminate]. injection H as <-.
    exists EmptyString, s.
    split; [reflexivity | split; [destruct s; reflexivity | apply lastIndexOf_None; exact Hj]].
Qed.

Lemma remove_newlines_clean (s : string) :
  has_char line_feed (remove_newlines s) = false ∧ has_char carriage_return (remove_newlines s) = false.
Proof.
  induction s as [|a s [IH1 IH2]]; [split; reflexivity|].
  cbn [remove_newlines]. destruct (Ascii.eqb a line_feed) eqn:H1; [split; assumption|].
  destruct (Ascii.eqb a carriage_return) eqn:H2; [split; assumption|].
  cbn [orb has_char]. rewrite H1, H2, IH1, IH2. split; reflexivity.
Qed.

Lemma remove_newlines_id (s : string) :
  has_char line_feed s = false → has_char carriage_return s = false → remove_newlines s = s.
Proof.
  induction s as [|a s IH]; [reflexivity|]. cbn [has_char remove_newlines].
  intros H1 H2. apply orb_false_elim in H1 as [-> H1]. apply orb_false_elim in H2 as [-> H2].
  cbn [orb]. rewrite (IH H1 H2). reflexivity.
Qed.

(** X3: the directory [getGitRepositoryTag] asks the tag in is the part
    of the location up to and including its last slash: the location is
    that directory followed by a name without a slash, and the directory
    is empty or ends with a slash.  For a location without a slash the
    directory is empty, and the command then has nothing between [-C] and
    [describe]. *)
Theorem git_directory_is_the_part_up_to_the_last_slash (location : string) :
  (∃ name, location = git_directory location +:+ name
           ∧ has_char slash name = false
           ∧ (git_directory location = ""
              ∨ ∃ parent, git_directory location = parent +:+ "/"))
  ∧ (has_char slash location = false →
     git_directory location = ""
     ∧ git_command location = "git -C  describe --tags --abbrev=0").
Proof.
  unfold git_command, git_directory. split.
  - destruct (lastIndexOf slash location) as [i|] eqn:Hi.
    + apply lastIndexOf_Some in Hi as (before & after & Hloc & Hsub & Hafter).
      rewrite Hsub. exists after. split; [|split; [exact Hafter | right; eauto]].
      rewrite Hloc. apply append_snoc.
    + exists location. apply lastIndexOf_None in Hi.
      assert (Hsub : substring 0 0 location = "") by (destruct location; reflexivity).
      rewrite Hsub. repeat split; [exact Hi | left; reflexivity].
  - intros H. apply lastIndexOf_None in H. rewrite H.
    assert (Hsub : substring 0 0 location = "") by (destruct location; reflexivity).
    rewrite Hsub. split; reflexivity.
Qed.

(** X4: the tag [getGitRepositoryTag] resolves with holds no line feed and
    no carriage return; it is empty when the command's error output
    includes "fatal"; otherwise it is the command's output with every line
    break dropped, so an output of one line ended by a line feed gives that
    line, and cleaning a second time changes nothing. *)
Theorem git_tag_has_no_line_break (stdout stderr : string) :
  has_char line_feed (git_tag stdout stderr) = false
  ∧ has_char carriage_return (git_tag stdout stderr) = false
  ∧ (includes "fatal" stderr = true → git_tag stdout stderr = "")
  ∧ (includes "fatal" stderr = false →
     git_tag stdout stderr = remove_newlines stdout
     ∧ ∀ line, has_char line_feed line = false → has_char carriage_return line = false →
               stdout = line +:+ String line_feed EmptyString →
               git_tag stdout stderr = line)
  ∧ remove_newlines (git_tag stdout stderr) = git_tag stdout stderr.
Proof.
  unfold git_tag. destruct (includes "fatal" stderr).
  - repeat split; try reflexivity; discriminate.
  - destruct (remove_newlines_clean stdout) as [H1 H2].
    split; [exact H1 | split; [exact H2 | split; [discriminate | split]]].
    + intros _. split; [reflexivity|]. intros line Hl1 Hl2 ->.
      clear H1 H2. induction line as [|a line IH]; [reflexivity|].
      cbn [has_char] in Hl1, Hl2.
      apply orb_false_elim in Hl1 as [Ha1 Hl1]. apply orb_false_elim in Hl2 as [Ha2 Hl2].
      rewrite append_cons. cbn [remove_newlines]. rewrite Ha1, Ha2. cbn [orb].
      f_equal. exact (IH Hl1 Hl2).
    + apply remove_newlines_id; assumption.
Qed.

(** ** The status callback of a transaction *)

Lemma settle_app (finalization : bool) (results later : list TxResult) :
  settle finalization (results ++ later)
  = match settle finalization results with
    | Some verdict => Some verdict
    | None => settle finalization later
    end.
Proof.
  induction results as [|r results IH]; [reflexivity|]. cbn [app settle].
  destruct (tr_isInBlock r); [destruct finalization; [exact IH | reflexivity]|].
  destruct (tr_isFinalized r); [reflexivity|].
  destruct (tr_isError r); [reflexivity | exact IH].
Qed.

(** X5: the promise of [executeTransaction] is settled by the first
    status that settles it: statuses delivered after it change nothing,
    and statuses that settle nothing can be dropped from the front.  A
    status that is neither in a block, nor final, nor an error settles
    nothing. *)
Theorem transaction_settled_once (finalization : bool) (results later : list TxResult) :
  (∀ verdict, settle finalization results = Some verdict →
     settle finalization (results ++ later) = Some verdict)
  ∧ (settle finalization results = None →
     settle finalization (results ++ later) = settle finalization later)
  ∧ (Forall (fun r => tr_isInBlock r = false ∧ tr_isFinalized r = false
                      ∧ tr_isError r = false) results →
     settle finalization results = None).
Proof.
  rewrite settle_app. split; [|split].
  - intros verdict ->. reflexivity.
  - intros ->. reflexivity.
  - induction 1 as [|r results (H1 & H2 & H3) _ IH]; [reflexivity|].
    cbn [settle]. rewrite H1, H2, H3. exact IH.
Qed.


(** ** The configuration check *)

(** The check of a plan and of the same plan with another list of simple
    parachains go the same way. *)
Lemma checkConfig_simpleParachains (w : World) (c : LaunchConfig)
    (sps : list SimpleParachainConfig) (dir : option string) (upgrade : bool) :
  checkConfig w (Some (set_simpleParachains c (Some sps))) dir upgrade
  = (fst (checkConfig w (Some c) dir upgrade), Some (set_simpleParachains c (Some sps))).
Proof.
  unfold checkConfig. cbn [set_simpleParachains lc_relaychain lc_parachains
    lc_simpleParachains].
  destruct (lc_relaychain c) as [relaychain|]; [|reflexivity].
  destruct (negb (truthy_string (rc_bin relaychain))); [reflexivity|].
  destruct (negb (truthy_string (rc_chain relaychain))); [reflexivity|].
  destruct (length (rc_nodes relaychain) =? 0)%nat; [reflexivity|].
  destruct (negb (forallb _ (rc_nodes relaychain))); [reflexivity|].
  destruct (lc_parachains c) as [parachains|]; [|reflexivity].
  destruct (length (rc_nodes relaychain) <=? length parachains)%nat; [reflexivity|].
  destruct (mapM pc_nodes parachains) as [nodess|]; [|reflexivity].
  destruct (negb (forallb _ nodess)); [reflexivity|].
  match goal with |- context [if negb ?b then _ else _] => destruct b end;
    cbn [negb fst]; [|reflexivity].
  destruct (lc_simpleParachains c); reflexivity.
Qed.

(** X7: the check is idempotent: a plan that passes is left with the
    only change that a missing list of simple parachains becomes the empty
    list, and the plan as the check leaves it passes the same check again
    and is left as it is. *)
Theorem checkConfig_idempotent (w : World) (raw : option LaunchConfig)
    (dir : option string) (upgrade : bool) :
  fst (checkConfig w raw dir upgrade) = true →
  ∃ c, raw = Some c
       ∧ snd (checkConfig w raw dir upgrade)
         = Some (set_simpleParachains c (Some (default [] (lc_simpleParachains c))))
       ∧ checkConfig w (snd (checkConfig w raw dir upgrade)) dir upgrade
         = (true, snd (checkConfig w raw dir upgrade)).
Proof.
  intros H.
  destruct (checkConfig_true w raw dir upgrade H) as (c & rc & ps & -> & _ & _ & _ & _ & Hsnd).
  exists c. split; [reflexivity | split; [exact Hsnd|]].
  rewrite Hsnd, checkConfig_simpleParachains, H. reflexivity.
Qed.

(** X8: a plan that passes the check made for an upgrade test passes the
    check [run] makes, which leaves the same plan; the directory of the
    configuration plays no part in the check [run] makes; and the check
    for an upgrade test fails when no directory is given, or an empty
    one. *)
Theorem checkConfig_for_upgrade_implies_plain (w : World) (raw : option LaunchConfig) :
  (∀ dir, fst (checkConfig w raw dir true) = true →
          checkConfig w raw None false = checkConfig w raw dir true)
  ∧ (∀ dir, checkConfig w raw dir false = checkConfig w raw None false)
  ∧ fst (checkConfig w raw None true) = false
  ∧ fst (checkConfig w raw (Some "") true) = false.
Proof.
  unfold checkConfig. destruct raw as [c|]; [|repeat split; intros; first [discriminate | reflexivity]].
  destruct (lc_relaychain c) as [relaychain|];
    [|repeat split; intros; first [discriminate | reflexivity]].
  destruct (negb (truthy_string (rc_bin relaychain)));
    [repeat split; intros; first [discriminate | reflexivity]|].
  destruct (negb (truthy_string (rc_chain relaychain)));
    [repeat split; intros; first [discriminate | reflexivity]|].
  destruct (length (rc_nodes relaychain) =? 0)%nat;
    [repeat split; intros; first [discriminate | reflexivity]|].
  destruct (negb (forallb _ (rc_nodes relaychain)));
    [repeat split; intros; first [discriminate | reflexivity]|].
  destruct (lc_parachains c) as [parachains|];
    [|repeat split; intros; first [discriminate | reflexivity]].
  destruct (length (rc_nodes relaychain) <=? length parachains)%nat;
    [repeat split; intros; first [discriminate | reflexivity]|].
  destruct (mapM pc_nodes parachains) as [nodess|];
    [|repeat split; intros; first [discriminate | reflexivity]].
  destruct (negb (forallb _ nodess));
    [repeat split; intros; first [discriminate | reflexivity]|].
  cbn [negb]. split; [|split; [|split]]; try reflexivity.
  intros dir H.
  match type of H with context [if negb ?b then _ else _] => destruct b end;
    [reflexivity | discriminate].
Qed.

(** ** Node keys and boot nodes *)

Lemma generate_node_key_spec (w : World) (node node' : RelayNodeConfig) (address : string)
    (s : State) :
  outcome (generate_node_key w node s) = Returned (node', address) →
  ∃ key, rn_nodeKey node' = Some key
         ∧ node' = set_nodeKey node (Some key)
         ∧ (truthy_opt (rn_nodeKey node) = true → rn_nodeKey node = Some key)
         ∧ address = bootnode (rn_port node) (w_peerId w key)
         ∧ events (generate_node_key w node s) = [EGenerateKeyPair key].
Proof.
  unfold generate_node_key. intros H.
  apply bind_Returned_inv in H as (t & Ht & H & ->).
  apply bind_Returned_inv in H as ([] & Hext & H & ->).
  cbn in Ht. injection Ht as <-. cbn in H. injection H as <- <-.
  eexists. split; [reflexivity | split; [reflexivity | split; [|split; [reflexivity|]]]].
  - intros Hkey. rewrite Hkey. destruct (rn_nodeKey node); [reflexivity | discriminate].
  - cbn [events app]. rewrite app_nil_r.
    unfold ext, bind, now, emit, ret, throw, hang, stop. cbn.
    destruct (w_ext w (st_time s)); reflexivity.
Qed.

(** X9: when [generateNodeKeys] returns, every relay node has a key, a
    key the plan gave is kept, the plan is otherwise unchanged, there is
    one boot node address per relay node, in the order of the nodes, made
    of the node's port and the peer id of its key, and the only effects
    are the derivations of the key pairs, one per node, in that order. *)
Theorem generateNodeKeys_keeps_given_keys (w : World) (c c' : LaunchConfig)
    (relaychain : RelayChainConfig) (bootnodes : list string) (s : State) :
  lc_relaychain c = Some relaychain →
  outcome (generateNodeKeys w c s) = Returned (c', bootnodes) →
  ∃ keys,
    length keys = length (rc_nodes relaychain)
    ∧ c' = set_relaychain c
             (Some (set_nodes relaychain
                      (zip_with (fun node key => set_nodeKey node (Some key))
                         (rc_nodes relaychain) keys)))
    ∧ Forall2 (fun node key => truthy_opt (rn_nodeKey node) = true →
                               rn_nodeKey node = Some key)
        (rc_nodes relaychain) keys
    ∧ bootnodes = zip_with (fun node key => bootnode (rn_port node) (w_peerId w key))
                    (rc_nodes relaychain) keys
    ∧ events (generateNodeKeys w c s) = map EGenerateKeyPair keys.
Proof.
  intros Hrc H. unfold generateNodeKeys in *. rewrite Hrc in *.
  apply bind_Returned_inv in H as (keyed & Hkeyed & H & ->).
  cbn in H. injection H as <- <-. cbn [events]. rewrite app_nil_r.
  revert keyed s Hkeyed. induction (rc_nodes relaychain) as [|node nodes IH];
    intros keyed s Hkeyed.
  - cbn in Hkeyed. injection Hkeyed as <-. exists []. repeat split. constructor.
  - cbn [for_of_map] in *.
    apply bind_Returned_inv in Hkeyed as ([node' address] & Hnode & Hkeyed & ->).
    apply bind_Returned_inv in Hkeyed as (rest & Hrest & Hkeyed & ->).
    cbn in Hkeyed. injection Hkeyed as <-.
    apply generate_node_key_spec in Hnode as (key & _ & -> & Hkept & -> & ->).
    destruct (IH _ _ Hrest) as (keys & Hlen & Hc & Hkeys & Hboot & Hev).
    exists (key :: keys). cbn [length zip_with map fst snd events app].
    rewrite Hlen, Hboot, Hev, app_nil_r.
    injection Hc as Hnodes. rewrite <- Hnodes.
    repeat split. constructor; assumption.
Qed.

(** ** Waiting *)

Lemma countdown_unguarded_tty (i : nat) (s : State) :
  countdown_unguarded true i s = countdown i s.
Proof.
  revert s. induction i as [|i IH]; intros s; [reflexivity|].
  cbn [countdown_unguarded countdown].
  rewrite !(bind_Returned (delay 1000) _ s tt) by reflexivity.
  rewrite (bind_Returned (ret tt) _ _ tt) by reflexivity.
  cbn [outcome events final ret app]. rewrite IH. reflexivity.
Qed.

Lemma countdown_unguarded_throws (i : nat) (s : State) :
  outcome (countdown_unguarded false (S i) s) = Thrown TypeError
  ∧ events (countdown_unguarded false (S i) s) = [EDelay 1000].
Proof. split; reflexivity. Qed.

Lemma whole_seconds_positive (time : Z) :
  0 < time → ∃ i, Z.to_nat (ceil_div time 1000) = S i.
Proof.
  intros Htime. unfold ceil_div.
  assert (- time / 1000 < 0) by (apply Z.div_lt_upper_bound; lia).
  exists (Nat.pred (Z.to_nat (- (- time / 1000)))). lia.
Qed.

(** X10: [waitWithTimer] of part_002, which asks [isTTY] before it
    clears the line, always returns, touches neither the process table nor
    the registered parachains, and waits whole seconds: none for a time
    that is not positive, otherwise at least the time asked for and less
    than a second more, and exactly the time asked for when it is a number
    of whole seconds.  [waitWithTimer] of src/src/runner.ts, which clears
    the line without asking, does the same on a terminal and for a time
    that is not positive; for a positive time on an output that is no
    terminal it throws a TypeError after the first second. *)
Theorem waitWithTimer_waits_whole_seconds (time : Z) (s : State) :
  let r := waitWithTimer time s in
  outcome r = Returned tt
  ∧ st_procs (final r) = st_procs s
  ∧ (∃ seconds, events r = replicate seconds (EDelay 1000)
                ∧ elapsed (events r) = 1000 * Z.of_nat seconds)
  ∧ (time ≤ 0 → events r = [])
  ∧ (0 ≤ time → time ≤ elapsed (events r) < time + 1000)
  ∧ (0 ≤ time → time mod 1000 = 0 → elapsed (events r) = time)
  ∧ waitWithTimer_unguarded true time s = r
  ∧ (time ≤ 0 → waitWithTimer_unguarded false time s = r)
  ∧ (0 < time →
     outcome (waitWithTimer_unguarded false time s) = Thrown TypeError
     ∧ events (waitWithTimer_unguarded false time s) = [EDelay 1000]).
Proof.
  cbn zeta.
  assert (Hnone : time ≤ 0 → Z.to_nat (ceil_div time 1000) = O).
  { intros Htime. unfold ceil_div.
    assert (0 ≤ - time / 1000) by (apply Z.div_pos; lia). lia. }
  repeat match goal with |- _ ∧ _ => split end.
  7: { apply countdown_unguarded_tty. }
  7: { intros Htime. unfold waitWithTimer_unguarded, waitWithTimer.
       rewrite (Hnone Htime). reflexivity. }
  7: { intros Htime. unfold waitWithTimer_unguarded.
       destruct (whole_seconds_positive time Htime) as (i & ->).
       apply countdown_unguarded_throws. }
  all: unfold waitWithTimer;
    destruct (countdown_events (Z.to_nat (ceil_div time 1000)) s) as (Ho & He & Hp).
  - exact Ho.
  - exact Hp.
  - rewrite He, elapsed_delays. eauto.
  - intros Htime. rewrite He, (Hnone Htime). reflexivity.
  - intros Htime. rewrite He, elapsed_delays. unfold ceil_div.
    pose proof (Z.mul_div_le (- time) 1000 ltac:(lia)).
    pose proof (Z.mul_succ_div_gt (- time) 1000 ltac:(lia)).
    assert (- time / 1000 ≤ 0) by (apply Z.div_le_upper_bound; lia). lia.
  - intros Htime Hmod. rewrite He, elapsed_delays. unfold ceil_div.
    apply Z.mod_divide in Hmod as [k ->]; [|lia].
    rewrite <- Z.mul_opp_l, Z.div_mul by lia. lia.
Qed.

(** ** The process table *)

Lemma bind_Returned_final {A B} (m : M A) (k : A → M B) (s : State) (b : B) :
  outcome (bind m k s) = Returned b →
  ∃ a, outcome (m s) = Returned a
       ∧ outcome (k a (final (m s))) = Returned b
       ∧ final (bind m k s) = final (k a (final (m s))).
Proof.
  intros H. destruct (bind_outcome_inv _ _ _ _ H) as (a & Ha & Hk).
  exists a. unfold bind. rewrite Ha. auto.
Qed.

Lemma keeps_ret {A} (a : A) : keeps_handles (ret a).
Proof. intros s key H. exact H. Qed.

Lemma keeps_stop {A} (o : Outcome A) : keeps_handles (stop o).
Proof. intros s key H. exact H. Qed.

Lemma keeps_bind {A B} (m : M A) (k : A → M B) :
  keeps_handles m → (∀ a, keeps_handles (k a)) → keeps_handles (bind m k).
Proof.
  intros Hm Hk s key H. unfold bind.
  destruct (outcome (m s)) as [a| | |]; cbn [final]; [apply Hk|..]; apply Hm; exact H.
Qed.

Lemma keeps_state {A} (m : M A) :
  (∀ s, st_procs (final (m s)) = st_procs s) → keeps_handles m.
Proof. intros Hm s key H. rewrite Hm. exact H. Qed.

Lemma keeps_spawn (key : string) : keeps_handles (spawn key).
Proof.
  intros s k H. unfold spawn, bind, get_procs, set_procs, ret. cbn.
  destruct (decide (key = k)) as [->|Hne];
    [rewrite lookup_insert_eq; eauto | rewrite lookup_insert_ne by exact Hne; exact H].
Qed.

Lemma keeps_killProcess (key : Key) : keeps_handles (killProcess key).
Proof.
  intros s k H. unfold killProcess, bind, get_procs, set_procs, emit, ret, throw, stop. cbn.
  destruct (st_procs s !! key_string key); cbn; [|exact H].
  destruct (decide (key_string key = k)) as [->|Hne];
    [rewrite lookup_insert_eq; eauto | rewrite lookup_insert_ne by exact Hne; exact H].
Qed.

Lemma keeps_for_of {A} (xs : list A) (body : A → M unit) :
  (∀ x, keeps_handles (body x)) → keeps_handles (for_of xs body).
Proof.
  intros H. induction xs as [|x xs IH]; cbn [for_of]; [apply keeps_ret|].
  apply keeps_bind; [apply H | intros _; exact IH].
Qed.

Lemma keeps_countdown (i : nat) : keeps_handles (countdown i).
Proof. apply keeps_state. intros s. apply countdown_events. Qed.

(** One step of the proof that a piece of the orchestrator drops no
    handle. *)
Ltac keeping :=
  lazymatch goal with
  | |- keeps_handles (bind _ _) => apply keeps_bind; [|intros ?]
  | |- keeps_handles (ret _) => apply keeps_ret
  | |- keeps_handles (throw _) => apply keeps_stop
  | |- keeps_handles (exit _) => apply keeps_stop
  | |- keeps_handles hang => apply keeps_stop
  | |- keeps_handles (spawn _) => apply keeps_spawn
  | |- keeps_handles (killProcess _) => apply keeps_killProcess
  | |- keeps_handles (waitWithTimer _) => apply keeps_countdown
  | |- keeps_handles (for_of _ _) => apply keeps_for_of; intros ?
  | |- keeps_handles (emit _) => apply keeps_state; reflexivity
  | |- keeps_handles (delay _) => apply keeps_state; reflexivity
  | |- keeps_handles now => apply keeps_state; reflexivity
  | |- keeps_handles get_procs => apply keeps_state; reflexivity
  | |- keeps_handles (match ?x with _ => _ end) => destruct x
  end.

Section HandlesOfLaunch.

Variable w : World.

Lemma keeps_ext (e : Event) : keeps_handles (ext w e).
Proof. unfold ext. repeat keeping. Qed.

Lemma keeps_connect_relay (nodes : list RelayNodeConfig) (types : TypesDef) :
  keeps_handles (connect_relay w nodes types).
Proof.
  unfold connect_relay, first_wsPort, loadTypeDef, connect.
  repeat first [apply keeps_ext | keeping].
Qed.

Lemma keeps_executeTransaction (tx : Tx) (finalization : bool) :
  keeps_handles (executeTransaction w tx finalization).
Proof. unfold executeTransaction. repeat keeping. Qed.

Lemma keeps_launch_parachain (dir spec : string) (only_one finalization : bool)
    (p : ParachainConfig) :
  keeps_handles (launch_parachain w dir spec only_one finalization p).
Proof.
  unfold launch_parachain, require_file, nodes_of, startCollator, setBalance.
  repeat first [apply keeps_executeTransaction | keeping].
Qed.

Lemma keeps_launch_simple_parachain (dir spec : string) (finalization : bool)
    (sp : SimpleParachainConfig) :
  keeps_handles (launch_simple_parachain w dir spec finalization sp).
Proof.
  unfold launch_simple_parachain, require_file, startSimpleCollator, setBalance.
  repeat first [apply keeps_executeTransaction | keeping].
Qed.

Lemma keeps_baseline (nodes : list RelayNodeConfig) (types : TypesDef) :
  keeps_handles (baseline w nodes types).
Proof.
  unfold baseline, getRelayInfo, disconnect, waitForExtraOutput.
  repeat first [apply keeps_connect_relay | apply keeps_ext | keeping].
Qed.

End HandlesOfLaunch.

Section HandlesAfterLaunch.

Variable w : World.

(** The relay nodes are started without fail, and each has its handle
    once the loop is over. *)
Lemma start_nodes_handles (bin spec : string) (nodes : list RelayNodeConfig) (s : State) :
  let r := for_of nodes (fun node => startNode bin node spec) s in
  outcome r = Returned tt
  ∧ (∀ node, node ∈ nodes → is_Some (st_procs (final r) !! rn_name node)).
Proof.
  revert s. induction nodes as [|node nodes IH]; intros s; cbn zeta.
  { split; [reflexivity | intros node H; inversion H]. }
  cbn [for_of].
  assert (Hstart : outcome (startNode bin node spec s) = Returned tt) by reflexivity.
  rewrite (bind_Returned _ _ _ _ Hstart). cbn [outcome final].
  destruct (IH (final (startNode bin node spec s))) as [Hout Hall]. cbn zeta in Hout, Hall.
  split; [exact Hout|]. intros node' Hin. apply elem_of_cons in Hin as [->|Hin]; [|auto].
  apply (keeps_for_of nodes (fun node => startNode bin node spec)).
  - intros x. unfold startNode. repeat keeping.
  - unfold startNode, spawn, bind, get_procs, set_procs, emit, ret. cbn.
    rewrite lookup_insert_eq. eauto.
Qed.

(** A collator that was started has its handle. *)
Lemma startCollator_handle (bin : string) (wsPort : Z) (rpcPort : option Z) (port : Z)
    (options : CollatorOptions) (s : State) :
  is_Some (st_procs (final (startCollator w bin wsPort rpcPort port options s))
             !! key_string (KPort wsPort)).
Proof.
  unfold startCollator, spawn, bind, now, get_procs, set_procs, emit, ret, hang, stop. cbn.
  destruct (w_ext w (st_time s)); cbn; rewrite lookup_insert_eq; eauto.
Qed.

Lemma for_of_handles {A} (xs : list A) (body : A → M unit) (x : A) (key : string)
    (s : State) :
  (∀ y, keeps_handles (body y)) →
  (∀ s0, outcome (body x s0) = Returned tt → is_Some (st_procs (final (body x s0)) !! key)) →
  outcome (for_of xs body s) = Returned tt →
  x ∈ xs →
  is_Some (st_procs (final (for_of xs body s)) !! key).
Proof.
  intros Hkeep Hx. revert s. induction xs as [|y xs IH]; intros s H Hin; [inversion Hin|].
  cbn [for_of] in *. apply bind_Returned_final in H as ([] & Hy & H & ->).
  apply elem_of_cons in Hin as [->|Hin]; [|exact (IH _ H Hin)].
  apply (keeps_for_of xs body Hkeep). exact (Hx _ Hy).
Qed.

Lemma launch_parachain_handles (dir spec : string) (only_one finalization : bool)
    (p : ParachainConfig) (nodes : list ParachainNodeConfig) (s : State) :
  outcome (launch_parachain w dir spec only_one finalization p s) = Returned tt →
  pc_nodes p = Some nodes →
  ∀ node, node ∈ nodes →
    is_Some (st_procs (final (launch_parachain w dir spec only_one finalization p s))
               !! key_string (KPort (pn_wsPort node))).
Proof.
  unfold launch_parachain, nodes_of. intros H Hnodes node Hnode. rewrite Hnodes in *.
  apply bind_Returned_final in H as ([] & _ & H & ->).
  apply bind_Returned_final in H as (nodes' & Hn & H & ->).
  cbn in Hn. injection Hn as <-.
  apply bind_Returned_final in H as ([] & Hloop & H & ->).
  match goal with
  | |- is_Some (st_procs (final (?m ?s0)) !! _) =>
      assert (Hkeep : keeps_handles m)
        by (destruct (truthy_string (pc_balance p)); unfold setBalance;
            repeat first [apply keeps_executeTransaction | keeping]);
      apply Hkeep
  end.
  apply (for_of_handles nodes _ node); [| |exact Hloop | exact Hnode].
  - intros y. unfold startCollator. repeat keeping.
  - intros s0 _. apply startCollator_handle.
Qed.

(** A run that returned a plan left the handle of every relay node and
    of every collator of the plan in the process table. *)
Lemma run_handles (dir : string) (raw : option LaunchConfig) (plan : LaunchConfig)
    (relaychain : RelayChainConfig) (s : State) :
  outcome (run w dir raw s) = Returned (Some plan) →
  lc_relaychain plan = Some relaychain →
  (∀ node, node ∈ rc_nodes relaychain →
     is_Some (st_procs (final (run w dir raw s)) !! rn_name node))
  ∧ (∀ parachains p nodes node,
       lc_parachains plan = Some parachains → p ∈ parachains →
       pc_nodes p = Some nodes → node ∈ nodes →
       is_Some (st_procs (final (run w dir raw s)) !! key_string (KPort (pn_wsPort node)))).
Proof.
  intros H Hrc. unfold run in *.
  apply bind_Returned_final in H as ([] & _ & H & ->).
  destruct (checkConfig w raw None false) as [[|] [checked|]]; try discriminate.
  apply bind_Returned_final in H as (config & _ & H & ->).
  apply bind_Returned_final in H as ([config' bootnodes] & _ & H & ->).
  apply bind_Returned_final in H as ([] & Hlaunch & H & ->).
  cbn in H. injection H as ->. cbn [ret final].
  revert Hlaunch. generalize (final (generateNodeKeys w config (final (resolveParachainId w dir
    checked (final (set_registered ∅ s)))))). clear s. intros s H.
  unfold launch in *. rewrite Hrc in *.
  destruct (lc_parachains plan) as [parachains|]; [|discriminate].
  do 9 (apply bind_Returned_final in H as ([] & _ & H & ->)).
  apply bind_Returned_final in H as ([] & _ & H & ->).
  set (started := final (for_of (rc_nodes relaychain) _ _)) in *.
  apply bind_Returned_final in H as (api & _ & H & ->).
  apply bind_Returned_final in H as ([] & Hparas & H & ->).
  apply bind_Returned_final in H as ([] & _ & H & ->).
  assert (Hrest : ∀ s1 key,
    is_Some (st_procs s1 !! key) →
    is_Some (st_procs
      (final (disconnect w
         (final (match lc_simpleParachains plan with
                 | Some simpleParachains =>
                     for_of simpleParachains
                       (launch_simple_parachain w dir
                          (resolve_cwd w (rc_chain relaychain +:+ "-raw.json"))
                          (lc_finalization plan))
                 | None => ret tt
                 end s1)))) !! key)).
  { intros s1 key Hkey. apply keeps_ext.
    destruct (lc_simpleParachains plan); [|exact Hkey].
    apply keeps_for_of; [|exact Hkey]. intros sp. apply keeps_launch_simple_parachain. }
  split.
  - intros node Hnode. apply Hrest.
    apply keeps_for_of; [intros p; apply keeps_launch_parachain|].
    apply keeps_connect_relay. subst started.
    apply (proj2 (start_nodes_handles _ _ _ _)). exact Hnode.
  - intros ps p nodes node [= <-] Hp Hnodes Hnode. apply Hrest.
    apply (for_of_handles parachains _ p); [| |exact Hparas | exact Hp].
    + intros y. apply keeps_launch_parachain.
    + intros s0 Hs0. exact (launch_parachain_handles _ _ _ _ _ _ _ Hs0 Hnodes node Hnode).
Qed.

(** With the handle of every relay node in the process table, the relay
    rolling restart runs to its end, and the handles are still there. *)
Lemma rolling_restart_returns (bin spec : string) (epoch_time : Z)
    (nodes : list RelayNodeConfig) (s : State) :
  (∀ node, node ∈ nodes → is_Some (st_procs s !! rn_name node)) →
  outcome (for_of nodes (restart_relay_node bin spec epoch_time) s) = Returned tt.
Proof.
  revert s. induction nodes as [|node nodes IH]; intros s Hall; [reflexivity|].
  cbn [for_of].
  assert (Hkeep : keeps_handles (restart_relay_node bin spec epoch_time node))
    by (unfold restart_relay_node, startNode; repeat keeping).
  assert (Hnode : outcome (restart_relay_node bin spec epoch_time node s) = Returned tt).
  { destruct (restart_relay_node_events bin spec epoch_time node s) as [[Ho _]|[Ho _]];
      [exact Ho|]. exfalso. revert Ho.
    unfold restart_relay_node, waitWithTimer.
    destruct (countdown_events (Z.to_nat (ceil_div epoch_time 1000)) s) as (Ho & _ & Hp).
    rewrite (bind_Returned _ _ _ _ Ho). cbn [outcome].
    unfold killProcess, startNode, spawn, get_procs, set_procs, bind, emit, ret, throw, stop.
    cbn [outcome events final st_procs st_time st_registered]. rewrite Hp.
    destruct (Hall node (list_elem_of_here _ _)) as [b Hb].
    cbn [key_string]. rewrite Hb. discriminate. }
  rewrite (bind_Returned _ _ _ _ Hnode). cbn [outcome]. apply IH.
  intros node' Hin. apply Hkeep. apply Hall. right. exact Hin.
Qed.

End HandlesAfterLaunch.


(** ** The order of a launch *)

Lemma avoids_try_or_exit (P : Event → Prop) {A} (m : M A) (code : Z) :
  avoids P m → avoids P (try_or_exit m code).
Proof.
  intros H s. unfold try_or_exit. specialize (H s).
  destruct (outcome (m s)); exact H.
Qed.

Lemma avoids_for_of_map (P : Event → Prop) {A B} (xs : list A) (body : A → M B) :
  (∀ x, avoids P (body x)) → avoids P (for_of_map xs body).
Proof.
  intros H. induction xs as [|x xs IH]; cbn [for_of_map]; [apply avoids_ret|].
  apply avoids_bind; [apply H | intros y].
  apply avoids_bind; [exact IH | intros rest; apply avoids_ret].
Qed.

Ltac unrecognised :=
  let H := fresh in
  first [ intros H; cbv [before_raw after_raw] in H; cbn in H; discriminate H
        | intros [H|H]; discriminate H
        | intros [? H]; discriminate H ].

(** One step of the proof that a piece of the orchestrator performs no
    effect of a kind that a boolean test recognises. *)
Ltac avoiding :=
  lazymatch goal with
  | |- avoids _ (bind _ _) => apply avoids_bind; [|intros ?]
  | |- avoids _ (ret _) => apply avoids_ret
  | |- avoids _ (emit _) => apply avoids_emit; unrecognised
  | |- avoids _ (ext _ _) => apply avoids_ext; unrecognised
  | |- avoids _ (delay _) => apply avoids_emit; unrecognised
  | |- avoids _ now => apply avoids_now
  | |- avoids _ (throw _) => apply avoids_stop
  | |- avoids _ (exit _) => apply avoids_stop
  | |- avoids _ hang => apply avoids_stop
  | |- avoids _ get_procs => apply avoids_state; reflexivity
  | |- avoids _ (set_procs _) => apply avoids_state; reflexivity
  | |- avoids _ get_registered => apply avoids_state; reflexivity
  | |- avoids _ (set_registered _) => apply avoids_state; reflexivity
  | |- avoids _ (waitWithTimer _) => apply avoids_waitWithTimer; unrecognised
  | |- avoids _ (for_of _ _) => apply avoids_for_of; intros ?
  | |- avoids _ (for_of_map _ _) => apply avoids_for_of_map; intros ?
  | |- avoids _ (for_of_fold _ _ _) => apply avoids_for_of_fold; intros ? ?
  | |- avoids _ (try_or_exit _ _) => apply avoids_try_or_exit
  | |- avoids _ (match ?x with _ => _ end) => destruct x
  end.

(** When a piece that performs no effect of a kind is followed by another,
    the first effect of that kind is performed by the second, after the
    first returned. *)
Lemma split_after_avoiding {A B} (P : Event → Prop) (m : M A) (k : A → M B) (s : State)
    (l1 l2 : list Event) (x : Event) :
  avoids P m → P x →
  events (bind m k s) = (l1 ++ x :: l2)%list →
  ∃ a rest, outcome (m s) = Returned a
            ∧ l1 = (events (m s) ++ rest)%list
            ∧ events (k a (final (m s))) = (rest ++ x :: l2)%list.
Proof.
  intros Hm Hx H. rewrite events_bind in H.
  assert (Hnot : x ∉ events (m s)).
  { intros Hin. specialize (Hm s). rewrite Forall_forall in Hm. exact (Hm x Hin Hx). }
  destruct (app_split_at _ _ _ _ _ H Hnot) as [rest ->].
  rewrite <- (assoc_L (++)) in H. apply app_inv_head in H.
  destruct (outcome (m s)) as [a| | |]; [eauto|..];
    destruct rest; discriminate H.
Qed.

Section OrderOfLaunch.

Variable w : World.

Lemma quiet_resolveParachainId (dir : string) (c : LaunchConfig) :
  avoids before_raw (resolveParachainId w dir c).
Proof.
  unfold resolveParachainId, resolve_with, resolve_parachain_unguarded, getParachainIdFromSpec, spawn.
  repeat avoiding.
Qed.

Lemma quiet_generateNodeKeys (c : LaunchConfig) : avoids before_raw (generateNodeKeys w c).
Proof. unfold generateNodeKeys, generate_node_key. repeat avoiding. Qed.

Lemma quiet_addParachainsToGenesis (dir spec : string) (ps : list ParachainConfig)
    (sps : list SimpleParachainConfig) :
  avoids before_raw (addParachainsToGenesis w dir spec ps sps).
Proof.
  unfold addParachainsToGenesis, add_parachain_to_genesis, require_file, genesis_exports,
    exportGenesisState, exportGenesisWasm, addGenesisParachain.
  repeat avoiding.
Qed.

Lemma started_executeTransaction (tx : Tx) (finalization : bool) :
  avoids after_raw (executeTransaction w tx finalization).
Proof. unfold executeTransaction. repeat avoiding. Qed.

Lemma started_launch_parachain (dir spec : string) (only_one finalization : bool)
    (p : ParachainConfig) :
  avoids after_raw (launch_parachain w dir spec only_one finalization p).
Proof.
  unfold launch_parachain, require_file, nodes_of, startCollator, spawn, setBalance.
  repeat first [apply started_executeTransaction | avoiding].
Qed.

Lemma started_launch_simple_parachain (dir spec : string) (finalization : bool)
    (sp : SimpleParachainConfig) :
  avoids after_raw (launch_simple_parachain w dir spec finalization sp).
Proof.
  unfold launch_simple_parachain, require_file, startSimpleCollator, spawn, setBalance.
  repeat first [apply started_executeTransaction | avoiding].
Qed.

Lemma started_tail (dir spec bin : string) (relaychain : RelayChainConfig)
    (parachains : list ParachainConfig) (config : LaunchConfig) :
  avoids after_raw
    (for_of (rc_nodes relaychain) (fun node => startNode bin node spec);;
     connect_relay w (rc_nodes relaychain) (lc_types config);;
     for_of parachains
       (launch_parachain w dir spec (length parachains =? 1)%nat (lc_finalization config));;
     match lc_simpleParachains config with
     | Some simpleParachains =>
         for_of simpleParachains
           (launch_simple_parachain w dir spec (lc_finalization config))
     | None => ret tt
     end;;
     disconnect w).
Proof.
  unfold startNode, spawn, connect_relay, first_wsPort, loadTypeDef, connect, disconnect.
  repeat first [apply started_launch_parachain | apply started_launch_simple_parachain
               | avoiding].
Qed.

(** Peeling a piece that comes before the raw chain spec off a run. *)
Lemma peel_before_raw {A B} (m : M A) (k : A → M B) (s : State) (l1 l2 : list Event)
    (x : Event) (G : Prop) :
  avoids before_raw m → makes_raw x = true →
  (∀ a rest, events (k a (final (m s))) = (rest ++ x :: l2)%list →
             Forall (fun e => ¬ before_raw e) rest ∧ G) →
  events (bind m k s) = (l1 ++ x :: l2)%list →
  Forall (fun e => ¬ before_raw e) l1 ∧ G.
Proof.
  intros Hm Hx Hk H.
  assert (Hbefore : before_raw x) by (unfold before_raw; rewrite Hx; reflexivity).
  destruct (split_after_avoiding before_raw m k s l1 l2 x Hm Hbefore H)
    as (a & rest & _ & -> & Hrest).
  destruct (Hk a rest Hrest) as [Hall HG]. split; [|exact HG].
  apply Forall_app. split; [apply Hm | exact Hall].
Qed.

Lemma events_bind_ret {A B} (m : M A) (b : B) (s : State) :
  events (bind m (fun _ => ret b) s) = events (m s).
Proof.
  rewrite events_bind. destruct (outcome (m s)); cbn [events ret]; apply app_nil_r.
Qed.

Lemma launch_order (dir : string) (config : LaunchConfig) (bootnodes : list string)
    (s : State) (l1 l2 : list Event) (x : Event) :
  makes_raw x = true →
  events (launch w dir config bootnodes s) = (l1 ++ x :: l2)%list →
  Forall (fun e => ¬ before_raw e) l1 ∧ Forall (fun e => ¬ after_raw e) l2.
Proof.
  intros Hx. unfold launch.
  destruct (lc_relaychain config) as [relaychain|];
    [|intros H; destruct l1; discriminate H].
  destruct (lc_parachains config) as [parachains|];
    [|intros H; destruct l1; discriminate H].
  apply peel_before_raw; [unfold require_file; repeat avoiding | exact Hx | intros [] l0].
  apply peel_before_raw;
    [unfold generateChainSpec, spawn; repeat avoiding | exact Hx | clear l0; intros [] l0].
  apply peel_before_raw; [repeat avoiding | exact Hx | clear l0; intros [] l0].
  apply peel_before_raw; [repeat avoiding | exact Hx | clear l0; intros [] l0].
  apply peel_before_raw; [repeat avoiding | exact Hx | clear l0; intros [] l0].
  apply peel_before_raw;
    [destruct (lc_simpleParachains config);
       [apply quiet_addParachainsToGenesis | apply avoids_stop]
    | exact Hx | clear l0; intros [] l0].
  apply peel_before_raw;
    [unfold addHrmpChannelsToGenesis; repeat avoiding | exact Hx | clear l0; intros [] l0].
  apply peel_before_raw; [repeat avoiding | exact Hx | clear l0; intros [] l0].
  intros H. rewrite events_bind in H.
  assert (Hraw : ∀ b c i s0, events (generateChainSpecRaw w b c i s0)
                             = [EGenerateChainSpecRaw b c i]).
  { intros b c i s0.
    unfold generateChainSpecRaw, spawn, ext, bind, get_procs, set_procs, now, emit, ret,
      throw, hang, stop. cbn. destruct (w_ext w (st_time s0)); reflexivity. }
  rewrite Hraw in H. cbn [app] in H.
  match type of H with
  | (_ :: ?tl)%list = _ =>
      assert (Htl : Forall (fun e => ¬ after_raw e) tl)
        by (destruct (outcome _); [apply started_tail | constructor..]);
      revert Htl H; generalize tl; intros tail Htl H
  end.
  destruct l0 as [|e l0]; cbn [app] in H.
  - injection H as _ <-. split; [constructor | exact Htl].
  - exfalso. injection H as _ ->. rewrite Forall_forall in Htl. apply (Htl x).
    + apply elem_of_app. right. left.
    + unfold after_raw. rewrite Hx. reflexivity.
Qed.

End OrderOfLaunch.

(** X12: in a run, the raw chain spec of the relay is generated at most
    once, after every edit of the chain spec (authorities, genesis
    configuration, parachains, channels, boot nodes) and before any relay
    node or collator is started. *)
Theorem raw_spec_after_edits_before_starts (w : World) (dir : string)
    (raw : option LaunchConfig) (s : State) (l1 l2 : list Event) (bin chain : string)
    (id : option string) :
  events (run w dir raw s) = (l1 ++ EGenerateChainSpecRaw bin chain id :: l2)%list →
  Forall (fun e => starts_node e = false ∧ makes_raw e = false) l1
  ∧ Forall (fun e => edits_spec e = false ∧ makes_raw e = false) l2.
Proof.
  intros H.
  assert (Hgoal : Forall (fun e => ¬ before_raw e) l1 ∧ Forall (fun e => ¬ after_raw e) l2).
  { revert H. unfold run.
    apply peel_before_raw; [repeat avoiding | reflexivity | intros [] l0].
    destruct (checkConfig w raw None false) as [[|] [checked|]];
      try (intros H; destruct l0; discriminate H).
    apply peel_before_raw;
      [apply quiet_resolveParachainId | reflexivity | clear l0; intros config l0].
    apply peel_before_raw;
      [apply quiet_generateNodeKeys | reflexivity | clear l0; intros [config' bootnodes] l0].
    rewrite events_bind_ret. apply launch_order. reflexivity. }
  destruct Hgoal as [H1 H2]. split.
  - eapply Forall_impl; [exact H1|]. intros e He. unfold before_raw in He.
    destruct (makes_raw e), (starts_node e); try (exfalso; apply He; reflexivity).
    split; reflexivity.
  - eapply Forall_impl; [exact H2|]. intros e He. unfold after_raw in He.
    destruct (makes_raw e), (edits_spec e); try (exfalso; apply He; reflexivity).
    split; reflexivity.
Qed.

(** ** The upgrade test of the parachains alone *)

Lemma avoids_while_loop (P : Event → Prop) {S} (fuel : nat) (cond : S → bool)
    (body : S → M S) (x : S) :
  (∀ y, avoids P (body y)) → avoids P (while_loop fuel cond body x).
Proof.
  intros H. revert x. induction fuel as [|fuel IH]; intros x; cbn [while_loop].
  - apply avoids_ret.
  - destruct (cond x); [|apply avoids_ret].
    apply avoids_bind; [apply H | intros y; apply IH].
Qed.

Section ParachainsAlone.

Variable w : World.
Variable P : Event → Prop.
Hypothesis P_delay : ∀ ms, ¬ P (EDelay ms).
Hypothesis P_connect : ∀ port, ¬ P (EConnect port).
Hypothesis P_disconnect : ¬ P EDisconnect.
Hypothesis P_types : ∀ path, ¬ P (EReadTypeDef path).
Hypothesis P_version : ∀ api, ¬ P (EGetSpecVersion api).
Hypothesis P_info : ¬ P EGetRelayInfo.
Hypothesis P_validation : ¬ P EGetCodeValidationDelay.
Hypothesis P_kill : ∀ port, ¬ P (EKill (KPort port)).
Hypothesis P_collator : ∀ bin wsPort rpcPort port options,
  ¬ P (EStartCollator bin wsPort rpcPort port options).
Hypothesis P_ready : ∀ wsPort, ¬ P (ECollatorReady wsPort).
Hypothesis P_key : ∀ rpcPort key, ¬ P (EGiveKeyToCollator rpcPort key).
Hypothesis P_nonce : ¬ P EQueryNonce.
Hypothesis P_authorize : ∀ codeHash,
  ¬ P (ESubmit (TxAuthorizeUpgrade codeHash)) ∧ ¬ P (EIncluded (TxAuthorizeUpgrade codeHash)).
Hypothesis P_enact : ∀ code,
  ¬ P (ESubmit (TxEnactAuthorizedUpgrade code))
  ∧ ¬ P (EIncluded (TxEnactAuthorizedUpgrade code)).

Ltac spared :=
  lazymatch goal with
  | |- avoids _ (bind _ _) => apply avoids_bind; [|intros ?]
  | |- avoids _ (ret _) => apply avoids_ret
  | |- avoids _ (emit _) => apply avoids_emit; solve [auto]
  | |- avoids _ (ext _ _) => apply avoids_ext; solve [auto]
  | |- avoids _ (delay _) => apply avoids_emit; solve [auto]
  | |- avoids _ now => apply avoids_now
  | |- avoids _ (throw _) => apply avoids_stop
  | |- avoids _ (exit _) => apply avoids_stop
  | |- avoids _ hang => apply avoids_stop
  | |- avoids _ get_procs => apply avoids_state; reflexivity
  | |- avoids _ (set_procs _) => apply avoids_state; reflexivity
  | |- avoids _ (waitWithTimer _) => apply avoids_waitWithTimer; solve [auto]
  | |- avoids _ (for_of _ _) => apply avoids_for_of; intros ?
  | |- avoids _ (for_of_fold _ _ _) => apply avoids_for_of_fold; intros ? ?
  | |- avoids _ (match ?x with _ => _ end) => destruct x
  end.

Lemma spared_connect_relay (nodes : list RelayNodeConfig) (types : TypesDef) :
  avoids P (connect_relay w nodes types).
Proof. unfold connect_relay, first_wsPort, loadTypeDef, connect. repeat spared. Qed.

Lemma spared_baseline (nodes : list RelayNodeConfig) (types : TypesDef) :
  avoids P (baseline w nodes types).
Proof.
  unfold baseline, getRelayInfo, disconnect, waitForExtraOutput.
  repeat first [apply spared_connect_relay | spared].
Qed.

Lemma spared_restart_parachain (dir spec : string) (types : TypesDef) (only_one : bool)
    (info : gmap string UpgradeSession) (p : ParachainConfig) :
  avoids P (restart_parachain w dir spec types only_one info p).
Proof.
  unfold restart_parachain, nodes_of, connect_typed, loadTypeDef, connect, getSpecVersion,
    disconnect, waitForExtraOutput, killProcess, startCollator, spawn, applyAuraKey,
    giveKeyToCollator.
  repeat spared.
Qed.

Lemma spared_getCodeValidationDelay : avoids P (getCodeValidationDelay w).
Proof. unfold getCodeValidationDelay. repeat spared. Qed.

Lemma spared_upgrade_parachain (types : TypesDef) (info : gmap string UpgradeSession)
    (p : ParachainConfig) :
  avoids P (upgrade_parachain w types info p).
Proof.
  pose proof (fun h => proj1 (P_authorize h)). pose proof (fun h => proj2 (P_authorize h)).
  pose proof (fun c => proj1 (P_enact c)). pose proof (fun c => proj2 (P_enact c)).
  unfold upgrade_parachain, connect_typed, loadTypeDef, connect, upgradeParachainRuntime,
    readFileSync, executeTransaction, disconnect, waitForExtraOutput.
  repeat spared.
Qed.

Lemma prefix_bind {A B} (Q : list Event → Prop) (m : M A) (k : A → M B) (s : State) :
  avoids P m → Q [] →
  (∀ a s', ∃ pre post, events (k a s') = (pre ++ post)%list
                       ∧ Forall (fun e => ¬ P e) pre ∧ Q post) →
  ∃ pre post, events (bind m k s) = (pre ++ post)%list
              ∧ Forall (fun e => ¬ P e) pre ∧ Q post.
Proof.
  intros Hm Hnil Hk. rewrite events_bind. destruct (outcome (m s)) as [a| | |].
  - destruct (Hk a (final (m s))) as (pre & post & -> & Hpre & Hpost).
    exists (events (m s) ++ pre)%list, post. rewrite (assoc_L (++)).
    split; [reflexivity | split; [|exact Hpost]]. apply Forall_app. split; [apply Hm | exact Hpre].
  - exists (events (m s)), []. split; [reflexivity | split; [apply Hm | exact Hnil]].
  - exists (events (m s)), []. split; [reflexivity | split; [apply Hm | exact Hnil]].
  - exists (events (m s)), []. split; [reflexivity | split; [apply Hm | exact Hnil]].
Qed.

Lemma upgrade_parachains_test_events (fuel : nat) (dir : string) (config : LaunchConfig)
    (s : State) :
  ∃ pre post, events (upgrade_parachains_test w fuel dir config s) = (pre ++ post)%list
              ∧ Forall (fun e => ¬ P e) pre
              ∧ verification_or_nothing w fuel post.
Proof.
  unfold upgrade_parachains_test.
  destruct (lc_relaychain config) as [relaychain|];
    [|exists [], []; repeat split; [constructor | left; reflexivity]].
  destruct (lc_parachains config) as [parachains|];
    [|exists [], []; repeat split; [constructor | left; reflexivity]].
  apply prefix_bind; [apply spared_baseline | left; reflexivity | intros info s1].
  apply prefix_bind;
    [apply avoids_for_of_fold; intros; apply spared_restart_parachain
    | left; reflexivity | intros sessions s2].
  apply prefix_bind; [apply spared_connect_relay | left; reflexivity | intros api s3].
  apply prefix_bind;
    [apply spared_getCodeValidationDelay | left; reflexivity | intros delay_blocks s4].
  apply prefix_bind;
    [apply avoids_ext; exact P_disconnect | left; reflexivity | intros [] s5].
  apply prefix_bind; [apply avoids_emit; apply P_delay | left; reflexivity | intros [] s6].
  apply prefix_bind;
    [apply avoids_waitWithTimer; apply P_delay | left; reflexivity | intros [] s7].
  apply prefix_bind;
    [apply avoids_for_of; intros; apply spared_upgrade_parachain
    | left; reflexivity | intros [] s8].
  exists [], (events (verify_upgrades w fuel (lc_types config)
                        (ri_blockTime info * delay_blocks) parachains sessions s8)).
  split; [reflexivity | split; [constructor | right; eauto 10]].
Qed.

End ParachainsAlone.

(** X13: the upgrade test of the parachains alone never stops or starts
    a relay node, never changes the relay's runtime and never reports on
    the relay; it opens at most three polling passes; and when its
    verification loop returns with the flag of failure down, the session of
    every parachain is marked as upgraded. *)
Theorem parachains_test_leaves_relay_alone (w : World) (fuel : nat) (dir : string)
    (config : LaunchConfig) (s : State) :
  let r := upgrade_parachains_test w fuel dir config s in
  Forall (fun e => touches_relay e = false) (events r)
  ∧ (passes (events r) ≤ 3)%nat
  ∧ (∀ vs parachains,
       outcome r = Returned (Some vs) →
       lc_parachains config = Some parachains →
       vs_failed vs = false →
       ∀ p, p ∈ parachains → updated (vs_info vs) (js_key (pc_resolvedId p)) = true).
Proof.
  cbn zeta. unfold upgrade_parachains_test.
  destruct (lc_relaychain config) as [relaychain|] eqn:Hrc;
    [|split; [constructor | split; [cbn; lia | discriminate]]].
  destruct (lc_parachains config) as [parachains|] eqn:Hps;
    [|split; [constructor | split; [cbn; lia | discriminate]]].
  split; [|split].
  - destruct (upgrade_parachains_test_events w (fun e => touches_relay e = true))
      with (fuel := fuel) (dir := dir) (config := config) (s := s)
      as (pre & post & Hev & Hpre & Hpost);
      try (intros; try split; let H := fresh in intros H; cbn in H; discriminate H).
    unfold upgrade_parachains_test in Hev. rewrite Hrc, Hps in Hev. rewrite Hev.
    eapply Forall_impl;
      [|intros e He; destruct (touches_relay e) eqn:E; [exfalso; exact (He E) | reflexivity]].
    apply Forall_app. split; [exact Hpre|].
    destruct Hpost as [->|(types & delay & ps & info & s' & ->)]; [constructor|].
    unfold verify_upgrades. apply avoids_while_loop. intros vs.
    unfold verify_pass, verify_parachain, connect_typed, loadTypeDef, connect, getSpecVersion,
      disconnect, waitForExtraOutput.
    repeat avoiding.
  - destruct (upgrade_parachains_test_events w opens_pass)
      with (fuel := fuel) (dir := dir) (config := config) (s := s)
      as (pre & post & Hev & Hpre & Hpost);
      try (intros; try split; let H := fresh in intros [H|H]; discriminate H).
    unfold upgrade_parachains_test in Hev. rewrite Hrc, Hps in Hev. rewrite Hev.
    rewrite passes_app, (passes_avoided _ Hpre).
    destruct Hpost as [->|(types & delay & ps & info & s' & ->)]; [cbn; lia|].
    unfold verify_upgrades.
    apply (while_verify_passes w types fuel delay ps
             {| vs_try_n := 0; vs_failed := true; vs_first_pass := true; vs_info := info |}).
  - intros vs ps H [= <-] Hf.
    do 8 (apply bind_outcome_inv in H as (? & _ & H)).
    unfold verify_upgrades in H.
    apply (while_verify_success w _ _ _ _ _ _ _ H); [discriminate | exact Hf].
Qed.

(** ** A missing relay binary *)

Lemma launch_without_relay_binary (w : World) (dir : string) (config : LaunchConfig)
    (bootnodes : list string) (relaychain : RelayChainConfig)
    (parachains : list ParachainConfig) (s : State) :
  lc_relaychain config = Some relaychain →
  lc_parachains config = Some parachains →
  w_existsSync w (w_resolve w dir (rc_bin relaychain)) = false →
  launch w dir config bootnodes s = exit 0 s.
Proof.
  intros Hrc Hps Hbin. unfold launch. rewrite Hrc, Hps.
  unfold require_file. rewrite Hbin. reflexivity.
Qed.

(** [run] when the check passes: what comes before the test on the relay's
    binary, then the launch. *)
Lemma run_unfold (w : World) (dir : string) (raw : option LaunchConfig)
    (checked : LaunchConfig) :
  checkConfig w raw None false = (true, Some checked) →
  ∀ s, run w dir raw s
       = (keyed <- before_relay_binary w dir checked;;
          launch w dir (fst keyed) (snd keyed);;
          ret (Some (fst keyed))) s.
Proof.
  intros Hcheck s. unfold run, before_relay_binary. rewrite Hcheck.
  rewrite bind_assoc. apply bind_ext. intros _ s1.
  rewrite bind_assoc. apply bind_ext. intros config s2.
  apply bind_ext. intros [config' bootnodes] s3. reflexivity.
Qed.

Lemma before_relay_binary_post (w : World) (dir : string) (checked : LaunchConfig)
    (keyed : LaunchConfig * list string) (s : State) :
  outcome (before_relay_binary w dir checked s) = Returned keyed →
  ∃ relaychain nodes' parachains',
    lc_relaychain checked = Some relaychain
    ∧ lc_relaychain (fst keyed) = Some (set_nodes relaychain nodes')
    ∧ lc_parachains (fst keyed) = Some parachains'.
Proof.
  destruct keyed as [config' bootnodes]. intros H. unfold before_relay_binary in H.
  apply bind_outcome_inv in H as ([] & _ & H).
  apply bind_outcome_inv in H as (config & Hconfig & H).
  apply resolveParachainId_post in Hconfig as (ps & sps & ps' & _ & _ & -> & _).
  apply generateNodeKeys_post in H as (rc & nodes' & Hrc' & -> & _).
  exists rc, nodes', ps'. cbn in Hrc'. repeat split. exact Hrc'.
Qed.

(** X14: when the configuration passes the check and the relay's binary
    does not exist, [run] returns nothing and builds nothing: no chain spec
    of the relay is generated or edited and no node or collator is started;
    and when the resolution of the ids and the generation of the node keys
    return, the process exits with code 0 right after them. *)
Theorem run_stops_without_relay_binary (w : World) (dir : string)
    (raw : option LaunchConfig) (checked : LaunchConfig) (relaychain : RelayChainConfig)
    (s : State) :
  checkConfig w raw None false = (true, Some checked) →
  lc_relaychain checked = Some relaychain →
  w_existsSync w (w_resolve w dir (rc_bin relaychain)) = false →
  let r := run w dir raw s in
  (∀ plan, outcome r ≠ Returned plan)
  ∧ Forall (fun e => builds_network e = false) (events r)
  ∧ (∀ keyed, outcome (before_relay_binary w dir checked s) = Returned keyed →
              outcome r = Exited 0
              ∧ events r = events (before_relay_binary w dir checked s)).
Proof.
  intros Hcheck Hrc Hbin r.
  assert (Hquiet : avoids (fun e => builds_network e = true)
                     (before_relay_binary w dir checked)).
  { unfold before_relay_binary, resolveParachainId, resolve_with, resolve_parachain_unguarded,
      getParachainIdFromSpec, spawn, generateNodeKeys, generate_node_key.
    repeat avoiding. }
  pose proof (run_unfold w dir raw checked Hcheck) as Hrun.
  assert (Hstop : ∀ keyed s0,
             outcome (before_relay_binary w dir checked s) = Returned keyed →
             launch w dir (fst keyed) (snd keyed) s0 = exit 0 s0).
  { intros keyed s0 H.
    destruct (before_relay_binary_post w dir checked keyed s H)
      as (rc & nodes' & ps' & Hrc0 & Hrc' & Hps').
    rewrite Hrc in Hrc0. injection Hrc0 as <-.
    eapply launch_without_relay_binary; [exact Hrc' | exact Hps' | exact Hbin]. }
  subst r. rewrite Hrun.
  destruct (outcome (before_relay_binary w dir checked s)) as [keyed| | |] eqn:Hpre.
  - pose proof (Hstop keyed (final (before_relay_binary w dir checked s)) eq_refl) as Hl.
    rewrite (bind_Returned _ _ _ _ Hpre). cbn [outcome events].
    rewrite (bind_not_Returned (launch w dir keyed.1 keyed.2))
      by (rewrite Hl; discriminate).
    rewrite Hl. cbn [exit stop outcome events abort]. rewrite app_nil_r.
    split; [discriminate | split; [|intros ? _; split; reflexivity]].
    eapply Forall_impl; [apply Hquiet|].
    intros e He. destruct (builds_network e) eqn:E; [exfalso; exact (He E) | reflexivity].
  - rewrite bind_not_Returned by (rewrite Hpre; discriminate). rewrite Hpre. cbn.
    split; [discriminate | split; [|discriminate]].
    eapply Forall_impl; [apply Hquiet|].
    intros e He. destruct (builds_network e) eqn:E; [exfalso; exact (He E) | reflexivity].
  - rewrite bind_not_Returned by (rewrite Hpre; discriminate). rewrite Hpre. cbn.
    split; [discriminate | split; [|discriminate]].
    eapply Forall_impl; [apply Hquiet|].
    intros e He. destruct (builds_network e) eqn:E; [exfalso; exact (He E) | reflexivity].
  - rewrite bind_not_Returned by (rewrite Hpre; discriminate). rewrite Hpre. cbn.
    split; [discriminate | split; [|discriminate]].
    eapply Forall_impl; [apply Hquiet|].
    intros e He. destruct (builds_network e) eqn:E; [exfalso; exact (He E) | reflexivity].
Qed.

(** ** The files of the chain specs *)

Lemma checkConfig_chain (w : World) (c : LaunchConfig) (relaychain : RelayChainConfig)
    (dir : option string) (upgrade : bool) :
  fst (checkConfig w (Some c) dir upgrade) = true →
  lc_relaychain c = Some relaychain →
  truthy_string (rc_chain relaychain) = true.
Proof.
  unfold checkConfig. intros H Hrc. rewrite Hrc in H.
  destruct (negb (truthy_string (rc_bin relaychain))); [discriminate|].
  destruct (truthy_string (rc_chain relaychain)); [reflexivity | discriminate].
Qed.

Section FilesOfLaunch.

Variable w : World.
Variable chain : string.
Hypothesis chain_truthy : truthy_string chain = true.

Lemma keeps_to_raw (bin : string) :
  keeps_to (chain +:+ ".json") (chain +:+ "-raw.json")
    (resolve_cwd w (chain +:+ "-raw.json")) (EGenerateChainSpecRaw bin chain None) = true.
Proof.
  cbn [keeps_to]. unfold raw_spec_input, raw_spec_file.
  fold (truthy_string chain). rewrite chain_truthy.
  rewrite !bool_decide_eq_true_2 by reflexivity. reflexivity.
Qed.

Ltac kept :=
  let H := fresh in
  intros H; unfold strays in H;
  first [ rewrite keeps_to_raw in H; discriminate H
        | cbn [keeps_to co_relaySpec] in H; unfold chain_spec_file in H;
          first [ discriminate H
                | rewrite bool_decide_eq_true_2 in H by reflexivity; discriminate H ] ].

Ltac consistent :=
  lazymatch goal with
  | |- avoids _ (bind _ _) => apply avoids_bind; [|intros ?]
  | |- avoids _ (ret _) => apply avoids_ret
  | |- avoids _ (emit _) => apply avoids_emit; kept
  | |- avoids _ (ext _ _) => apply avoids_ext; kept
  | |- avoids _ (delay _) => apply avoids_emit; kept
  | |- avoids _ now => apply avoids_now
  | |- avoids _ (throw _) => apply avoids_stop
  | |- avoids _ (exit _) => apply avoids_stop
  | |- avoids _ hang => apply avoids_stop
  | |- avoids _ get_procs => apply avoids_state; reflexivity
  | |- avoids _ (set_procs _) => apply avoids_state; reflexivity
  | |- avoids _ get_registered => apply avoids_state; reflexivity
  | |- avoids _ (set_registered _) => apply avoids_state; reflexivity
  | |- avoids _ (waitWithTimer _) => apply avoids_waitWithTimer; kept
  | |- avoids _ (for_of _ _) => apply avoids_for_of; intros ?
  | |- avoids _ (for_of_map _ _) => apply avoids_for_of_map; intros ?
  | |- avoids _ (for_of_fold _ _ _) => apply avoids_for_of_fold; intros ? ?
  | |- avoids _ (while_loop _ _ _ _) => apply avoids_while_loop; intros ?
  | |- avoids _ (try_or_exit _ _) => apply avoids_try_or_exit
  | |- avoids _ (match ?x with _ => _ end) => destruct x
  end.

Lemma kept_before_relay_binary (dir : string) (checked : LaunchConfig) :
  avoids (strays w chain) (before_relay_binary w dir checked).
Proof.
  unfold before_relay_binary, resolveParachainId, resolve_with, resolve_parachain_unguarded,
    getParachainIdFromSpec, spawn, generateNodeKeys, generate_node_key.
  repeat consistent.
Qed.

Lemma kept_executeTransaction (tx : Tx) (finalization : bool) :
  avoids (strays w chain) (executeTransaction w tx finalization).
Proof. unfold executeTransaction. repeat consistent. Qed.

Lemma kept_launch (dir : string) (config : LaunchConfig) (bootnodes : list string)
    (relaychain : RelayChainConfig) :
  lc_relaychain config = Some relaychain →
  rc_chain relaychain = chain →
  avoids (strays w chain) (launch w dir config bootnodes).
Proof.
  intros Hrc Hchain. unfold launch. rewrite Hrc, Hchain.
  unfold require_file, generateChainSpec, generateChainSpecRaw, spawn,
    addParachainsToGenesis, add_parachain_to_genesis, require_file, genesis_exports,
    exportGenesisState, exportGenesisWasm, addGenesisParachain, addHrmpChannelsToGenesis,
    startNode, connect_relay, first_wsPort, loadTypeDef, connect, disconnect,
    launch_parachain, launch_simple_parachain, require_file, nodes_of, startCollator,
    startSimpleCollator, spawn, setBalance.
  repeat first [apply kept_executeTransaction | consistent].
Qed.

Lemma kept_connect_relay (nodes : list RelayNodeConfig) (types : TypesDef) :
  avoids (strays w chain) (connect_relay w nodes types).
Proof. unfold connect_relay, first_wsPort, loadTypeDef, connect. repeat consistent. Qed.

Lemma kept_connect_typed (types : TypesDef) (port : Z) :
  avoids (strays w chain) (connect_typed w types port).
Proof. unfold connect_typed, loadTypeDef, connect. repeat consistent. Qed.

Lemma kept_baseline (nodes : list RelayNodeConfig) (types : TypesDef) :
  avoids (strays w chain) (baseline w nodes types).
Proof.
  unfold baseline, getRelayInfo, disconnect, waitForExtraOutput.
  repeat first [apply kept_connect_relay | consistent].
Qed.

Lemma kept_restart_relay_node (bin : string) (epoch_time : Z) (node : RelayNodeConfig) :
  avoids (strays w chain)
    (restart_relay_node bin (resolve_cwd w (chain +:+ "-raw.json")) epoch_time node).
Proof. unfold restart_relay_node, killProcess, startNode, spawn. repeat consistent. Qed.

Lemma kept_restart_parachain (dir : string) (types : TypesDef) (only_one : bool)
    (info : gmap string UpgradeSession) (p : ParachainConfig) :
  avoids (strays w chain)
    (restart_parachain w dir (resolve_cwd w (chain +:+ "-raw.json")) types only_one info p).
Proof.
  unfold restart_parachain, nodes_of, getSpecVersion, disconnect, waitForExtraOutput,
    killProcess, startCollator, spawn, applyAuraKey, giveKeyToCollator.
  repeat first [apply kept_connect_typed | consistent].
Qed.

Lemma kept_upgrade_relay (nodes : list RelayNodeConfig) (types : TypesDef)
    (wasm : option string) (epoch_time : Z) :
  avoids (strays w chain) (upgrade_relay w nodes types wasm epoch_time).
Proof.
  unfold upgrade_relay, upgradeRelayRuntime, readFileSync, getRelayInfo,
    getCodeValidationDelay, disconnect, waitForExtraOutput.
  repeat first [apply kept_connect_relay | apply kept_executeTransaction | consistent].
Qed.

Lemma kept_upgrade_parachain (types : TypesDef) (info : gmap string UpgradeSession)
    (p : ParachainConfig) :
  avoids (strays w chain) (upgrade_parachain w types info p).
Proof.
  unfold upgrade_parachain, upgradeParachainRuntime, readFileSync, disconnect,
    waitForExtraOutput.
  repeat first [apply kept_connect_typed | apply kept_executeTransaction | consistent].
Qed.

Lemma kept_verify_upgrades (fuel : nat) (types : TypesDef) (delay : Z)
    (parachains : list ParachainConfig) (info : gmap string UpgradeSession) :
  avoids (strays w chain) (verify_upgrades w fuel types delay parachains info).
Proof.
  unfold verify_upgrades. apply avoids_while_loop. intros vs.
  unfold verify_pass, verify_parachain, getSpecVersion, disconnect, waitForExtraOutput.
  repeat first [apply kept_connect_typed | consistent].
Qed.

Lemma kept_upgrade_test (fuel : nat) (dir : string) (config : LaunchConfig)
    (bin : string) (wasm : option string) (relaychain : RelayChainConfig) :
  lc_relaychain config = Some relaychain →
  rc_chain relaychain = chain →
  avoids (strays w chain) (upgrade_test w fuel dir config bin wasm).
Proof.
  intros Hrc Hchain. unfold upgrade_test. rewrite Hrc, Hchain.
  destruct (lc_parachains config) as [parachains|]; [|apply avoids_stop].
  apply avoids_bind; [apply kept_baseline | intros info].
  apply avoids_bind; [|intros sessions].
  { unfold restart_nodes. apply avoids_bind; [|intros _].
    - apply avoids_for_of. intros node. apply kept_restart_relay_node.
    - apply avoids_for_of_fold. intros acc p. apply kept_restart_parachain. }
  apply avoids_bind; [apply kept_upgrade_relay | intros upgraded].
  unfold after_relay_upgrade, check_relay_upgrade, parachain_phases, report_summary.
  repeat first [apply kept_upgrade_parachain | apply kept_verify_upgrades | consistent].
Qed.

Lemma kept_upgrade_parachains_test (fuel : nat) (dir : string) (config : LaunchConfig)
    (relaychain : RelayChainConfig) :
  lc_relaychain config = Some relaychain →
  rc_chain relaychain = chain →
  avoids (strays w chain) (upgrade_parachains_test w fuel dir config).
Proof.
  intros Hrc Hchain. unfold upgrade_parachains_test. rewrite Hrc, Hchain.
  destruct (lc_parachains config) as [parachains|]; [|apply avoids_stop].
  apply avoids_bind; [apply kept_baseline | intros info].
  apply avoids_bind;
    [apply avoids_for_of_fold; intros acc p; apply kept_restart_parachain
    | intros sessions].
  apply avoids_bind; [apply kept_connect_relay | intros api].
  unfold getCodeValidationDelay, disconnect, waitForExtraOutput.
  repeat first [apply kept_upgrade_parachain | apply kept_verify_upgrades | consistent].
Qed.

End FilesOfLaunch.

(** X15: in a run whose configuration passed the check, the chain spec
    of the relay is one file from its generation to the start of the
    nodes: [chain.json] is generated, every edit is made to [chain.json],
    the raw spec is generated from [chain.json] into [chain-raw.json], and
    every relay node, collator and simple collator is started with
    [chain-raw.json] resolved against the working directory. *)
Theorem run_keeps_to_one_chain_spec (w : World) (dir : string) (c : LaunchConfig)
    (relaychain : RelayChainConfig) (s : State) :
  fst (checkConfig w (Some c) None false) = true →
  lc_relaychain c = Some relaychain →
  let chain := rc_chain relaychain in
  raw_spec_input chain = Some (chain_spec_file chain)
  ∧ raw_spec_file chain None = chain +:+ "-raw.json"
  ∧ Forall (fun e => keeps_to (chain_spec_file chain) (raw_spec_file chain None)
                       (resolve_cwd w (raw_spec_file chain None)) e = true)
      (events (run w dir (Some c) s)).
Proof.
  intros Hcheck Hrc chain.
  pose proof (checkConfig_chain w c relaychain None false Hcheck Hrc) as Htruthy.
  fold chain in Htruthy.
  assert (Hin : raw_spec_input chain = Some (chain_spec_file chain)).
  { unfold raw_spec_input. fold (truthy_string chain). rewrite Htruthy. reflexivity. }
  assert (Hfile : raw_spec_file chain None = chain +:+ "-raw.json").
  { unfold raw_spec_file. fold (truthy_string chain). rewrite Htruthy. reflexivity. }
  split; [exact Hin | split; [exact Hfile|]].
  rewrite Hfile. unfold chain_spec_file.
  destruct (checkConfig_true w (Some c) None false Hcheck)
    as (c0 & rc & ps & [= <-] & _ & _ & _ & _ & Hsnd).
  assert (Hc : checkConfig w (Some c) None false
               = (true, Some (set_simpleParachains c
                                (Some (default [] (lc_simpleParachains c)))))).
  { destruct (checkConfig w (Some c) None false) as [ok checked].
    cbn in Hcheck, Hsnd. subst. reflexivity. }
  rewrite (run_unfold w dir (Some c) _ Hc).
  eapply Forall_impl;
    [|intros e He; destruct (keeps_to _ _ _ e) eqn:E; [reflexivity | exfalso; exact (He E)]].
  revert s.
  change (avoids (fun e => keeps_to (chain +:+ ".json") (chain +:+ "-raw.json")
                             (resolve_cwd w (chain +:+ "-raw.json")) e = false)
            (keyed <- before_relay_binary w dir
                        (set_simpleParachains c (Some (default [] (lc_simpleParachains c))));;
             launch w dir keyed.1 keyed.2;; ret (Some keyed.1))).
  intros s. rewrite events_bind. apply Forall_app. split.
  - apply (kept_before_relay_binary w chain).
  - destruct (outcome (before_relay_binary w dir _ s)) as [keyed| | |] eqn:Hpre;
      [|constructor..].
    destruct (before_relay_binary_post w dir _ keyed s Hpre)
      as (rc' & nodes' & ps' & Hrc0 & Hrc' & _).
    cbn in Hrc0. rewrite Hrc in Hrc0. injection Hrc0 as <-.
    rewrite events_bind. apply Forall_app. split.
    + apply (kept_launch w chain Htruthy dir keyed.1 keyed.2 _ Hrc'). reflexivity.
    + destruct (outcome (launch w dir keyed.1 keyed.2 _)); constructor.
Qed.

Lemma keeps_to_started_with (json raw spec : string) (e : Event) (file : string) :
  keeps_to json raw spec e = true → started_with e = Some file → file = spec.
Proof.
  destruct e; cbn [keeps_to started_with]; try discriminate;
    intros H [= <-]; apply bool_decide_eq_true_1 in H; exact H.
Qed.

(** X16: both upgrade tests start every relay node and every collator
    they restart with one file, [<chain>-raw.json] resolved against the
    working directory, where [chain] is the chain of the relay chain of the
    plan they are given. *)
Theorem upgrade_tests_restart_with_raw_spec (w : World) (dir : string)
    (plan : LaunchConfig) (relaychain : RelayChainConfig) :
  lc_relaychain plan = Some relaychain →
  let spec := resolve_cwd w (rc_chain relaychain +:+ "-raw.json") in
  ∀ fuel bin wasm s e file,
    e ∈ events (upgrade_test w fuel dir plan bin wasm s)
    ∨ e ∈ events (upgrade_parachains_test w fuel dir plan s) →
    started_with e = Some file →
    file = spec.
Proof.
  intros Hplan spec fuel bin wasm s e file He Hfile.
  apply (keeps_to_started_with (rc_chain relaychain +:+ ".json")
           (rc_chain relaychain +:+ "-raw.json") _ e file); [|exact Hfile].
  destruct (keeps_to _ _ _ e) eqn:E; [reflexivity | exfalso].
  destruct He as [He|He].
  - pose proof (kept_upgrade_test w (rc_chain relaychain) fuel dir plan bin wasm _
                  Hplan eq_refl s) as Hall.
    rewrite Forall_forall in Hall. exact (Hall e He E).
  - pose proof (kept_upgrade_parachains_test w (rc_chain relaychain) fuel dir plan _
                  Hplan eq_refl s) as Hall.
    rewrite Forall_forall in Hall. exact (Hall e He E).
Qed.

(** ** The further properties at sample inputs *)

(** X7 at the sample plan, checked for an upgrade test. *)
Lemma checkConfig_idempotent_sample :
  let checked := snd (checkConfig sample_world (Some sample_plan) (Some "cfg") true) in
  checked = Some (set_simpleParachains sample_plan (Some []))
  ∧ checkConfig sample_world checked (Some "cfg") true = (true, checked).
Proof.
  intros checked.
  destruct (checkConfig_idempotent sample_world (Some sample_plan) (Some "cfg") true)
    as (c & [= <-] & Hsnd & Hagain); [reflexivity|].
  split; [exact Hsnd | exact Hagain].
Defined.

(** X9 at a plan whose first relay node gives its key. *)
Lemma generateNodeKeys_keeps_given_keys_sample :
  let alice := set_nodeKey (relay_node "alice" 9944) (Some "cafe") in
  let plan := plan_of [alice; relay_node "bob" 9955] [] in
  ∃ keys, head keys = Some "cafe"
          ∧ events (generateNodeKeys sample_world plan initial_state)
            = map EGenerateKeyPair keys.
Proof.
  intros alice plan.
  destruct (generateNodeKeys_keeps_given_keys sample_world plan
              (set_relaychain plan
                 (Some (set_nodes (relaychain_of [alice; relay_node "bob" 9955])
                          [alice; set_nodeKey (relay_node "bob" 9955) (Some "ab")])))
              (relaychain_of [alice; relay_node "bob" 9955])
              ["/ip4/127.0.0.1/tcp/9945/p2p/12D3"; "/ip4/127.0.0.1/tcp/9956/p2p/12D3"]
              initial_state eq_refl eq_refl)
    as (keys & _ & _ & Hkeys & _ & Hev).
  exists keys. split; [|exact Hev].
  inversion Hkeys as [|node key nodes keys' Hkey _]; subst.
  cbn. rewrite <- (Hkey eq_refl). reflexivity.
Defined.


(** X12 at the sample plan: the raw chain spec is the fourteenth effect
    of the run. *)
Lemma raw_spec_after_edits_before_starts_sample :
  let evs := events (run sample_world "cfg" (Some sample_plan) initial_state) in
  evs !! 13%nat = Some (EGenerateChainSpecRaw "cfg/polkadot" "rococo-local" None)
  ∧ Forall (fun e => starts_node e = false ∧ makes_raw e = false) (take 13 evs)
  ∧ Forall (fun e => edits_spec e = false ∧ makes_raw e = false) (drop 14 evs).
Proof.
  intros evs. split; [vm_compute; reflexivity|].
  apply (raw_spec_after_edits_before_starts sample_world "cfg" (Some sample_plan)
           initial_state (take 13 evs) (drop 14 evs) "cfg/polkadot" "rococo-local" None).
  vm_compute. reflexivity.
Defined.

(** X14 at the sample plan, in a world without the relay's binary. *)
Lemma run_stops_without_relay_binary_sample :
  let w := without_file sample_world "cfg/polkadot" in
  outcome (run w "cfg" (Some sample_plan) initial_state) = Exited 0
  ∧ events (run w "cfg" (Some sample_plan) initial_state)
    = [EBuildSpec "cfg/collator" None; EGenerateKeyPair "ab"; EGenerateKeyPair "ab";
       EGenerateKeyPair "ab"].
Proof.
  intros w.
  assert (Hcheck : checkConfig w (Some sample_plan) None false
                   = (true, Some (set_simpleParachains sample_plan (Some []))))
    by (vm_compute; reflexivity).
  assert (Hbin : w_existsSync w (w_resolve w "cfg" "polkadot") = false)
    by (vm_compute; reflexivity).
  destruct (run_stops_without_relay_binary w "cfg" (Some sample_plan)
              (set_simpleParachains sample_plan (Some []))
              (relaychain_of [relay_node "alice" 9944; relay_node "bob" 9955;
                              relay_node "charlie" 9966])
              initial_state Hcheck eq_refl Hbin) as (_ & _ & H).
  destruct (H (match outcome (before_relay_binary w "cfg"
                                (set_simpleParachains sample_plan (Some []))
                                initial_state) with
               | Returned keyed => keyed
               | _ => (sample_plan, [])
               end)) as [Hout Hev]; [vm_compute; reflexivity|].
  split; [exact Hout|]. rewrite Hev. vm_compute. reflexivity.
Defined.

(** X15 at the sample plan: everything keeps to [rococo-local.json] and
    [rococo-local-raw.json]. *)
Lemma run_keeps_to_one_chain_spec_sample :
  Forall (fun e => keeps_to "rococo-local.json" "rococo-local-raw.json"
                     "/rococo-local-raw.json" e = true)
    (events (run sample_world "cfg" (Some sample_plan) initial_state)).
Proof.
  assert (Hcheck : fst (checkConfig sample_world (Some sample_plan) None false) = true)
    by (vm_compute; reflexivity).
  destruct (run_keeps_to_one_chain_spec sample_world "cfg" sample_plan
              (relaychain_of [relay_node "alice" 9944; relay_node "bob" 9955;
                              relay_node "charlie" 9966])
              initial_state Hcheck eq_refl) as (_ & _ & H).
  exact H.
Defined.

(** X16 at the sample plan: the first test restarts the three relay nodes
    and the two collators, the second the two collators, and every one of
    them is started with [rococo-local-raw.json]. *)
Lemma upgrade_tests_restart_with_raw_spec_sample :
  let plan := default sample_plan (launched sample_plan) in
  let first := events (upgrade_test sample_world 4 "cfg" plan "cfg/polkadot-v2"
                         (Some "cfg/relay-v2.wasm") (after_launch sample_plan)) in
  let second := events (upgrade_parachains_test sample_world 4 "cfg" plan
                          (after_launch sample_plan)) in
  omap started_with first = replicate 5 "/rococo-local-raw.json"
  ∧ omap started_with second = replicate 2 "/rococo-local-raw.json"
  ∧ Forall (fun e => ∀ file, started_with e = Some file → file = "/rococo-local-raw.json")
      (first ++ second).
Proof.
  intros plan first second.
  split; [vm_compute; reflexivity | split; [vm_compute; reflexivity|]].
  assert (Hplan : lc_relaychain plan
                  = Some (relaychain_of (from_option rc_nodes [] (lc_relaychain plan))))
    by (vm_compute; reflexivity).
  apply Forall_forall. intros e He file.
  apply (upgrade_tests_restart_with_raw_spec sample_world "cfg" plan _ Hplan
           4%nat "cfg/polkadot-v2" (Some "cfg/relay-v2.wasm") (after_launch sample_plan) e).
  apply elem_of_app in He. exact He.
Defined.
